(** * monsti-events: the past/upcoming partition of the event list

    A shallow embedding of [getEvents], [eventCtx.Upcoming],
    [getEventContext] and [getEventsContext] of the events module, and
    the properties of the partition they compute.

    Conventions of the embedding.
    - [time.Time] is an integer count of nanoseconds since the zero
      time, so the zero value of [time.Time] is [0].
    - Go's [int] is the 64-bit signed integer; the one addition that can
      leave the range ([pastIdx+limit]) wraps around.
    - A Go function returning [(values, error)] returns a tuple whose
      last component is an [error]; [nil] is [None]; a nil slice is the
      empty list.
    - A run-time panic is the [Panic] outcome of a computation.
    - The storage service, the clock, the template renderer and the URL
      parser are collaborators gathered in a [World]; the calls made to
      the storage service and the number of clock readings are recorded
      in a [Trace]. *)

From Stdlib Require Import ZArith Lia Ascii.
From stdpp Require Import base gmap strings list sorting.

Local Open Scope Z_scope.

(** ** Outcomes, errors and the effect monad *)

Inductive fault : Set :=
| TypeAssertion     (* x.(T) on a value that is not a T, or is nil *)
| NilDereference    (* field access through a nil pointer *)
| SliceBounds       (* s[lo:hi] outside 0 <= lo <= hi <= cap(s) *)
| IndexRange.       (* s[i] outside 0 <= i < len(s) *)

Inductive run (A : Type) : Type :=
| Done (a : A)
| Panic (f : fault).
Arguments Done {A} a.
Arguments Panic {A} f.

(** A Go [error] value: [nil] or a message. *)
Definition error : Type := option string.

(** fmt.Errorf(prefix + "%v", err) for a non-nil err. *)
Definition Errorf (prefix msg : string) : string := prefix +:+ msg.

Record Trace : Type := mkTrace {
  ticks : nat;              (* how often time.Now() has been read *)
  fetched : list string     (* paths handed to GetChildren, oldest first *)
}.

Definition M (A : Type) : Type := Trace → run (A * Trace).

Definition ret {A} (a : A) : M A := λ tr, Done (a, tr).

Definition bind {A B} (m : M A) (k : A → M B) : M B :=
  λ tr, match m tr with
        | Done (a, tr') => k a tr'
        | Panic f => Panic f
        end.

Definition lift {A} (r : run A) : M A :=
  λ tr, match r with
        | Done a => Done (a, tr)
        | Panic f => Panic f
        end.

Notation "x <~ m ; k" := (bind m (λ x, k))
  (at level 20, m at level 100, k at level 200, only parsing).
Notation "' p <~ m ; k" := (bind m (λ x, match x with p => k end))
  (at level 20, p pattern, m at level 100, k at level 200, only parsing).

(** ** Records of the content tree *)

Inductive Field : Type :=
| DateTimeField (Time : Z)
| TextField (Text : string).

Record Node : Type := mkNode {
  Path : string;
  Fields : gmap string Field
}.

Record eventCtx : Type := mkEventCtx {
  Node_ : option Node;     (* the embedded pointer to a service.Node *)
  Image : option Node
}.

(** The zero value that [make([]eventCtx, n)] fills the slice with. *)
Definition eventCtx_zero : eventCtx := mkEventCtx None None.

Record Request : Type := mkRequest {
  Site : string;
  NodePath : string;
  Query : gmap string (list string);
  Locale : string           (* req.Session.Locale *)
}.

Record EmbedNode : Type := mkEmbedNode { URI : string }.

Record CacheDep : Type := mkCacheDep { Node_dep : string; Descend : Z }.

Record CacheMods : Type := mkCacheMods {
  Deps : list CacheDep;
  Expire : Z                (* zero value: no expiry *)
}.

(** mtemplate.Context as the handlers fill it. *)
Inductive Context : Type :=
| ImagesContext (Images : list Node)
| EventsContext (UpcomingOnly PastOnly : bool)
                (UpcomingEvents PastEvents : list eventCtx)
                (Embedded : option EmbedNode).

(** ** Collaborators *)

Record World : Type := mkWorld {
  (* the instant returned by the k-th call of time.Now() *)
  clock : nat → Z;
  (* dataServ.GetChildren(site, path) *)
  GetChildren : string → string → list Node * error;
  (* s.Monsti().GetRequest(reqId) *)
  GetRequest : nat → option Request * error;
  (* url.Parse(uri), followed by .Query() on success *)
  url_Parse : string → gmap string (list string) * error;
  (* renderer.Render(template, context, locale, templatesPath) *)
  Render : string → Context → string → string → string * error;
  (* m.GetSiteTemplatesPath(site) *)
  GetSiteTemplatesPath : string → string
}.

Definition time_Now (w : World) : M Z :=
  λ tr, Done (clock w (ticks tr), mkTrace (S (ticks tr)) (fetched tr)).

Definition call_GetChildren (w : World) (site path : string)
  : M (list Node * error) :=
  λ tr, Done (GetChildren w site path,
              mkTrace (ticks tr) (fetched tr ++ [path])).

(** ** The start-time field and the two operations that read it *)

(** The expression n.Fields["events.StartTime"] asserted to be a
    DateTimeField, then its Time: the assertion panics on a missing
    field (a nil interface) and on a field of another type. *)
Definition StartTime (n : Node) : run Z :=
  match Fields n !! "events.StartTime"%string with
  | Some (DateTimeField t) => Done t
  | _ => Panic TypeAssertion
  end.

(** Upcoming checks if this is an upcoming event. *)
Definition Upcoming (w : World) (e : eventCtx) : M bool :=
  match Node_ e with
  | None => lift (Panic NilDereference)
  | Some n =>
      t <~ lift (StartTime n) ;
      now <~ time_Now w ;
      ret (now <? t)
  end.

(** The comparator handed to the sorter. *)
Definition order (left right : Node) : run bool :=
  match StartTime left with
  | Panic f => Panic f
  | Done lleft =>
      match StartTime right with
      | Panic f => Panic f
      | Done rright => Done (lleft <? rright)
      end
  end.

(** sort.Reverse: Less(i, j) of the wrapper is Less(j, i) of the wrapped. *)
Definition Reverse {A} (Less : A → A → run bool) : A → A → run bool :=
  λ x y, Less y x.

(** ** The sort package

    [sort.Sort] belongs to the Go standard library.  It is used through
    its contract: when the comparator is a strict weak order that does
    not panic on the elements of the slice, the slice is rearranged
    into a permutation in which no element is less than one before it.
    The sort is not stable, so the order of ties is left open. *)

Record StrictWeak {A} (lt : A → A → bool) : Prop := mkStrictWeak {
  sw_irrefl : ∀ x, lt x x = false;
  sw_trans : ∀ x y z, lt x y = true → lt y z = true → lt x z = true;
  sw_negtrans : ∀ x y z, lt x y = false → lt y z = false → lt x z = false
}.

Class SortPackage : Type := mkSortPackage {
  sort_Sort : ∀ {A : Type}, (A → A → run bool) → list A → run (list A);
  sort_Sort_contract :
    ∀ (A : Type) (Less : A → A → run bool) (lt : A → A → bool) (l : list A),
      StrictWeak lt →
      (∀ x y, x ∈ l → y ∈ l → Less x y = Done (lt x y)) →
      ∃ l', sort_Sort Less l = Done l' ∧ l' ≡ₚ l ∧
            StronglySorted (λ a b, lt b a = false) l'
}.

(** The library's insertion sort, which [sort.Sort] runs on short
    slices: each element in turn is swapped leftwards while it is less
    than its left neighbour.  [sorted_rev] is the sorted prefix, last
    element first. *)
Fixpoint insert_left {A} (Less : A → A → run bool) (x : A) (sorted_rev : list A)
  : run (list A) :=
  match sorted_rev with
  | [] => Done [x]
  | p :: ps =>
      match Less x p with
      | Panic f => Panic f
      | Done true =>
          match insert_left Less x ps with
          | Panic f => Panic f
          | Done r => Done (p :: r)
          end
      | Done false => Done (x :: p :: ps)
      end
  end.

Fixpoint insertionSort_from {A} (Less : A → A → run bool)
  (sorted_rev todo : list A) : run (list A) :=
  match todo with
  | [] => Done (reverse sorted_rev)
  | x :: rest =>
      match insert_left Less x sorted_rev with
      | Panic f => Panic f
      | Done s => insertionSort_from Less s rest
      end
  end.

Definition insertionSort {A} (Less : A → A → run bool) (l : list A)
  : run (list A) :=
  insertionSort_from Less [] l.

(** ** Slices and machine integers *)

(** The 64-bit two's complement wrap-around of Go's [int]. *)
Definition int_wrap (z : Z) : Z := (z + 2 ^ 63) mod 2 ^ 64 - 2 ^ 63.

Definition int_add (a b : Z) : Z := int_wrap (a + b).

Definition int_range (z : Z) : Prop := - 2 ^ 63 ≤ z < 2 ^ 63.

(** a[i] as a value. *)
Definition index {A} (a : list A) (i : Z) : run A :=
  if i <? 0 then Panic IndexRange
  else match a !! Z.to_nat i with
       | Some x => Done x
       | None => Panic IndexRange
       end.

(** a[i] = f(a[i]): an assignment to (a field of) the i-th element. *)
Definition assign {A} (a : list A) (i : Z) (f : A → A) : run (list A) :=
  match index a i with
  | Done x => Done (<[Z.to_nat i := f x]> a)
  | Panic p => Panic p
  end.

(** a[lo:hi] of a slice whose capacity is its length. *)
Definition slice {A} (a : list A) (lo hi : Z) : run (list A) :=
  if (0 <=? lo) && (lo <=? hi) && (hi <=? Z.of_nat (length a))
  then Done (take (Z.to_nat (hi - lo)) (drop (Z.to_nat lo) a))
  else Panic SliceBounds.

(** ** getEvents *)

Record loopState : Type := mkLoop {
  eventCtxs : list eventCtx;
  pastIdx : Z;
  pastCount : Z
}.

(** How one iteration of the scan ends. *)
Inductive flow : Type :=
| Next (s : loopState)        (* fall through to the next index *)
| Break (s : loopState)       (* break *)
| Return (err : string).      (* return nil, nil, err *)

(** if limit != -1 && pastCount > limit { break } *)
Definition limit_check (limit : Z) (s : loopState) : flow :=
  if negb (limit =? -1) && (pastCount s >? limit) then Break s else Next s.

(** The else branch of the loop body: the event at [idx] is not counted
    upcoming.  [ctxs], [pastIdx] and [pastCount] are the variables of
    getEvents at that point. *)
Definition not_upcoming (w : World) (site : string) (upcomingOnly : bool)
  (limit : Z) (idx : Z) (ev : Node) (ctxs : list eventCtx)
  (pastIdx pastCount : Z) : M flow :=
  if upcomingOnly then
    ret (Break (mkLoop ctxs pastIdx pastCount))
  else
    '(images, err) <~ call_GetChildren w site (Path ev) ;
    match err with
    | Some e => ret (Return (Errorf "Could not fetch children: " e))
    | None =>
        ctxs' <~ lift (match images with
                       | [] => Done ctxs
                       | im :: _ =>
                           assign ctxs idx (λ e, mkEventCtx (Node_ e) (Some im))
                       end) ;
        ret (limit_check limit (mkLoop ctxs' pastIdx (pastCount + 1)))
    end.

(** The body of [for idx := range events], with [ev] = events[idx]. *)
Definition scan_body (w : World) (site : string) (upcomingOnly : bool)
  (limit : Z) (idx : Z) (ev : Node) (s : loopState) : M flow :=
  ctxs <~ lift (assign (eventCtxs s) idx
                  (λ e, mkEventCtx (Some ev) (Image e))) ;
  up <~ (if idx =? pastIdx s
         then e <~ lift (index ctxs idx) ; Upcoming w e
         else ret false) ;
  if up then
    ret (limit_check limit (mkLoop ctxs (pastIdx s + 1) (pastCount s)))
  else
    not_upcoming w site upcomingOnly limit idx ev ctxs (pastIdx s) (pastCount s).

(** [for idx := range events]: [todo] are the events from index [idx] on. *)
Fixpoint scan (w : World) (site : string) (upcomingOnly : bool) (limit : Z)
  (todo : list Node) (idx : Z) (s : loopState) : M (loopState + string) :=
  match todo with
  | [] => ret (inl s)
  | ev :: rest =>
      r <~ scan_body w site upcomingOnly limit idx ev s ;
      match r with
      | Next s' => scan w site upcomingOnly limit rest (idx + 1) s'
      | Break s' => ret (inl s')
      | Return e => ret (inr e)
      end
  end.

(** for i, j := 0, pastIdx-1; i < j; i, j = i+1, j-1 { swap }.
    The distance j - i shrinks by two in every round, so a fuel of
    len(a) rounds is never used up. *)
Fixpoint reverse_loop (fuel : nat) (i j : Z) (a : list eventCtx)
  : run (list eventCtx) :=
  if i <? j then
    match fuel with
    | O => Done a
    | S fuel' =>
        match index a i, index a j with
        | Done x, Done y =>
            reverse_loop fuel' (i + 1) (j - 1)
              (<[Z.to_nat j := x]> (<[Z.to_nat i := y]> a))
        | Panic p, _ | _, Panic p => Panic p
        end
    end
  else Done a.

(** The end of getEvents, after the scan: the upcoming prefix is
    reversed in place and the two windows are cut out of the slice. *)
Definition windows (pastOnly upcomingOnly : bool) (limit : Z) (s : loopState)
  : run (list eventCtx * list eventCtx) :=
  match reverse_loop (length (eventCtxs s)) 0 (pastIdx s - 1) (eventCtxs s) with
  | Panic f => Panic f
  | Done ctxs =>
      let pastEnd := Z.of_nat (length ctxs) in
      let pastEnd :=
        if negb (limit =? -1) && (pastEnd >? int_add (pastIdx s) limit)
        then int_add (pastIdx s) limit else pastEnd in
      let pastEnd := if upcomingOnly then pastIdx s else pastEnd in
      let upcomingEnd := if pastOnly then 0 else pastIdx s in
      match slice ctxs 0 upcomingEnd with
      | Panic f => Panic f
      | Done upcoming =>
          match slice ctxs (pastIdx s) pastEnd with
          | Panic f => Panic f
          | Done past => Done (upcoming, past)
          end
      end
  end.

Definition getEvents `{SortPackage} (w : World) (req : Request)
  (pastOnly upcomingOnly : bool) (limit : Z)
  : M (list eventCtx * list eventCtx * error) :=
  '(events, err) <~ call_GetChildren w (Site req) "/aktionen" ;
  match err with
  | Some e => ret ([], [], Some (Errorf "Could not fetch children: " e))
  | None =>
      events <~ lift (sort_Sort (Reverse order) events) ;
      let eventCtxs0 := replicate (length events) eventCtx_zero in
      r <~ scan w (Site req) upcomingOnly limit events 0
             (mkLoop eventCtxs0 0 0) ;
      match r with
      | inr e => ret ([], [], Some e)
      | inl s =>
          '(upcoming, past) <~ lift (windows pastOnly upcomingOnly limit s) ;
          ret (upcoming, past, None)
      end
  end.

(** ** The context handlers *)

(** strconv.Atoi of the Go standard library: an optional sign, then one
    or more decimal digits, the value within the range of [int]. *)
Definition digit_value (c : ascii) : option Z :=
  let n := Z.of_nat (nat_of_ascii c) in
  if (48 <=? n) && (n <=? 57) then Some (n - 48) else None.

Fixpoint digits_value (acc : Z) (s : string) : option Z :=
  match s with
  | EmptyString => Some acc
  | String c s' =>
      match digit_value c with
      | Some d => digits_value (acc * 10 + d) s'
      | None => None
      end
  end.

Definition strconv_Atoi (s : string) : Z * error :=
  let '(neg, body) :=
    match s with
    | String "-"%char r => (true, r)
    | String "+"%char r => (false, r)
    | _ => (false, s)
    end in
  match body with
  | EmptyString => (0, Some "invalid syntax"%string)
  | _ =>
      match digits_value 0 body with
      | None => (0, Some "invalid syntax"%string)
      | Some v =>
          let v := if neg : bool then - v else v in
          if (- 2 ^ 63 <=? v) && (v <? 2 ^ 63) then (v, None)
          else (0, Some "value out of range"%string)
      end
  end.

(** url.Values.Get: the first value of the key, or the empty string. *)
Definition Values_Get (query : gmap string (list string)) (key : string)
  : string :=
  match query !! key with
  | Some (v :: _) => v
  | _ => EmptyString
  end.

(** len(query[key]) > 0 *)
Definition Values_has (query : gmap string (list string)) (key : string)
  : bool :=
  match query !! key with
  | Some (_ :: _) => true
  | _ => false
  end.

(** The limit that getEventsContext derives from the query. *)
Definition limit_param (query : gmap string (list string)) : Z :=
  match strconv_Atoi (Values_Get query "limit") with
  | (limitParam, None) => if limitParam <? 1 then 1 else limitParam
  | (_, Some _) => -1
  end.

Definition handler_result : Type :=
  option (gmap string string) * option CacheMods * error.

Definition getEventContext (w : World) (reqId : nat)
  (embed : option EmbedNode) : M handler_result :=
  match GetRequest w reqId with
  | (_, Some e) => ret (None, None, Some (Errorf "Could not get request: " e))
  | (None, None) => lift (Panic NilDereference)
  | (Some req, None) =>
      '(images, err) <~ call_GetChildren w (Site req) (NodePath req) ;
      match err with
      | Some e => ret (None, None, Some (Errorf "Could not fetch images: " e))
      | None =>
          match Render w "events/event-images" (ImagesContext images)
                  (Locale req) (GetSiteTemplatesPath w (Site req)) with
          | (_, Some e) =>
              ret (None, None, Some (Errorf "Could not render template: " e))
          | (rendered, None) =>
              let mods := mkCacheMods [mkCacheDep (NodePath req) 1] 0 in
              ret (Some {[ "EventImages"%string := rendered ]}, Some mods, None)
          end
      end
  end.

(** UpcomingEvents[0].Fields["events.StartTime"], asserted and read. *)
Definition first_start (upcoming : list eventCtx) : run Z :=
  match upcoming with
  | [] => Done 0
  | e :: _ =>
      match Node_ e with
      | None => Panic NilDereference
      | Some n => StartTime n
      end
  end.

Definition getEventsContext `{SortPackage} (w : World) (reqId : nat)
  (embed : option EmbedNode) : M handler_result :=
  match GetRequest w reqId with
  | (_, Some e) => ret (None, None, Some (Errorf "Could not get request: " e))
  | (None, None) => lift (Panic NilDereference)
  | (Some req, None) =>
      match (match embed with
             | Some em => url_Parse w (URI em)
             | None => (Query req, None)
             end) with
      | (_, Some _) => ret (None, None, Some "Could not parse embed URI"%string)
      | (query, None) =>
          let pastOnly := Values_has query "past" in
          let upcomingOnly := Values_has query "upcoming" in
          let limit := limit_param query in
          '(upcoming, past, err) <~
             getEvents w req pastOnly upcomingOnly limit ;
          match err with
          | Some e =>
              ret (None, None, Some (Errorf "Could not retrieve events: " e))
          | None =>
              match Render w "events/event-list"
                      (EventsContext upcomingOnly pastOnly upcoming past embed)
                      (Locale req) (GetSiteTemplatesPath w (Site req)) with
              | (_, Some e) =>
                  ret (None, None,
                       Some (Errorf "Could not render template: " e))
              | (rendered, None) =>
                  expire <~ lift (first_start upcoming) ;
                  let mods :=
                    mkCacheMods [mkCacheDep (NodePath req) 2] expire in
                  ret (Some {[ "EventList"%string := rendered ]},
                       Some mods, None)
              end
          end
      end
  end.

(** The same world with another query in the requests it resolves. *)
Definition with_query (w : World) (query : gmap string (list string)) : World :=
  mkWorld (clock w) (GetChildren w)
    (λ reqId,
       match GetRequest w reqId with
       | (Some r, e) =>
           (Some (mkRequest (Site r) (NodePath r) query (Locale r)), e)
       | (None, e) => (None, e)
       end)
    (url_Parse w) (Render w) (GetSiteTemplatesPath w).

(** ** What the scan computes, as pure functions

    These definitions describe the outcome of the scan without the
    slice and the counters; the lemmas below relate them to [scan]. *)

(** A node whose start-time field is present and a DateTime. *)
Definition has_start (n : Node) : Prop := ∃ t, StartTime n = Done t.

(** The start time of such a node. *)
Definition start (n : Node) : Z :=
  match StartTime n with
  | Done t => t
  | Panic _ => 0
  end.

(** The entry of a node that was only classified ... *)
Definition view (n : Node) : eventCtx := mkEventCtx (Some n) None.

(** ... and of one whose first child was looked up as its thumbnail. *)
Definition view_with_image (w : World) (site : string) (n : Node) : eventCtx :=
  mkEventCtx (Some n) (head (GetChildren w site (Path n)).1).

(** The number of leading events found upcoming, the first compared
    with the clock reading number [t], the next with reading [t+1], ... *)
Fixpoint upcoming_prefix (w : World) (t : nat) (evs : list Node) : nat :=
  match evs with
  | [] => O
  | ev :: rest =>
      if clock w t <? start ev then S (upcoming_prefix w (S t) rest) else O
  end.

(** The thumbnail lookups for the events after the upcoming prefix:
    the entries built, the paths looked up, and the error that ended
    the lookups, if any.  [pc] is [pastCount] on entry. *)
Fixpoint fetch_scan (w : World) (site : string) (limit : Z)
  (todo : list Node) (pc : Z) : list eventCtx * list string * error :=
  match todo with
  | [] => ([], [], None)
  | ev :: rest =>
      match (GetChildren w site (Path ev)).2 with
      | Some e => ([], [Path ev], Some e)
      | None =>
          if negb (limit =? -1) && (pc + 1 >? limit)
          then ([view_with_image w site ev], [Path ev], None)
          else
            let '(cs, ps, e) := fetch_scan w site limit rest (pc + 1) in
            (view_with_image w site ev :: cs, Path ev :: ps, e)
      end
  end.

(** The number of thumbnail lookups that the limit check lets through
    among [n] events when no lookup fails: the check comes after the
    lookup, so the loop breaks once [pastCount] has passed the limit. *)
Definition lookups (limit pc : Z) (n : nat) : nat :=
  if limit =? -1 then n else min n (Z.to_nat (limit + 1 - pc)).

(** A limit the caller can pass without the sum pastIdx+limit leaving
    the range of [int]. *)
Definition limit_ok (limit : Z) (n : nat) : Prop :=
  limit = -1 ∨ 0 ≤ limit ∧ Z.of_nat n + limit < 2 ^ 63.

(** The two windows of a query that succeeds, from the sorted events
    and the length [k] of their upcoming prefix. *)
Definition upcoming_window (pastOnly : bool) (k : nat) (sorted : list Node)
  : list eventCtx :=
  if pastOnly then [] else reverse (view <$> take k sorted).

Definition past_window (w : World) (site : string) (upcomingOnly : bool)
  (limit : Z) (k : nat) (sorted : list Node) : list eventCtx :=
  if upcomingOnly then []
  else view_with_image w site <$>
         (if limit =? -1 then drop k sorted
          else take (Z.to_nat limit) (drop k sorted)).

(** A thumbnail lookup that succeeds. *)
Definition lookup_ok (w : World) (site : string) (ev : Node) : Prop :=
  (GetChildren w site (Path ev)).2 = None.

(** The nodes of a window. *)
Definition nodes_of (win : list eventCtx) : list Node :=
  omap Node_ win.

(** ** The reference partition of the specification

    [IsUpcoming] and [reference_partition] follow the words of the
    specification, not the code: a record is upcoming iff its start
    time is strictly after the evaluation instant, one instant for the
    whole query; the upcoming records come soonest first, the others
    most recent first.  [sorted] is the arrangement of the records by
    descending start time. *)

Definition IsUpcoming (now : Z) (n : Node) : Prop := now < start n.

#[export] Instance IsUpcoming_dec now n : Decision (IsUpcoming now n) :=
  decide (now < start n).

Definition reference_partition (now : Z) (sorted : list Node)
  : list Node * list Node :=
  (reverse (filter (IsUpcoming now) sorted),
   filter (λ n, ¬ IsUpcoming now n) sorted).

(** The windows that the flags and the limit select from the reference
    partition: pastOnly leaves out the upcoming records, upcomingOnly
    the past ones, and the limit bounds the past window. *)
Definition reference_windows (now : Z) (pastOnly upcomingOnly : bool)
  (limit : Z) (sorted : list Node) : list Node * list Node :=
  let '(upcoming, past) := reference_partition now sorted in
  (if pastOnly then [] else upcoming,
   if upcomingOnly then []
   else if limit =? -1 then past else take (Z.to_nat limit) past).

(** The order of the sorted events: the later one first. *)
Definition later_first (a b : Node) : Prop := start b ≤ start a.

(** Records with the same start time are neighbours: between two of
    them no record starts at another time. *)
Definition ties_adjacent (l : list Node) : Prop :=
  ∀ (i j k : nat) a b c,
    (i < j < k)%nat →
    l !! i = Some a → l !! j = Some b → l !! k = Some c →
    start a = start c → start b = start a.

(** A path whose children the storage service enumerates. *)
Definition enumerated (w : World) (site path : string) : Prop :=
  (GetChildren w site path).2 = None.

(** ** The scenario of the specification

    Four events starting three days and one day before, and two and
    five days after the instant [T]; the clock stands at [T].  The
    event of the day before has one child, its thumbnail. *)

Module Scenario.
Definition day : Z := 86400000000000.
Definition T : Z := 735599 * day.

Definition event (name : string) (t : Z) : Node :=
  mkNode ("/aktionen/" +:+ name)
    {[ "events.StartTime"%string := DateTimeField t;
       "core.Title"%string := TextField name ]}.

Definition e1 : Node := event "a" (T - 3 * day).
Definition e2 : Node := event "b" (T - 1 * day).
Definition e3 : Node := event "c" (T + 2 * day).
Definition e4 : Node := event "d" (T + 5 * day).
Definition events : list Node := [e1; e2; e3; e4].

Definition thumb : Node := mkNode "/aktionen/b/thumb" ∅.

Definition children (path : string) : list Node * error :=
  if String.eqb path "/aktionen" then (events, None)
  else if String.eqb path "/aktionen/b" then ([thumb], None)
  else ([], None).

Definition req : Request := mkRequest "example" "/termine" ∅ "de".

Definition world : World :=
  mkWorld (λ _, T) (λ _ path, children path)
    (λ _, (Some req, None)) (λ _, (∅, None))
    (λ _ _ _ _, ("<ul/>"%string, None)) (λ site, site).

(** The same site with a storage service that cannot enumerate the
    children of the event "b". *)
Definition broken_children (path : string) : list Node * error :=
  if String.eqb path "/aktionen/b" then ([], Some "timeout"%string)
  else children path.

Definition broken_world : World :=
  mkWorld (λ _, T) (λ _ path, broken_children path)
    (λ _, (Some req, None)) (λ _, (∅, None))
    (λ _ _ _ _, ("<ul/>"%string, None)) (λ site, site).

Definition tr0 : Trace := mkTrace 0 [].
End Scenario.

(** Two events starting at the same time, and a clock that passes that
    time between its first and its second reading. *)
Module Crossing.
Definition p : Node := Scenario.event "p" 10.
Definition q : Node := Scenario.event "q" 10.

Definition world : World :=
  mkWorld (λ i, match i with O => 9 | S _ => 11 end)
    (λ _ path, if String.eqb path "/aktionen" then ([p; q], None)
               else ([], None))
    (λ _, (Some Scenario.req, None)) (λ _, (∅, None))
    (λ _ _ _ _, ("<ul/>"%string, None)) (λ site, site).
End Crossing.

(** The events of the scenario under a clock that advances by three
    days from one reading to the next: it passes the start of the event
    "c" between its first and its second reading. *)
Module Moving.
Definition world : World :=
  mkWorld (λ i, Scenario.T + Z.of_nat i * 259200000000000)
    (λ _ path, Scenario.children path)
    (λ _, (Some Scenario.req, None)) (λ _, (∅, None))
    (λ _ _ _ _, ("<ul/>"%string, None)) (λ site, site).
End Moving.

(** Records that break the presupposition: one without the start-time
    field, one whose start-time field is a text. *)
Module Untyped.
Definition missing : Node :=
  mkNode "/aktionen/x" {[ "core.Title"%string := TextField "x" ]}.
Definition mistyped : Node :=
  mkNode "/aktionen/y"
    {[ "events.StartTime"%string := TextField "tomorrow" ]}.

Definition world (events : list Node) : World :=
  mkWorld (λ _, Scenario.T)
    (λ _ path, if String.eqb path "/aktionen" then (events, None)
               else ([], None))
    (λ _, (Some Scenario.req, None)) (λ _, (∅, None))
    (λ _ _ _ _, ("<ul/>"%string, None)) (λ site, site).
End Untyped.

(** ** The node context handler

    The function that setup wraps into the signal handler of the
    module.  It takes a session from the pool c.Sessions for the time
    of one call and answers for the two node types of the module.  The
    services reached through the session are those of the [World]. *)

(** The pool c.Sessions: the error of its k-th New, nil when a session
    is handed out. *)
Record SessionPool : Type := mkSessionPool {
  Sessions_New : nat → error
}.

(** The calls made on the pool. *)
Record PoolLog : Type := mkPoolLog {
  news : nat;               (* calls of c.Sessions.New() *)
  frees : nat               (* calls of c.Sessions.Free(session) *)
}.

(** The switch on the node type. *)
Definition dispatch `{SortPackage} (w : World) (req : nat) (nodeType : string)
  (embedNode : option EmbedNode) : M handler_result :=
  if String.eqb nodeType "events.Events" then
    '(ctx, mods, err) <~ getEventsContext w req embedNode ;
    match err with
    | Some e =>
        ret (None, None, Some (Errorf "Could not get events context: " e))
    | None => ret (ctx, mods, None)
    end
  else if String.eqb nodeType "events.Event" then
    '(ctx, mods, err) <~ getEventContext w req embedNode ;
    match err with
    | Some e =>
        ret (None, None, Some (Errorf "Could not get event context: " e))
    | None => ret (ctx, mods, None)
    end
  else ret (None, None, None).

(** The handler: the deferred Free runs when the switch returns and
    when it panics. *)
Definition nodeContextHandler `{SortPackage} (w : World) (c : SessionPool)
  (req : nat) (nodeType : string) (embedNode : option EmbedNode)
  (pl : PoolLog) (tr : Trace) : run (handler_result * Trace) * PoolLog :=
  match Sessions_New c (news pl) with
  | Some e =>
      (Done ((None, None, Some (Errorf "Could not get session: " e)), tr),
       mkPoolLog (S (news pl)) (frees pl))
  | None =>
      (dispatch w req nodeType embedNode tr,
       mkPoolLog (S (news pl)) (S (frees pl)))
  end.

(** ** setup *)

Definition LanguageMap : Type := gmap string string.

Record NodeField : Type := mkNodeField {
  Id_field : string;
  Name_field : option LanguageMap;
  Required : bool;
  Type_field : string
}.

Record NodeType : Type := mkNodeType {
  Id : string;
  AddableTo : list string;
  Name : option LanguageMap;
  Hide : bool;
  Fields_type : list NodeField
}.

(** The Monsti service as setup uses it, and i18n.GenLanguageMap. *)
Record Monsti : Type := mkMonsti {
  RegisterNodeType : NodeType → error;
  AddSignalHandler : error;
  GenLanguageMap : string → list string → LanguageMap
}.

Definition availableLocales : list string := ["de"; "en"]%string.

(** G marks a message for translation and returns it. *)
Definition G (msg : string) : string := msg.

(** The verb %q on an identifier none of whose characters needs an
    escape: the identifier between double quotes. *)
Definition double_quote : string := String (ascii_of_nat 34) EmptyString.

Definition quoted (s : string) : string := double_quote +:+ s +:+ double_quote.

Definition event_type (m : Monsti) : NodeType :=
  mkNodeType "events.Event" ["events.Events"%string]
    (Some (GenLanguageMap m (G "Event") availableLocales)) true
    [ mkNodeField "core.Title" None false EmptyString;
      mkNodeField "core.Body" None false EmptyString;
      mkNodeField "events.Place"
        (Some (GenLanguageMap m (G "Place") availableLocales)) false "Text";
      mkNodeField "events.StartTime"
        (Some (GenLanguageMap m (G "Start") availableLocales)) true
        "DateTime" ].

Definition events_type (m : Monsti) : NodeType :=
  mkNodeType "events.Events" []
    (Some (GenLanguageMap m (G "Event list") availableLocales)) false
    [ mkNodeField "core.Title" None false EmptyString ].

(** A call on the Monsti service. *)
Inductive ServiceCall : Type :=
| RegisterNodeType_call (nodeType : NodeType)
| AddSignalHandler_call.

(** How setup ends: it returns an error value (nil or not), or the
    logger's Fatalf ends the process. *)
Inductive SetupEnd : Type :=
| Returns (err : error)
| Fatalf (msg : string).

Definition register_error (nodeType : NodeType) (e : string) : string :=
  Errorf ("Could not register " +:+ quoted (Id nodeType) +:+ " node type: ") e.

Definition setup (m : Monsti) : list ServiceCall * SetupEnd :=
  let nodeType := event_type m in
  match RegisterNodeType m nodeType with
  | Some e =>
      ([RegisterNodeType_call nodeType],
       Returns (Some (register_error nodeType e)))
  | None =>
      let nodeType' := events_type m in
      match RegisterNodeType m nodeType' with
      | Some e =>
          ([RegisterNodeType_call nodeType; RegisterNodeType_call nodeType'],
           Returns (Some (register_error nodeType' e)))
      | None =>
          let calls := [RegisterNodeType_call nodeType;
                        RegisterNodeType_call nodeType';
                        AddSignalHandler_call] in
          match AddSignalHandler m with
          | Some e =>
              (calls, Fatalf (Errorf "Could not add signal handler: " e))
          | None => (calls, Returns None)
          end
      end
  end.

(** The error of a call on the service. *)
Definition call_error (m : Monsti) (c : ServiceCall) : error :=
  match c with
  | RegisterNodeType_call nodeType => RegisterNodeType m nodeType
  | AddSignalHandler_call => AddSignalHandler m
  end.

(** ** nodeSort

    The earlier version of the module sorts through its own
    implementation of sort.Interface. *)

Class Interface (T : Type) : Type := mkInterface {
  Len : T → Z;
  Less : T → Z → Z → run bool;
  Swap : T → Z → Z → run T
}.

Record nodeSort : Type := mkNodeSort {
  Nodes : list Node;
  Sorter : Node → Node → run bool
}.

Definition nodeSort_Len (s : nodeSort) : Z := Z.of_nat (length (Nodes s)).

(** s.Nodes[i], s.Nodes[j] = s.Nodes[j], s.Nodes[i]: both operands are
    read, then both elements are assigned. *)
Definition nodeSort_Swap (s : nodeSort) (i j : Z) : run nodeSort :=
  match index (Nodes s) j with
  | Panic f => Panic f
  | Done y =>
      match index (Nodes s) i with
      | Panic f => Panic f
      | Done x =>
          Done (mkNodeSort (<[Z.to_nat j := x]> (<[Z.to_nat i := y]> (Nodes s)))
                  (Sorter s))
      end
  end.

Definition nodeSort_Less (s : nodeSort) (i j : Z) : run bool :=
  match index (Nodes s) i with
  | Panic f => Panic f
  | Done x =>
      match index (Nodes s) j with
      | Panic f => Panic f
      | Done y => Sorter s x y
      end
  end.

#[export] Instance nodeSort_Interface : Interface nodeSort :=
  mkInterface nodeSort nodeSort_Len nodeSort_Less nodeSort_Swap.

(** The exchange of the indices [i] and [j]. *)
Definition transpose (i j k : Z) : Z :=
  if k =? i then j else if k =? j then i else k.

(** sort.Reverse: the wrapper embeds the interface and replaces Less. *)
Record sort_reverse (T : Type) : Type := mkReverse { Interface_ : T }.
Arguments mkReverse {T} _.
Arguments Interface_ {T} _.

#[export] Instance reverse_Interface `{Interface T}
  : Interface (sort_reverse T) :=
  mkInterface (sort_reverse T)
    (λ r, Len (Interface_ r))
    (λ r i j, Less (Interface_ r) j i)
    (λ r i j, match Swap (Interface_ r) i j with
              | Done d => Done (mkReverse d)
              | Panic f => Panic f
              end).

(** The insertion sort of the sort package over the interface:

      for i := a + 1; i < b; i++ {
        for j := i; j > a && data.Less(j, j-1); j-- {
          data.Swap(j, j-1)
        }
      }

    The inner loop makes at most j - a rounds and the outer one at
    most b - a - 1, which is the fuel they are given. *)
Fixpoint insertionSort_inner `{Interface T} (fuel : nat) (a j : Z) (data : T)
  : run T :=
  match fuel with
  | O => Done data
  | S fuel' =>
      if j >? a then
        match Less data j (j - 1) with
        | Panic f => Panic f
        | Done false => Done data
        | Done true =>
            match Swap data j (j - 1) with
            | Panic f => Panic f
            | Done data' => insertionSort_inner fuel' a (j - 1) data'
            end
        end
      else Done data
  end.

Fixpoint insertionSort_outer `{Interface T} (fuel : nat) (a b i : Z) (data : T)
  : run T :=
  match fuel with
  | O => Done data
  | S fuel' =>
      if i <? b then
        match insertionSort_inner (Z.to_nat (i - a)) a i data with
        | Panic f => Panic f
        | Done data' => insertionSort_outer fuel' a b (i + 1) data'
        end
      else Done data
  end.

Definition insertionSort_data `{Interface T} (data : T) (a b : Z) : run T :=
  insertionSort_outer (Z.to_nat (b - a - 1)) a b (a + 1) data.

(** Three nodes to sort, and a Monsti service that refuses the second
    node type. *)
Module Wiring.
Definition unsorted : nodeSort :=
  mkNodeSort [Scenario.e2; Scenario.e4; Scenario.e1] order.

Definition monsti : Monsti :=
  mkMonsti (λ nodeType, if String.eqb (Id nodeType) "events.Events"
                        then Some "denied"%string else None)
    None (λ msg _, {[ "en"%string := msg ]}).

Definition pool : SessionPool := mkSessionPool (λ _, None).
End Wiring.

(** *** The insertion sort meets the contract *)

Section insertion_sort.
Context {A : Type} (Less : A → A → run bool) (lt : A → A → bool).
Hypothesis lt_sw : StrictWeak lt.

(* the order on the reversed prefix: nothing is less than an element
   after it *)
Let below : relation A := λ a b, lt a b = false.

Lemma lt_asym x y : lt x y = true → lt y x = false.
Proof.
  intros Hxy. destruct (lt y x) eqn:Hyx; [|done].
  pose proof (sw_trans lt lt_sw _ _ _ Hxy Hyx) as Hxx.
  by rewrite (sw_irrefl lt lt_sw) in Hxx.
Qed.

Lemma insert_left_spec x s :
  (∀ y, y ∈ s → Less x y = Done (lt x y)) →
  StronglySorted below s →
  ∃ r, insert_left Less x s = Done r ∧ r ≡ₚ x :: s ∧ StronglySorted below r.
Proof.
  induction s as [|p ps IH]; intros Hless Hs; simpl.
  - exists [x]. repeat split; [done|]. repeat constructor.
  - rewrite (Hless p) by set_solver.
    apply StronglySorted_cons in Hs as [Hp Hps].
    destruct (lt x p) eqn:Hxp.
    + destruct IH as (r & -> & Hperm & Hr); [set_solver|done|].
      exists (p :: r). split; [done|]. split.
      * rewrite Hperm. apply Permutation_swap.
      * apply StronglySorted_cons. split; [|done].
        rewrite Hperm. constructor; [by apply lt_asym|done].
    + exists (x :: p :: ps). split; [done|]. split; [done|].
      apply StronglySorted_cons. split.
      * constructor; [done|].
        eapply Forall_impl; [exact Hp|].
        intros b Hb. by eapply (sw_negtrans lt lt_sw).
      * by apply StronglySorted_cons.
Qed.

Lemma StronglySorted_reverse_flip (R : relation A) l :
  StronglySorted R l → StronglySorted (flip R) (reverse l).
Proof.
  induction 1 as [|a l Hl IH Ha]; [constructor|].
  rewrite reverse_cons. apply StronglySorted_app. split_and!.
  - intros x1 x2 Hx1 Hx2. apply list_elem_of_singleton in Hx2 as ->.
    rewrite elem_of_reverse in Hx1.
    rewrite Forall_forall in Ha. unfold flip. by apply Ha.
  - done.
  - repeat constructor.
Qed.

Lemma insertionSort_from_spec todo s :
  (∀ x y, x ∈ s ++ todo → y ∈ s ++ todo → Less x y = Done (lt x y)) →
  StronglySorted below s →
  ∃ l', insertionSort_from Less s todo = Done l' ∧ l' ≡ₚ s ++ todo ∧
        StronglySorted (flip below) l'.
Proof.
  revert s. induction todo as [|x rest IH]; intros s Hless Hs; simpl.
  - exists (reverse s). split; [done|]. split.
    + by rewrite app_nil_r, reverse_Permutation.
    + by apply StronglySorted_reverse_flip.
  - destruct (insert_left_spec x s) as (r & -> & Hperm & Hr); [|done|].
    { intros y Hy. apply Hless; set_solver. }
    assert (∀ a, a ∈ r ++ rest → a ∈ s ++ x :: rest) as Hin.
    { intros a. rewrite !elem_of_app, Hperm, !elem_of_cons. tauto. }
    destruct (IH r) as (l' & -> & Hperm' & Hl'); [by auto|done|].
    exists l'. split; [done|]. split; [|done].
    rewrite Hperm', Hperm. simpl. apply Permutation_middle.
Qed.

Lemma insertionSort_spec l :
  (∀ x y, x ∈ l → y ∈ l → Less x y = Done (lt x y)) →
  ∃ l', insertionSort Less l = Done l' ∧ l' ≡ₚ l ∧
        StronglySorted (λ a b, lt b a = false) l'.
Proof.
  intros Hless.
  destruct (insertionSort_from_spec l []) as (l' & ? & ? & ?);
    [done|constructor|].
  by exists l'.
Qed.
End insertion_sort.

#[export] Instance insertion_sort_package : SortPackage :=
  {| sort_Sort := @insertionSort;
     sort_Sort_contract := λ A Less lt l Hsw Hless,
       insertionSort_spec Less lt Hsw l Hless |}.

(** ** Slices *)

Section slices.
Context {A : Type}.
Implicit Types (a done rest : list A) (x : A).

Lemma index_middle done x rest :
  index (done ++ x :: rest) (Z.of_nat (length done)) = Done x.
Proof.
  unfold index.
  destruct (Z.ltb_spec (Z.of_nat (length done)) 0); [lia|].
  by rewrite Nat2Z.id, list_lookup_middle.
Qed.

Lemma insert_middle done x y rest (i : nat) :
  i = length done → <[i:=y]> (done ++ x :: rest) = done ++ y :: rest.
Proof.
  intros ->. rewrite insert_app_r_alt by lia. by rewrite Nat.sub_diag.
Qed.

Lemma assign_middle done x rest f :
  assign (done ++ x :: rest) (Z.of_nat (length done)) f
  = Done (done ++ f x :: rest).
Proof.
  unfold assign. rewrite index_middle, Nat2Z.id.
  by rewrite insert_middle.
Qed.

Lemma slice_prefix a (n : nat) :
  (n ≤ length a)%nat → slice a 0 (Z.of_nat n) = Done (take n a).
Proof.
  intros Hn. unfold slice.
  rewrite !andb_true_intro; [|split_and!; lia].
  by rewrite Z.sub_0_r, Nat2Z.id.
Qed.

Lemma slice_window a (lo hi : nat) :
  (lo ≤ hi ≤ length a)%nat →
  slice a (Z.of_nat lo) (Z.of_nat hi) = Done (take (hi - lo) (drop lo a)).
Proof.
  intros Hn. unfold slice.
  rewrite !andb_true_intro; [|split_and!; lia].
  by rewrite <-Nat2Z.inj_sub, !Nat2Z.id by lia.
Qed.

End slices.

(** ** The in-place reversal of the upcoming prefix *)

Lemma reverse_loop_middle fuel pre mid post :
  (length mid ≤ 2 * fuel + 1)%nat →
  reverse_loop fuel (Z.of_nat (length pre))
    (Z.of_nat (length pre + length mid) - 1) (pre ++ mid ++ post)
  = Done (pre ++ reverse mid ++ post).
Proof.
  revert pre mid post.
  induction fuel as [|fuel IH]; intros pre mid post Hfuel.
  - destruct mid as [|x [|x' mid]]; simpl in Hfuel; [| |lia].
    + simpl. destruct (Z.ltb_spec (Z.of_nat (length pre))
                         (Z.of_nat (length pre + 0) - 1)); [lia|done].
    + simpl. destruct (Z.ltb_spec (Z.of_nat (length pre))
                         (Z.of_nat (length pre + 1) - 1)); [lia|done].
  - destruct mid as [|x mid].
    { simpl. destruct (Z.ltb_spec (Z.of_nat (length pre))
                         (Z.of_nat (length pre + 0) - 1)); [lia|done]. }
    destruct mid as [|y m _] using rev_ind.
    { simpl. destruct (Z.ltb_spec (Z.of_nat (length pre))
                         (Z.of_nat (length pre + 1) - 1)); [lia|done]. }
    cbn [reverse_loop].
    rewrite length_cons, length_app in *. cbn [length] in *.
    destruct (Z.ltb_spec (Z.of_nat (length pre))
                (Z.of_nat (length pre + S (length m + 1)) - 1)); [|lia].
    replace (Z.of_nat (length pre + S (length m + 1)) - 1)
      with (Z.of_nat (length (pre ++ x :: m)))
      by (rewrite length_app; simpl; lia).
    assert (index (pre ++ (x :: m ++ [y]) ++ post) (Z.of_nat (length pre))
            = Done x) as ->.
    { rewrite <-app_comm_cons. apply index_middle. }
    assert (index (pre ++ (x :: m ++ [y]) ++ post)
              (Z.of_nat (length (pre ++ x :: m))) = Done y) as ->.
    { rewrite <-app_comm_cons, <-app_assoc, app_comm_cons, app_assoc.
      apply index_middle. }
    assert (<[Z.to_nat (Z.of_nat (length (pre ++ x :: m))):=x]>
              (<[Z.to_nat (Z.of_nat (length pre)):=y]>
                 (pre ++ (x :: m ++ [y]) ++ post))
            = (pre ++ [y]) ++ m ++ (x :: post)) as ->.
    { rewrite !Nat2Z.id, <-app_comm_cons, <-(app_assoc m).
      rewrite (insert_middle pre) by done.
      assert (pre ++ y :: m ++ [y] ++ post = (pre ++ y :: m) ++ y :: post)
        as -> by (by rewrite <-app_assoc).
      rewrite (insert_middle (pre ++ y :: m))
        by (rewrite !length_app; simpl; lia).
      by rewrite <-!app_assoc. }
    replace (Z.of_nat (length (pre ++ x :: m)) - 1)
      with (Z.of_nat (length (pre ++ [y]) + length m) - 1)
      by (rewrite !length_app; simpl; lia).
    replace (Z.of_nat (length pre) + 1) with (Z.of_nat (length (pre ++ [y])))
      by (rewrite length_app; simpl; lia).
    rewrite IH by lia.
    f_equal. rewrite reverse_cons, reverse_app, reverse_singleton.
    by rewrite <-!app_assoc.
Qed.

Lemma reverse_loop_prefix (a : list eventCtx) (p : nat) :
  (p ≤ length a)%nat →
  reverse_loop (length a) 0 (Z.of_nat p - 1) a
  = Done (reverse (take p a) ++ drop p a).
Proof.
  intros Hp.
  pose proof (reverse_loop_middle (length a) [] (take p a) (drop p a)) as H.
  rewrite take_drop, length_take_le in H by done.
  simpl in H. apply H. lia.
Qed.

(** ** One iteration of the scan *)

Lemma has_start_StartTime n : has_start n → StartTime n = Done (start n).
Proof. intros [t Ht]. unfold start. by rewrite Ht. Qed.

Section scan_body_facts.
Context (w : World) (site : string) (limit : Z).
Implicit Types (done tail : list eventCtx) (ev : Node) (tr : Trace).

(** The event at the boundary index is upcoming: the boundary moves. *)
Lemma scan_body_upcoming uo done tail ev pc tr :
  has_start ev →
  clock w (ticks tr) < start ev →
  scan_body w site uo limit (Z.of_nat (length done)) ev
    (mkLoop (done ++ eventCtx_zero :: tail) (Z.of_nat (length done)) pc) tr
  = Done (limit_check limit
            (mkLoop (done ++ view ev :: tail) (Z.of_nat (length done) + 1) pc),
          mkTrace (S (ticks tr)) (fetched tr)).
Proof.
  intros Hev Hup. unfold scan_body, bind, lift, ret. cbn [eventCtxs pastIdx].
  rewrite assign_middle, Z.eqb_refl, index_middle. cbn.
  unfold bind, lift. rewrite (has_start_StartTime _ Hev). cbn.
  destruct (Z.ltb_spec (clock w (ticks tr)) (start ev)); [done|lia].
Qed.

(** With upcomingOnly the first event that is not upcoming ends the scan. *)
Lemma scan_body_upcomingOnly done tail ev pc tr :
  has_start ev →
  start ev ≤ clock w (ticks tr) →
  scan_body w site true limit (Z.of_nat (length done)) ev
    (mkLoop (done ++ eventCtx_zero :: tail) (Z.of_nat (length done)) pc) tr
  = Done (Break (mkLoop (done ++ view ev :: tail) (Z.of_nat (length done)) pc),
          mkTrace (S (ticks tr)) (fetched tr)).
Proof.
  intros Hev Hup. unfold scan_body, bind, lift, ret. cbn [eventCtxs pastIdx].
  rewrite assign_middle, Z.eqb_refl, index_middle. cbn.
  unfold bind, lift. rewrite (has_start_StartTime _ Hev). cbn.
  destruct (Z.ltb_spec (clock w (ticks tr)) (start ev)); [lia|done].
Qed.

(** An event that is not counted upcoming has its thumbnail looked up.
    The clock is read only when the event sits at the boundary. *)
Lemma scan_body_fetch done tail ev p pc tr :
  (p = Z.of_nat (length done) →
   has_start ev ∧ start ev ≤ clock w (ticks tr)) →
  scan_body w site false limit (Z.of_nat (length done)) ev
    (mkLoop (done ++ eventCtx_zero :: tail) p pc) tr
  = Done (match (GetChildren w site (Path ev)).2 with
          | Some e => Return (Errorf "Could not fetch children: " e)
          | None =>
              limit_check limit
                (mkLoop (done ++ view_with_image w site ev :: tail) p (pc + 1))
          end,
          mkTrace (if decide (p = Z.of_nat (length done))
                   then S (ticks tr) else ticks tr)
                  (fetched tr ++ [Path ev])).
Proof.
  intros Hb.
  unfold scan_body, not_upcoming, view_with_image, bind, lift, ret,
    call_GetChildren.
  cbn [eventCtxs pastIdx pastCount].
  rewrite assign_middle.
  destruct (GetChildren w site (Path ev)) as [images err] eqn:Hget.
  destruct (decide (p = Z.of_nat (length done))) as [->|Hne].
  - destruct Hb as [Hev Hup]; [done|].
    rewrite Z.eqb_refl, index_middle. cbn.
    unfold bind, lift. rewrite (has_start_StartTime _ Hev). cbn.
    destruct (Z.ltb_spec (clock w (ticks tr)) (start ev)); [lia|].
    destruct err as [e|]; [done|].
    destruct images as [|im ?]; [done|].
    by rewrite assign_middle.
  - destruct (Z.eqb_spec (Z.of_nat (length done)) p); [congruence|].
    cbn. destruct err as [e|]; [done|].
    destruct images as [|im ?]; [done|].
    by rewrite assign_middle.
Qed.
End scan_body_facts.

Lemma StronglySorted_take_drop {A} (R : relation A) (l : list A) (k : nat) :
  StronglySorted R l → StronglySorted R (take k l) ∧ StronglySorted R (drop k l).
Proof.
  intros Hl. rewrite <-(take_drop k l) in Hl.
  apply StronglySorted_app in Hl. tauto.
Qed.

Lemma StronglySorted_lookup {A} (R : relation A) (l : list A) (i j : nat) a b :
  StronglySorted R l → (i < j)%nat →
  l !! i = Some a → l !! j = Some b → R a b.
Proof.
  intros Hl. revert i j.
  induction Hl as [|x l Hl IH Hx]; intros i j Hij Hi Hj; [done|].
  destruct j as [|j]; [lia|]. cbn in Hj.
  destruct i as [|i]; cbn in Hi.
  - injection Hi as ->. rewrite Forall_forall in Hx.
    apply Hx. by eapply list_elem_of_lookup_2.
  - apply (IH i j); [lia|done..].
Qed.

(** ** The whole scan *)

Section scan_facts.
Context (w : World) (site : string) (limit : Z).
Implicit Types (done : list eventCtx) (todo : list Node) (tr : Trace).

Lemma scan_nil uo idx s tr :
  scan w site uo limit [] idx s tr = Done (inl s, tr).
Proof. done. Qed.

Lemma scan_cons uo ev rest idx s tr :
  scan w site uo limit (ev :: rest) idx s tr
  = match scan_body w site uo limit idx ev s tr with
    | Done (Next s', tr') => scan w site uo limit rest (idx + 1) s' tr'
    | Done (Break s', tr') => Done (inl s', tr')
    | Done (Return e, tr') => Done (inr e, tr')
    | Panic f => Panic f
    end.
Proof.
  cbn [scan]. unfold bind, ret.
  by destruct (scan_body w site uo limit idx ev s tr) as [[[?|?|?] ?]|].
Qed.

(** From the first event that is not upcoming on, every event has its
    thumbnail looked up until the limit check breaks the loop or a
    lookup fails. *)
Lemma scan_fetch todo done p pc tr :
  p ≤ Z.of_nat (length done) →
  (p = Z.of_nat (length done) →
   match todo with
   | [] => True
   | ev :: _ => has_start ev ∧ start ev ≤ clock w (ticks tr)
   end) →
  scan w site false limit todo (Z.of_nat (length done))
    (mkLoop (done ++ replicate (length todo) eventCtx_zero) p pc) tr
  = let '(cs, ps, e) := fetch_scan w site limit todo pc in
    Done (match e with
          | Some e => inr (Errorf "Could not fetch children: " e)
          | None =>
              inl (mkLoop (done ++ cs ++
                             replicate (length todo - length cs) eventCtx_zero)
                     p (pc + Z.of_nat (length cs)))
          end,
          mkTrace (match todo with
                   | [] => ticks tr
                   | _ :: _ => if decide (p = Z.of_nat (length done))
                               then S (ticks tr) else ticks tr
                   end)
                  (fetched tr ++ ps)).
Proof.
  revert done pc tr.
  induction todo as [|ev rest IH]; intros done pc tr Hp Hb.
  - cbn. rewrite Z.add_0_r, !app_nil_r. by destruct tr.
  - rewrite scan_cons. cbn [length replicate].
    rewrite scan_body_fetch by done.
    cbn [fetch_scan].
    destruct ((GetChildren w site (Path ev)).2) as [e|]; [done|].
    unfold limit_check. cbn [pastCount].
    destruct (negb (limit =? -1) && (pc + 1 >? limit)).
    + cbn [length]. replace (S (length rest) - 1)%nat with (length rest) by lia. done.
    + replace (done ++ view_with_image w site ev :: replicate (length rest) eventCtx_zero)
        with ((done ++ [view_with_image w site ev]) ++ replicate (length rest) eventCtx_zero)
        by (by rewrite <-app_assoc).
      replace (Z.of_nat (length done) + 1)
        with (Z.of_nat (length (done ++ [view_with_image w site ev])))
        by (rewrite length_app; simpl; lia).
      rewrite IH.
      2:{ rewrite length_app; simpl; lia. }
      2:{ rewrite length_app; simpl; lia. }
      destruct (fetch_scan w site limit rest (pc + 1)) as [[cs ps] e].
      cbn [ticks fetched length].
      assert (match rest with
              | [] => if decide (p = Z.of_nat (length done))
                      then S (ticks tr) else ticks tr
              | _ :: _ =>
                  if decide (p = Z.of_nat (length (done ++ [view_with_image w site ev])))
                  then S (if decide (p = Z.of_nat (length done))
                          then S (ticks tr) else ticks tr)
                  else if decide (p = Z.of_nat (length done))
                       then S (ticks tr) else ticks tr
              end = if decide (p = Z.of_nat (length done))
                    then S (ticks tr) else ticks tr) as ->.
      { destruct rest; [done|]. rewrite decide_False; [done|].
        rewrite length_app; simpl; lia. }
      rewrite <-!app_assoc. cbn [app].
      destruct e; [done|].
      replace (S (length rest) - S (length cs))%nat with (length rest - length cs)%nat by lia. by replace (pc + Z.of_nat (S (length cs))) with (pc + 1 + Z.of_nat (length cs)) by lia.
Qed.

(** The events found upcoming one after the other move the boundary;
    the scan then goes on from the first one that is not. *)
Lemma scan_upcoming uo todo done tr :
  limit = -1 ∨ 0 ≤ limit →
  Forall has_start todo →
  let k := upcoming_prefix w (ticks tr) todo in
  scan w site uo limit todo (Z.of_nat (length done))
    (mkLoop (done ++ replicate (length todo) eventCtx_zero)
       (Z.of_nat (length done)) 0) tr
  = scan w site uo limit (drop k todo) (Z.of_nat (length (done ++ (view <$> take k todo))))
      (mkLoop ((done ++ (view <$> take k todo)) ++
                 replicate (length (drop k todo)) eventCtx_zero)
         (Z.of_nat (length (done ++ (view <$> take k todo)))) 0)
      (mkTrace (ticks tr + k) (fetched tr)).
Proof.
  intros Hlimit. revert done tr.
  induction todo as [|ev rest IH]; intros done tr Hall; cbn zeta.
  - cbn. rewrite !app_nil_r, Nat.add_0_r. by destruct tr.
  - apply Forall_cons in Hall as [Hev Hall]. cbn [upcoming_prefix].
    destruct (Z.ltb_spec (clock w (ticks tr)) (start ev)) as [Hup|Hup].
    + rewrite scan_cons. cbn [length replicate].
      rewrite scan_body_upcoming by done.
      unfold limit_check. cbn [pastCount].
      assert (negb (limit =? -1) && (0 >? limit) = false) as ->.
      { destruct Hlimit as [->|?]; [done|].
        destruct (Z.gtb_spec 0 limit); [lia|]. apply andb_false_r. }
      replace (done ++ view ev :: replicate (length rest) eventCtx_zero)
        with ((done ++ [view ev]) ++ replicate (length rest) eventCtx_zero)
        by (by rewrite <-app_assoc).
      replace (Z.of_nat (length done) + 1)
        with (Z.of_nat (length (done ++ [view ev])))
        by (rewrite length_app; simpl; lia).
      specialize (IH (done ++ [view ev]) (mkTrace (S (ticks tr)) (fetched tr)) Hall).
      cbn zeta in IH. cbn [ticks fetched] in IH. rewrite IH.
      cbn [take drop fmap list_fmap].
      rewrite <-!app_assoc. cbn [app].
      by replace (S (ticks tr) + upcoming_prefix w (S (ticks tr)) rest)%nat
        with (ticks tr + S (upcoming_prefix w (S (ticks tr)) rest))%nat by lia.
    + cbn [take drop fmap list_fmap]. rewrite !app_nil_r, Nat.add_0_r.
      by destruct tr.
Qed.

Lemma upcoming_prefix_le t todo :
  (upcoming_prefix w t todo ≤ length todo)%nat.
Proof.
  revert t. induction todo as [|ev rest IH]; intros t; simpl; [lia|].
  destruct (clock w t <? start ev); [|lia]. specialize (IH (S t)). lia.
Qed.

(** The event right after the upcoming prefix, if any, is not upcoming
    at the reading it is compared with. *)
Lemma upcoming_prefix_boundary t todo :
  match drop (upcoming_prefix w t todo) todo with
  | [] => True
  | ev :: _ => start ev ≤ clock w (t + upcoming_prefix w t todo)
  end.
Proof.
  revert t. induction todo as [|ev rest IH]; intros t; simpl; [done|].
  destruct (Z.ltb_spec (clock w t) (start ev)).
  - specialize (IH (S t)). simpl.
    by replace (t + S (upcoming_prefix w (S t) rest))%nat
      with (S t + upcoming_prefix w (S t) rest)%nat by lia.
  - simpl. by rewrite Nat.add_0_r.
Qed.

(** Every event of the upcoming prefix is after the reading it was
    compared with. *)
Lemma upcoming_prefix_after t todo i ev :
  take (upcoming_prefix w t todo) todo !! i = Some ev →
  clock w (t + i) < start ev.
Proof.
  revert t i. induction todo as [|ev' rest IH]; intros t i; simpl; [done|].
  destruct (Z.ltb_spec (clock w t) (start ev')); [|done].
  destruct i as [|i]; simpl.
  - intros [= <-]. by rewrite Nat.add_0_r.
  - intros Hi. apply IH in Hi.
    by replace (t + S i)%nat with (S t + i)%nat by lia.
Qed.

(** No event after the upcoming prefix of sorted events starts after
    the reading that ended the prefix. *)
Lemma upcoming_prefix_rest t sorted :
  StronglySorted later_first sorted →
  Forall (λ n, start n ≤ clock w (t + upcoming_prefix w t sorted))
    (drop (upcoming_prefix w t sorted) sorted).
Proof.
  intros Hsorted.
  pose proof (upcoming_prefix_boundary t sorted) as Hb.
  pose proof (StronglySorted_take_drop later_first sorted
                (upcoming_prefix w t sorted) Hsorted) as [_ Hdrop].
  destruct (drop (upcoming_prefix w t sorted) sorted) as [|ev rest];
    [constructor|].
  apply StronglySorted_cons in Hdrop as [Hev _].
  constructor; [done|].
  eapply Forall_impl; [exact Hev|].
  intros n. unfold later_first. lia.
Qed.
End scan_facts.

(** ** The two windows *)

Lemma int_wrap_range z : int_range z → int_wrap z = z.
Proof.
  unfold int_range, int_wrap. intros Hz.
  rewrite Z.mod_small; lia.
Qed.

Lemma windows_spec po uo limit (ups rest : list eventCtx) pc :
  limit = -1 ∨ 0 ≤ limit ∧ Z.of_nat (length ups) + limit < 2 ^ 63 →
  windows po uo limit (mkLoop (ups ++ rest) (Z.of_nat (length ups)) pc)
  = Done (if po then [] else reverse ups,
          if uo then []
          else if limit =? -1 then rest else take (Z.to_nat limit) rest).
Proof.
  intros Hlimit. unfold windows. cbn [eventCtxs pastIdx].
  rewrite reverse_loop_prefix by (rewrite length_app; lia).
  rewrite take_app_length, drop_app_length.
  set (ctxs := reverse ups ++ rest).
  assert (length ctxs = (length ups + length rest)%nat) as Hlen.
  { unfold ctxs. by rewrite length_app, length_reverse. }
  assert (slice ctxs 0 (if po then 0 else Z.of_nat (length ups))
          = Done (if po then [] else reverse ups)) as ->.
  { destruct po.
    - apply (slice_prefix ctxs 0). lia.
    - rewrite slice_prefix by lia. unfold ctxs.
      by rewrite take_app_length' by (by rewrite length_reverse). }
  assert (drop (length ups) ctxs = rest) as Hdrop.
  { unfold ctxs. by rewrite drop_app_length' by (by rewrite length_reverse). }
  destruct uo.
  { rewrite slice_window by lia. by rewrite Nat.sub_diag. }
  destruct Hlimit as [->|[Hlimit Hsum]].
  - cbn. rewrite slice_window by lia. rewrite Hdrop.
    by rewrite take_ge by lia.
  - destruct (Z.eqb_spec limit (-1)) as [?|_]; [lia|]. cbn [negb andb].
    unfold int_add. rewrite int_wrap_range by (unfold int_range; lia).
    rewrite Hlen.
    destruct (Z.gtb_spec (Z.of_nat (length ups + length rest))
                (Z.of_nat (length ups) + limit)).
    + replace (Z.of_nat (length ups) + limit)
        with (Z.of_nat (length ups + Z.to_nat limit)) by lia.
      rewrite slice_window by lia. rewrite Hdrop.
      by replace (length ups + Z.to_nat limit - length ups)%nat
        with (Z.to_nat limit) by lia.
    + rewrite slice_window by lia. rewrite Hdrop.
      rewrite !take_ge by lia. done.
Qed.

(** ** The thumbnail lookups in closed form *)

Section fetch_scan_facts.
Context (w : World) (site : string) (limit : Z).
Implicit Types (todo : list Node) (pc : Z).

Local Abbreviation lookup_ok := (lookup_ok w site).

Lemma lookups_cons pc n :
  limit = -1 ∨ pc ≤ limit →
  lookups limit pc (S n)
  = if negb (limit =? -1) && (pc + 1 >? limit) then 1%nat
    else S (lookups limit (pc + 1) n).
Proof.
  intros Hl. unfold lookups.
  destruct (Z.eqb_spec limit (-1)); [done|]. cbn [negb andb].
  destruct (Z.gtb_spec (pc + 1) limit); lia.
Qed.

Lemma limit_step pc :
  limit = -1 ∨ pc ≤ limit →
  negb (limit =? -1) && (pc + 1 >? limit) = false →
  limit = -1 ∨ pc + 1 ≤ limit.
Proof.
  intros Hl. destruct (Z.eqb_spec limit (-1)); [by left|]. cbn [negb andb].
  destruct (Z.gtb_spec (pc + 1) limit); [done|]. right. lia.
Qed.

(** Without a failure the lookups cover exactly the events that the
    limit check lets through. *)
Lemma fetch_scan_ok todo pc :
  limit = -1 ∨ pc ≤ limit →
  Forall lookup_ok (take (lookups limit pc (length todo)) todo) →
  fetch_scan w site limit todo pc
  = (view_with_image w site <$> take (lookups limit pc (length todo)) todo,
     Path <$> take (lookups limit pc (length todo)) todo, None).
Proof.
  revert pc. induction todo as [|ev rest IH]; intros pc Hl Hok.
  { unfold lookups. by destruct (limit =? -1). }
  cbn [length] in *. rewrite lookups_cons in * by done.
  cbn [fetch_scan].
  destruct (negb (limit =? -1) && (pc + 1 >? limit)) eqn:Hbreak.
  - cbn in Hok. apply Forall_cons in Hok as [Hev _].
    unfold lookup_ok in Hev. by rewrite Hev.
  - cbn [take] in Hok. apply Forall_cons in Hok as [Hev Hok].
    unfold lookup_ok in Hev. rewrite Hev.
    rewrite IH; [done| |done].
    by apply limit_step.
Qed.

(** The first failing lookup ends the scan with its error. *)
Lemma fetch_scan_fail todo pc (i : nat) ev e :
  limit = -1 ∨ pc ≤ limit →
  (i < lookups limit pc (length todo))%nat →
  todo !! i = Some ev →
  (GetChildren w site (Path ev)).2 = Some e →
  Forall lookup_ok (take i todo) →
  ∃ cs, fetch_scan w site limit todo pc
        = (cs, Path <$> take (S i) todo, Some e).
Proof.
  revert pc i. induction todo as [|ev' rest IH]; intros pc i Hl Hi Hev He Hok.
  { done. }
  cbn [length] in Hi. rewrite lookups_cons in Hi by done.
  cbn [fetch_scan].
  destruct i as [|i].
  - cbn in Hev. injection Hev as ->. rewrite He. by eexists.
  - cbn in Hev. cbn [take] in Hok. apply Forall_cons in Hok as [Hev' Hok].
    unfold lookup_ok in Hev'. rewrite Hev'.
    destruct (negb (limit =? -1) && (pc + 1 >? limit)) eqn:Hbreak; [lia|].
    destruct (IH (pc + 1) i) as [cs Hcs]; [|lia|done..|].
    { by apply limit_step. }
    rewrite Hcs. by eexists.
Qed.

(** In every case the paths looked up are those of a prefix of the
    events no longer than the limit check allows. *)
Lemma fetch_scan_paths todo pc :
  limit = -1 ∨ pc ≤ limit →
  ∃ j : nat, (j ≤ lookups limit pc (length todo))%nat ∧
             (fetch_scan w site limit todo pc).1.2 = Path <$> take j todo.
Proof.
  revert pc. induction todo as [|ev rest IH]; intros pc Hl.
  { exists 0%nat. split; [lia|done]. }
  cbn [length]. rewrite lookups_cons by done. cbn [fetch_scan].
  destruct ((GetChildren w site (Path ev)).2).
  { exists 1%nat. split; [|done]. destruct (_ && _); lia. }
  destruct (negb (limit =? -1) && (pc + 1 >? limit)) eqn:Hbreak.
  { by exists 1%nat. }
  destruct (IH (pc + 1)) as (j & Hj & Hps).
  { by apply limit_step. }
  exists (S j). split; [lia|].
  destruct (fetch_scan w site limit rest (pc + 1)) as [[cs ps] e].
  cbn in *. by rewrite Hps.
Qed.
End fetch_scan_facts.

(** ** Sorting the events *)


Lemma order_has_start x y :
  has_start x → has_start y → order x y = Done (start x <? start y).
Proof.
  intros Hx Hy. unfold order.
  by rewrite (has_start_StartTime _ Hx), (has_start_StartTime _ Hy).
Qed.

Lemma StronglySorted_weaken {A} (R S : relation A) l :
  (∀ a b, R a b → S a b) → StronglySorted R l → StronglySorted S l.
Proof.
  intros HRS. induction 1 as [|a l Hl IH Ha]; constructor; [done|].
  eapply Forall_impl; [exact Ha|]. auto.
Qed.

Lemma sort_events `{SortPackage} (events : list Node) :
  Forall has_start events →
  ∃ sorted, sort_Sort (Reverse order) events = Done sorted ∧
            sorted ≡ₚ events ∧ StronglySorted later_first sorted.
Proof.
  intros Hall.
  destruct (sort_Sort_contract Node (Reverse order)
              (λ x y, start y <? start x) events) as (sorted & Hs & Hp & Hso).
  - split.
    + intros x. apply Z.ltb_irrefl.
    + intros x y z. rewrite !Z.ltb_lt. lia.
    + intros x y z. rewrite !Z.ltb_ge. lia.
  - intros x y Hx Hy. unfold Reverse. rewrite Forall_forall in Hall.
    apply order_has_start; by apply Hall.
  - exists sorted. split_and!; [done..|].
    eapply StronglySorted_weaken; [|exact Hso].
    intros a b. unfold later_first. by rewrite Z.ltb_ge.
Qed.

(** ** What getEvents returns *)

Section getEvents_facts.
Context `{SortPackage} (w : World) (req : Request).
Implicit Types (events sorted : list Node) (tr : Trace).

(** The candidate list cannot be enumerated. *)
Lemma getEvents_no_candidates po uo limit tr events e :
  GetChildren w (Site req) "/aktionen" = (events, Some e) →
  getEvents w req po uo limit tr
  = Done (([], [], Some (Errorf "Could not fetch children: " e)),
          mkTrace (ticks tr) (fetched tr ++ ["/aktionen"%string])).
Proof.
  intros Hget. unfold getEvents, bind, call_GetChildren. by rewrite Hget.
Qed.

(** upcomingOnly: the scan ends at the first event that is not
    upcoming and looks up no thumbnail. *)
Lemma getEvents_upcomingOnly po limit tr events sorted :
  GetChildren w (Site req) "/aktionen" = (events, None) →
  sort_Sort (Reverse order) events = Done sorted →
  Forall has_start sorted →
  limit_ok limit (length sorted) →
  let k := upcoming_prefix w (ticks tr) sorted in
  getEvents w req po true limit tr
  = Done ((if po then [] else reverse (view <$> take k sorted), [], None),
          mkTrace (ticks tr + min (S k) (length sorted))
            (fetched tr ++ ["/aktionen"%string])).
Proof.
  intros Hget Hsort Hall Hlimit k.
  unfold getEvents, bind, call_GetChildren. rewrite Hget.
  unfold lift at 1. rewrite Hsort.
  pose proof (scan_upcoming w (Site req) limit true sorted []
                (mkTrace (ticks tr) (fetched tr ++ ["/aktionen"%string])))
    as Hscan.
  cbn zeta in Hscan. cbn [app length ticks fetched] in Hscan.
  change (Z.of_nat 0) with 0 in Hscan.
  rewrite Hscan; [|destruct Hlimit; [by left|right; lia]|done].
  fold k. clear Hscan.
  pose proof (upcoming_prefix_le w (ticks tr) sorted) as Hk. fold k in Hk.
  pose proof (upcoming_prefix_boundary w (ticks tr) sorted) as Hb.
  fold k in Hb.
  assert (length (view <$> take k sorted) = k) as Hlen.
  { by rewrite length_fmap, length_take_le. }
  assert (limit = -1 ∨ 0 ≤ limit ∧ Z.of_nat (length (view <$> take k sorted)) + limit < 2 ^ 63) as Hlim'.
  { rewrite Hlen. destruct Hlimit; [by left|right; lia]. }
  destruct (drop k sorted) as [|ev rest] eqn:Hdrop.
  - rewrite scan_nil. cbn [length replicate].
    unfold lift, ret.
    rewrite windows_spec by done.
    assert (length sorted ≤ k)%nat.
    { apply (f_equal length) in Hdrop. rewrite length_drop in Hdrop.
      simpl in Hdrop. lia. }
    by replace (min (S k) (length sorted)) with k by lia.
  - rewrite scan_cons. cbn [length replicate].
    assert (has_start ev) as Hev.
    { pose proof (Forall_drop _ k _ Hall) as Hd.
      rewrite Hdrop in Hd. by apply Forall_cons in Hd as [? _]. }
    rewrite scan_body_upcomingOnly by done.
    unfold lift, ret.
    rewrite windows_spec by done.
    assert (k < length sorted)%nat.
    { apply (f_equal length) in Hdrop. rewrite length_drop in Hdrop.
      simpl in Hdrop. lia. }
    cbn [ticks fetched]. replace (min (S k) (length sorted)) with (S k) by lia.
    by rewrite Nat.add_succ_r.
Qed.

(** Both windows or pastOnly: after the upcoming prefix the
    thumbnails are looked up. *)
Lemma getEvents_fetch_scan po limit tr events sorted :
  GetChildren w (Site req) "/aktionen" = (events, None) →
  sort_Sort (Reverse order) events = Done sorted →
  Forall has_start sorted →
  limit_ok limit (length sorted) →
  let k := upcoming_prefix w (ticks tr) sorted in
  getEvents w req po false limit tr
  = let '(cs, ps, e) := fetch_scan w (Site req) limit (drop k sorted) 0 in
    match e with
    | Some e =>
        Done (([], [], Some (Errorf "Could not fetch children: " e)),
              mkTrace (ticks tr + min (S k) (length sorted))
                (fetched tr ++ "/aktionen"%string :: ps))
    | None =>
        match windows po false limit
                (mkLoop ((view <$> take k sorted) ++ cs ++
                           replicate (length (drop k sorted) - length cs)
                             eventCtx_zero)
                   (Z.of_nat k) (Z.of_nat (length cs))) with
        | Done (upcoming, past) =>
            Done ((upcoming, past, None),
                  mkTrace (ticks tr + min (S k) (length sorted))
                    (fetched tr ++ "/aktionen"%string :: ps))
        | Panic f => Panic f
        end
    end.
Proof.
  intros Hget Hsort Hall Hlimit k.
  unfold getEvents, bind, call_GetChildren. rewrite Hget.
  unfold lift at 1. rewrite Hsort.
  pose proof (scan_upcoming w (Site req) limit false sorted []
                (mkTrace (ticks tr) (fetched tr ++ ["/aktionen"%string])))
    as Hscan.
  cbn zeta in Hscan. cbn [app length ticks fetched] in Hscan.
  change (Z.of_nat 0) with 0 in Hscan.
  rewrite Hscan; [|destruct Hlimit; [by left|right; lia]|done].
  fold k. clear Hscan.
  pose proof (upcoming_prefix_le w (ticks tr) sorted) as Hk. fold k in Hk.
  pose proof (upcoming_prefix_boundary w (ticks tr) sorted) as Hb.
  fold k in Hb.
  assert (length (view <$> take k sorted) = k) as Hlen.
  { by rewrite length_fmap, length_take_le. }
  rewrite scan_fetch.
  2:{ lia. }
  2:{ intros _. destruct (drop k sorted) as [|ev rest] eqn:Hdrop; [done|].
      split; [|done].
      pose proof (Forall_drop _ k _ Hall) as Hd.
      rewrite Hdrop in Hd. by apply Forall_cons in Hd as [? _]. }
  rewrite Hlen.
  destruct (fetch_scan w (Site req) limit (drop k sorted) 0)
    as [[cs ps] e].
  cbn [ticks fetched].
  assert (match drop k sorted with
          | [] => (ticks tr + k)%nat
          | _ :: _ => if decide (Z.of_nat k = Z.of_nat k)
                      then S (ticks tr + k) else (ticks tr + k)%nat
          end = (ticks tr + min (S k) (length sorted))%nat) as ->.
  { pose proof (length_drop sorted k) as Hd.
    destruct (drop k sorted); simpl in Hd.
    - f_equal. lia.
    - rewrite decide_True by done. lia. }
  rewrite <-app_assoc. cbn [app].
  destruct e as [e|]; [done|].
  rewrite Z.add_0_l. unfold lift, ret.
  by destruct (windows _ _ _ _) as [[??]|].
Qed.

(** No lookup fails: both windows are returned. *)
Lemma getEvents_ok po limit tr events sorted :
  GetChildren w (Site req) "/aktionen" = (events, None) →
  sort_Sort (Reverse order) events = Done sorted →
  Forall has_start sorted →
  limit_ok limit (length sorted) →
  let k := upcoming_prefix w (ticks tr) sorted in
  let m := lookups limit 0 (length sorted - k) in
  Forall (lookup_ok w (Site req)) (take m (drop k sorted)) →
  getEvents w req po false limit tr
  = Done ((if po then [] else reverse (view <$> take k sorted),
           view_with_image w (Site req) <$>
             (if limit =? -1 then drop k sorted
              else take (Z.to_nat limit) (drop k sorted)),
           None),
          mkTrace (ticks tr + min (S k) (length sorted))
            (fetched tr ++ "/aktionen"%string ::
               (Path <$> take m (drop k sorted)))).
Proof.
  intros Hget Hsort Hall Hlimit k m Hok.
  rewrite (getEvents_fetch_scan _ _ _ events sorted) by done. fold k.
  assert (limit = -1 ∨ 0 ≤ limit) as Hl
    by (destruct Hlimit; [by left|right; lia]).
  pose proof (upcoming_prefix_le w (ticks tr) sorted) as Hk. fold k in Hk.
  rewrite fetch_scan_ok; rewrite ?length_drop; [|done..].
  fold m.
  assert (length (view <$> take k sorted) = k) as Hlen.
  { by rewrite length_fmap, length_take_le. }
  replace (Z.of_nat k) with (Z.of_nat (length (view <$> take k sorted)))
    by (by rewrite Hlen).
  rewrite windows_spec.
  2:{ rewrite Hlen. destruct Hlimit; [by left|right; lia]. }
  rewrite length_fmap, length_take, length_drop.
  set (todo := drop k sorted) in *.
  assert (length todo = (length sorted - k)%nat) as Htodo
    by apply length_drop.
  set (n' := (length sorted - k)%nat) in *.
  assert ((if limit =? -1
           then (view_with_image w (Site req) <$> take m todo) ++
                replicate (n' - min m n') eventCtx_zero
           else take (Z.to_nat limit)
                  ((view_with_image w (Site req) <$> take m todo) ++
                   replicate (n' - min m n') eventCtx_zero))
          = view_with_image w (Site req) <$>
              (if limit =? -1 then todo else take (Z.to_nat limit) todo))
    as ->; [|done].
  unfold lookups in m. subst m. clearbody n' todo.
  destruct (Z.eqb_spec limit (-1)).
  - rewrite Nat.min_id, Nat.sub_diag, app_nil_r.
    by rewrite take_ge by lia.
  - rewrite Z.sub_0_r.
    destruct (decide (n' ≤ Z.to_nat limit)%nat).
    + replace (min n' (Z.to_nat (limit + 1))) with n' by lia.
      rewrite Nat.min_id, Nat.sub_diag, app_nil_r.
      rewrite (take_ge todo n') by lia.
      rewrite (take_ge todo) by lia.
      by rewrite take_ge by (rewrite length_fmap; lia).
    + rewrite take_app_le by (rewrite length_fmap, length_take; lia).
      rewrite <-fmap_take, take_take. do 2 f_equal. lia.
Qed.

(** A lookup fails: the query is given up. *)
Lemma getEvents_fail po limit tr events sorted (i : nat) ev e :
  GetChildren w (Site req) "/aktionen" = (events, None) →
  sort_Sort (Reverse order) events = Done sorted →
  Forall has_start sorted →
  limit_ok limit (length sorted) →
  let k := upcoming_prefix w (ticks tr) sorted in
  (i < lookups limit 0 (length sorted - k))%nat →
  drop k sorted !! i = Some ev →
  (GetChildren w (Site req) (Path ev)).2 = Some e →
  Forall (lookup_ok w (Site req)) (take i (drop k sorted)) →
  getEvents w req po false limit tr
  = Done (([], [], Some (Errorf "Could not fetch children: " e)),
          mkTrace (ticks tr + min (S k) (length sorted))
            (fetched tr ++ "/aktionen"%string ::
               (Path <$> take (S i) (drop k sorted)))).
Proof.
  intros Hget Hsort Hall Hlimit k Hi Hev He Hok.
  rewrite (getEvents_fetch_scan _ _ _ events sorted) by done. fold k.
  assert (limit = -1 ∨ 0 ≤ limit) as Hl
    by (destruct Hlimit; [by left|right; lia]).
  destruct (fetch_scan_fail w (Site req) limit (drop k sorted) 0 i ev e)
    as [cs ->]; rewrite ?length_drop; done.
Qed.

Lemma first_failure (l : list Node) :
  Forall (lookup_ok w (Site req)) l ∨
  ∃ (i : nat) ev e, l !! i = Some ev ∧
    (GetChildren w (Site req) (Path ev)).2 = Some e ∧
    Forall (lookup_ok w (Site req)) (take i l).
Proof.
  induction l as [|x l IH]; [by left|].
  destruct ((GetChildren w (Site req) (Path x)).2) as [e|] eqn:Hx.
  { right. exists 0%nat, x, e. split_and!; [done..|]. constructor. }
  destruct IH as [IH|(i & ev & e & Hi & He & Hok)].
  - left. by constructor.
  - right. exists (S i), ev, e. split_and!; [done..|]. by constructor.
Qed.

(** Every normal return of getEvents is one of two: the two windows
    without an error, or no window and the error of a failed lookup. *)
Lemma getEvents_cases po uo limit tr events sorted up past err tr' :
  GetChildren w (Site req) "/aktionen" = (events, None) →
  sort_Sort (Reverse order) events = Done sorted →
  Forall has_start sorted →
  limit_ok limit (length sorted) →
  getEvents w req po uo limit tr = Done ((up, past, err), tr') →
  let k := upcoming_prefix w (ticks tr) sorted in
  ticks tr' = (ticks tr + min (S k) (length sorted))%nat ∧
  ((err = None ∧ up = upcoming_window po k sorted ∧
    past = past_window w (Site req) uo limit k sorted) ∨
   (uo = false ∧ up = [] ∧ past = [] ∧
    ∃ ev e, ev ∈ drop k sorted ∧
            (GetChildren w (Site req) (Path ev)).2 = Some e ∧
            err = Some (Errorf "Could not fetch children: " e))).
Proof.
  intros Hget Hsort Hall Hlimit Hrun k.
  destruct uo.
  { rewrite (getEvents_upcomingOnly _ _ _ events sorted) in Hrun by done.
    injection Hrun as <- <- <- <-. split; [done|by left]. }
  destruct (first_failure
              (take (lookups limit 0 (length sorted - k)) (drop k sorted)))
    as [Hok|(i & ev & e & Hi & He & Hok)].
  - rewrite (getEvents_ok _ _ _ events sorted) in Hrun by done.
    injection Hrun as <- <- <- <-. split; [done|by left].
  - apply lookup_take_Some in Hi as [Hi Hlt].
    rewrite take_take in Hok.
    replace (min i (lookups limit 0 (length sorted - k))) with i in Hok by lia.
    rewrite (getEvents_fail _ _ _ events sorted i ev e) in Hrun by done.
    injection Hrun as <- <- <- <-. split; [done|right]. split_and!; [done..|].
    exists ev, e. split_and!; [|done..].
    by eapply list_elem_of_lookup_2.
Qed.
End getEvents_facts.

(** The thumbnail lookups of a run are at most one more than the limit. *)
Lemma thumbnail_lookups_bound `{SortPackage} w req po limit tr events up past
  err tr' :
  GetChildren w (Site req) "/aktionen" = (events, None) →
  Forall has_start events →
  0 ≤ limit →
  Z.of_nat (length events) + limit < 2 ^ 63 →
  getEvents w req po false limit tr = Done ((up, past, err), tr') →
  ∃ ps, fetched tr' = fetched tr ++ "/aktionen"%string :: ps ∧
        (length ps ≤ Z.to_nat limit + 1)%nat.
Proof.
  intros Hget Hall Hl Hsum Hrun.
  destruct (sort_events events Hall) as (sorted & Hsort & Hperm & _).
  assert (Forall has_start sorted) as Hall' by (by rewrite Hperm).
  assert (limit_ok limit (length sorted)) as Hlimit
    by (right; rewrite Hperm; lia).
  rewrite (getEvents_fetch_scan w req po limit tr events sorted) in Hrun
    by done.
  set (k := upcoming_prefix w (ticks tr) sorted) in *.
  destruct (fetch_scan_paths w (Site req) limit (drop k sorted) 0)
    as (j & Hj & Hps); [by right|].
  destruct (fetch_scan w (Site req) limit (drop k sorted) 0) as [[cs ps] e].
  cbn in Hps. exists ps.
  assert (length ps ≤ Z.to_nat limit + 1)%nat as Hlen.
  { rewrite Hps, length_fmap, length_take. unfold lookups in Hj.
    destruct (Z.eqb_spec limit (-1)); lia. }
  destruct e as [e|].
  - by injection Hrun as <- <- <- <-.
  - destruct (windows _ _ _ _) as [[??]|]; [|done].
    by injection Hrun as <- <- <- <-.
Qed.

(** ** The scenario of the specification, run *)

Module ScenarioRuns.
Import Scenario.

Lemma events_have_start : Forall has_start events.
Proof. repeat constructor; by eexists. Qed.

Lemma start_e1 : start e1 = T - 3 * day.
Proof. reflexivity. Qed.
Lemma start_e2 : start e2 = T - 1 * day.
Proof. reflexivity. Qed.
Lemma start_e3 : start e3 = T + 2 * day.
Proof. reflexivity. Qed.
Lemma start_e4 : start e4 = T + 5 * day.
Proof. reflexivity. Qed.

Ltac starts :=
  unfold later_first;
  rewrite ?start_e1, ?start_e2, ?start_e3, ?start_e4; unfold day.

(** The four start times differ, so every sort that meets the
    contract of the package puts the events in the same order. *)
Lemma sorted_events `{SortPackage} :
  sort_Sort (Reverse order) events = Done [e4; e3; e2; e1].
Proof.
  destruct (sort_events events events_have_start)
    as (sorted & Hsort & Hperm & Hsorted).
  rewrite Hsort. f_equal. symmetry.
  apply (StronglySorted_unique_strong later_first); [| |done|].
  - intros x1 x2 Hx1 Hx2. rewrite Hperm in Hx2. unfold events in Hx2.
    repeat (apply elem_of_cons in Hx1 as [->|Hx1]);
      try (by apply elem_of_nil in Hx1).
    all: repeat (apply elem_of_cons in Hx2 as [->|Hx2]);
      try (by apply elem_of_nil in Hx2).
    all: try reflexivity.
    all: starts; intros; exfalso; lia.
  - repeat constructor; starts; lia.
  - rewrite Hperm. apply (reverse_Permutation events).
Qed.

Ltac run :=
  unfold getEvents, bind, call_GetChildren;
  change (GetChildren _ (Site req) "/aktionen") with (events, @None string);
  cbv beta iota; unfold lift at 1; rewrite sorted_events;
  vm_compute; reflexivity.

Lemma unbounded `{SortPackage} :
  getEvents world req false false (-1) tr0
  = Done (([view e3; view e4],
           [mkEventCtx (Some e2) (Some thumb); view e1], None),
          mkTrace 3 ["/aktionen"; "/aktionen/b"; "/aktionen/a"]%string).
Proof. run. Qed.

Lemma limit_one `{SortPackage} :
  getEvents world req false false 1 tr0
  = Done (([view e3; view e4], [mkEventCtx (Some e2) (Some thumb)], None),
          mkTrace 3 ["/aktionen"; "/aktionen/b"; "/aktionen/a"]%string).
Proof. run. Qed.

Lemma upcoming_only `{SortPackage} :
  getEvents world req false true (-1) tr0
  = Done (([view e3; view e4], [], None),
          mkTrace 3 ["/aktionen"%string]).
Proof. run. Qed.

Lemma both_flags `{SortPackage} :
  getEvents world req true true (-1) tr0
  = Done (([], [], None), mkTrace 3 ["/aktionen"%string]).
Proof. run. Qed.

Lemma broken `{SortPackage} :
  getEvents broken_world req false false (-1) tr0
  = Done (([], [], Some "Could not fetch children: timeout"%string),
          mkTrace 3 ["/aktionen"; "/aktionen/b"]%string).
Proof. run. Qed.

(** The limits that getEvents cannot take: below -1 the past window
    would end before it begins, and at the top of the range of int the
    sum pastIdx+limit wraps around; the slice expression panics. *)
Lemma negative_limit `{SortPackage} :
  getEvents world req false false (-2) tr0 = Panic SliceBounds.
Proof. run. Qed.

Lemma huge_limit `{SortPackage} :
  getEvents world req false false (2 ^ 63 - 1) tr0 = Panic SliceBounds.
Proof. run. Qed.
End ScenarioRuns.

(** ** Properties of the partition *)

Lemma sort_events_full `{SortPackage} (events : list Node) :
  Forall has_start events →
  ∃ sorted, sort_Sort (Reverse order) events = Done sorted ∧
            sorted ≡ₚ events ∧ StronglySorted later_first sorted ∧
            Forall has_start sorted ∧ length sorted = length events.
Proof.
  intros Hall. destruct (sort_events events Hall) as (sorted & ? & Hp & ?).
  exists sorted. split_and!; [done..| |].
  - by rewrite Hp.
  - by rewrite Hp.
Qed.

Lemma length_past_window w site uo limit k sorted :
  0 ≤ limit →
  (length (past_window w site uo limit k sorted) ≤ Z.to_nat limit)%nat.
Proof.
  intros Hl. unfold past_window. destruct uo; [simpl; lia|].
  destruct (Z.eqb_spec limit (-1)); [lia|].
  rewrite length_fmap, length_take. lia.
Qed.

(** C1, amended.  The limit bounds the past window only.  For records
    with DateTime start times and a limit L >= 0 (L + the number of
    records within the range of int), a return of getEvents has at most
    L entries in Past, and a return without error has the whole
    upcoming prefix in Upcoming, whatever L is: the prefix of the
    sorted events found upcoming, soonest first (or nothing under
    pastOnly).  For the start times [T-3d, T-1d, T+2d, T+5d] at now = T,
    no flags and limit = 1: Upcoming = [T+2d, T+5d], Past = [T-1d]. *)
Theorem C1_limit_truncates_past_only :
  (∀ (SP : SortPackage) w req po uo limit tr events up past err tr',
     GetChildren w (Site req) "/aktionen" = (events, None) →
     Forall has_start events →
     0 ≤ limit →
     Z.of_nat (length events) + limit < 2 ^ 63 →
     getEvents w req po uo limit tr = Done ((up, past, err), tr') →
     (length past ≤ Z.to_nat limit)%nat ∧
     (err = None →
      ∃ sorted, sort_Sort (Reverse order) events = Done sorted ∧
        up = upcoming_window po (upcoming_prefix w (ticks tr) sorted) sorted ∧
        length up = if po then 0%nat
                    else upcoming_prefix w (ticks tr) sorted)) ∧
  (∀ (SP : SortPackage) up past tr',
     getEvents Scenario.world Scenario.req false false 1 Scenario.tr0
     = Done ((up, past, None), tr') →
     start <$> nodes_of up
     = [Scenario.T + 2 * Scenario.day; Scenario.T + 5 * Scenario.day] ∧
     start <$> nodes_of past = [Scenario.T - 1 * Scenario.day]).
Proof.
  split.
  - intros SP w req po uo limit tr events up past err tr' Hget Hall Hl Hsum Hrun.
    destruct (sort_events_full events Hall)
      as (sorted & Hsort & Hperm & Hsorted & Hall' & Hlen).
    eapply getEvents_cases in Hrun; [|done..|right; lia].
    destruct Hrun as [_ [(-> & -> & ->)|(_ & -> & -> & ev & e & _ & _ & ->)]].
    + split; [by apply length_past_window|].
      intros _. exists sorted. split_and!; [done..|].
      unfold upcoming_window. destruct po; [done|].
      rewrite length_reverse, length_fmap, length_take_le; [done|].
      apply upcoming_prefix_le.
    + split; [simpl; lia|done].
  - intros SP up past tr'. rewrite ScenarioRuns.limit_one.
    by intros [= <- <- <-].
Qed.

Lemma C1_limit_truncates_past_only_witness :
  (length [mkEventCtx (Some Scenario.e2) (Some Scenario.thumb)] ≤ Z.to_nat 1)%nat ∧
  (@None string = None →
   ∃ sorted,
     sort_Sort (Reverse order) Scenario.events = Done sorted ∧
     [view Scenario.e3; view Scenario.e4]
     = upcoming_window false
         (upcoming_prefix Scenario.world (ticks Scenario.tr0) sorted) sorted ∧
     length [view Scenario.e3; view Scenario.e4]
     = upcoming_prefix Scenario.world (ticks Scenario.tr0) sorted).
Proof.
  apply (proj1 C1_limit_truncates_past_only insertion_sort_package
           Scenario.world Scenario.req false false 1 Scenario.tr0
           Scenario.events _ _ None
           (mkTrace 3 ["/aktionen"; "/aktionen/b"; "/aktionen/a"]%string)).
  - reflexivity.
  - apply ScenarioRuns.events_have_start.
  - lia.
  - vm_compute. reflexivity.
  - apply ScenarioRuns.limit_one.
Defined.

(** C1 as stated fails: with limit = 1 the upcoming window of the
    scenario keeps both upcoming events. *)
Lemma C1_upcoming_not_truncated :
  ∃ up past tr',
    @getEvents insertion_sort_package Scenario.world Scenario.req
      false false 1 Scenario.tr0 = Done ((up, past, None), tr') ∧
    ¬ (length up ≤ 1)%nat ∧
    start <$> nodes_of up ≠ [Scenario.T + 2 * Scenario.day].
Proof.
  eexists _, _, _. split; [apply ScenarioRuns.limit_one|].
  split; [simpl; lia|]. by vm_compute.
Qed.

Lemma nodes_of_view l : nodes_of (view <$> l) = l.
Proof. unfold nodes_of. induction l; simpl; by f_equal. Qed.

Lemma nodes_of_view_with_image w site l :
  nodes_of (view_with_image w site <$> l) = l.
Proof. unfold nodes_of. induction l; simpl; by f_equal. Qed.

Lemma nodes_of_app l1 l2 : nodes_of (l1 ++ l2) = nodes_of l1 ++ nodes_of l2.
Proof. apply omap_app. Qed.

Lemma nodes_of_reverse l : nodes_of (reverse l) = reverse (nodes_of l).
Proof.
  induction l as [|e l IH]; [done|].
  rewrite reverse_cons, nodes_of_app, IH. unfold nodes_of at 2 3. simpl.
  destruct (Node_ e); simpl.
  - fold (nodes_of l). by rewrite reverse_cons.
  - fold (nodes_of l). by rewrite app_nil_r.
Qed.

Lemma nodes_of_upcoming_window po k sorted :
  nodes_of (upcoming_window po k sorted)
  = if po then [] else reverse (take k sorted).
Proof.
  unfold upcoming_window. destruct po; [done|].
  by rewrite nodes_of_reverse, nodes_of_view.
Qed.

Lemma nodes_of_past_window w site uo limit k sorted :
  nodes_of (past_window w site uo limit k sorted)
  = if uo then []
    else if limit =? -1 then drop k sorted
         else take (Z.to_nat limit) (drop k sorted).
Proof.
  unfold past_window. destruct uo; [done|].
  by rewrite nodes_of_view_with_image.
Qed.

(** ** One instant for the whole query *)

(** When every reading of the clock during the scan gives the same
    instant, the upcoming prefix of the sorted events is the set of
    events after that instant. *)
Lemma upcoming_prefix_still w t now sorted :
  (∀ i : nat, (t ≤ i < t + length sorted)%nat → clock w i = now) →
  StronglySorted later_first sorted →
  take (upcoming_prefix w t sorted) sorted = filter (IsUpcoming now) sorted ∧
  drop (upcoming_prefix w t sorted) sorted
  = filter (λ n, ¬ IsUpcoming now n) sorted.
Proof.
  revert t. induction sorted as [|ev rest IH]; intros t Hclock Hsorted; [done|].
  apply StronglySorted_cons in Hsorted as [Hev Hrest].
  cbn [upcoming_prefix]. rewrite (Hclock t) by (simpl; lia).
  destruct (Z.ltb_spec now (start ev)) as [Hup|Hup].
  - destruct (IH (S t)) as [IH1 IH2]; [|done|].
    { intros i Hi. apply Hclock. simpl. lia. }
    cbn [take drop]. rewrite filter_cons_True by done.
    rewrite filter_cons_False by (unfold IsUpcoming; lia).
    by rewrite IH1, IH2.
  - cbn [take drop].
    assert (Forall (λ n, ¬ IsUpcoming now n) (ev :: rest)) as Hnone.
    { constructor; [unfold IsUpcoming; lia|].
      eapply Forall_impl; [exact Hev|].
      intros n. unfold later_first, IsUpcoming. lia. }
    clear -Hnone. split.
    + induction Hnone as [|x l Hx Hl IHl]; [done|].
      by rewrite filter_cons_False.
    + induction Hnone as [|x l Hx Hl IHl]; [done|].
      rewrite filter_cons_True by done. by rewrite <-IHl.
Qed.

(** A list cut where a decidable property stops holding. *)
Lemma filter_cut {A} (P : A → Prop) `{∀ x, Decision (P x)} (l : list A) k :
  Forall P (take k l) → Forall (λ x, ¬ P x) (drop k l) →
  take k l = filter P l ∧ drop k l = filter (λ x, ¬ P x) l.
Proof.
  intros Hin Hout.
  assert (filter P (take k l) = take k l ∧
          filter (λ x, ¬ P x) (take k l) = []) as [Hin1 Hin2].
  { induction Hin as [|x l1 Hx _ [IH1 IH2]]; [done|].
    rewrite filter_cons_True by done.
    rewrite filter_cons_False by (intros Hn; by apply Hn).
    by rewrite IH1, IH2. }
  assert (filter P (drop k l) = [] ∧
          filter (λ x, ¬ P x) (drop k l) = drop k l) as [Hout1 Hout2].
  { induction Hout as [|x l2 Hx _ [IH1 IH2]]; [done|].
    rewrite filter_cons_False by done.
    rewrite filter_cons_True by done.
    by rewrite IH1, IH2. }
  split.
  - transitivity (filter P (take k l ++ drop k l)); [|by rewrite take_drop].
    by rewrite filter_app, Hin1, Hout1, app_nil_r.
  - transitivity (filter (λ x, ¬ P x) (take k l ++ drop k l));
      [|by rewrite take_drop].
    by rewrite filter_app, Hin2, Hout2.
Qed.

(** In events sorted by descending start time, the events up to one
    that starts after [now] all start after [now], and the events from
    one on that does not start after [now] do not either. *)
Lemma take_all_upcoming sorted (k : nat) a now :
  StronglySorted later_first sorted →
  sorted !! k = Some a → now < start a →
  Forall (IsUpcoming now) (take (S k) sorted).
Proof.
  intros Hsorted Ha Hnow. apply Forall_lookup. intros i e Hi.
  apply lookup_take_Some in Hi as [Hi Hlt]. unfold IsUpcoming.
  destruct (decide (i = k)) as [->|Hne]; [by simplify_eq|].
  pose proof (StronglySorted_lookup _ sorted i k e a Hsorted
                ltac:(lia) Hi Ha) as Hle.
  unfold later_first in Hle. lia.
Qed.

Lemma drop_none_upcoming sorted (k : nat) a now :
  StronglySorted later_first sorted →
  sorted !! k = Some a → start a ≤ now →
  Forall (λ n, ¬ IsUpcoming now n) (drop k sorted).
Proof.
  intros Hsorted Ha Hnow. apply Forall_lookup. intros i e Hi.
  rewrite lookup_drop in Hi. unfold IsUpcoming.
  destruct i as [|i]; [rewrite Nat.add_0_r in Hi; simplify_eq; lia|].
  pose proof (StronglySorted_lookup _ sorted k (k + S i) a e Hsorted
                ltac:(lia) Ha Hi) as Hle.
  unfold later_first in Hle. lia.
Qed.

(** Two neighbours with the same start time share it. *)
Lemma neighbours_share_start sorted (k : nat) a b :
  sorted !! k = Some a → sorted !! S k = Some b → start a = start b →
  (2 ≤ length (filter (λ n, start n = start a) sorted))%nat.
Proof.
  intros Ha Hb Heq.
  rewrite <-(take_drop_middle sorted k a Ha).
  assert (drop (S k) sorted = b :: drop (S (S k)) sorted) as ->.
  { rewrite <-(take_drop_middle sorted (S k) b Hb) at 1.
    rewrite drop_app_length'; [done|].
    rewrite length_take_le; [done|].
    apply lookup_lt_Some in Hb. lia. }
  rewrite filter_app, !filter_cons_True by done.
  rewrite length_app. cbn [length]. lia.
Qed.

(** Pairwise distinct start times are shared by no two records. *)
Lemma distinct_starts_not_shared (l : list Node) v :
  NoDup (start <$> l) →
  (length (filter (λ n, start n = v) l) ≤ 1)%nat.
Proof.
  induction l as [|a l IH]; [simpl; lia|].
  rewrite fmap_cons. intros [Hin Hnd]%NoDup_cons.
  destruct (decide (start a = v)) as [Ha|Ha].
  - rewrite filter_cons_True by done.
    destruct (filter (λ n, start n = v) l) as [|b bs] eqn:Hf; [simpl; lia|].
    assert (b ∈ filter (λ n, start n = v) l) as Hb
      by (rewrite Hf; apply elem_of_cons; by left).
    apply list_elem_of_filter in Hb as [Hb Hbl].
    destruct Hin. rewrite Ha, <-Hb. by apply list_elem_of_fmap_2.
  - rewrite filter_cons_False by done. by apply IH.
Qed.

(** When the clock does not go back from one reading to the next and
    passes no start time that two events share, the upcoming prefix of
    the sorted events is the set of events after one instant, which
    lies between the first and the last reading. *)
Lemma upcoming_prefix_instant w t sorted :
  StronglySorted later_first sorted →
  let k := upcoming_prefix w t sorted in
  let readings := min (S k) (length sorted) in
  (∀ i j : nat, (t ≤ i)%nat → (i ≤ j)%nat → (j < t + readings)%nat →
                clock w i ≤ clock w j) →
  (∀ v (i j : nat),
     (2 ≤ length (filter (λ n, start n = v) sorted))%nat →
     (t ≤ i)%nat → (j < t + readings)%nat →
     ¬ (clock w i < v ≤ clock w j)) →
  ∃ now,
    take k sorted = filter (IsUpcoming now) sorted ∧
    drop k sorted = filter (λ n, ¬ IsUpcoming now n) sorted ∧
    ((0 < readings)%nat →
     clock w t ≤ now ≤ clock w (t + readings - 1)).
Proof.
  intros Hsorted k readings Hmono Hties.
  pose proof (upcoming_prefix_le w t sorted) as Hk. fold k in Hk.
  pose proof (upcoming_prefix_boundary w t sorted) as Hb. fold k in Hb.
  assert (∀ k' a, k = S k' → sorted !! k' = Some a →
                  clock w (t + k') < start a) as Hlast.
  { intros k' a Hk' Ha. apply (upcoming_prefix_after w t sorted).
    fold k. rewrite Hk'. apply lookup_take_Some. split; [done|lia]. }
  destruct (drop k sorted) as [|b rest] eqn:Hdrop.
  - (* every event has been found upcoming *)
    assert (k = length sorted) as Hkn.
    { apply (f_equal length) in Hdrop. rewrite length_drop in Hdrop.
      simpl in Hdrop. lia. }
    destruct k as [|k'] eqn:Hk'.
    { exists 0. symmetry in Hkn. apply nil_length_inv in Hkn as ->.
      split_and!; [done..|]. subst readings. simpl. lia. }
    destruct (lookup_lt_is_Some_2 sorted k') as [a Ha]; [lia|].
    exists (clock w (t + k')).
    destruct (filter_cut (IsUpcoming (clock w (t + k'))) sorted (S k'))
      as [Htake Hdr].
    { apply (take_all_upcoming sorted k' a); [done..|]. by apply Hlast. }
    { rewrite Hdrop. constructor. }
    split_and!; [done|by rewrite <-Hdr, Hdrop|]. intros _.
    replace (t + readings - 1)%nat with (t + k')%nat
      by (subst readings; lia).
    split; [|lia]. apply Hmono; subst readings; lia.
  - (* the event [b] at index [k] has ended the prefix *)
    assert (sorted !! k = Some b) as Hkb.
    { rewrite <-(Nat.add_0_r k), <-lookup_drop. by rewrite Hdrop. }
    assert (k < length sorted)%nat as Hkn by (by eapply lookup_lt_Some).
    assert (readings = S k) as Hr by (subst readings; lia).
    destruct k as [|k'] eqn:Hk'.
    { exists (clock w t). rewrite Nat.add_0_r in Hb.
      destruct (filter_cut (IsUpcoming (clock w t)) sorted 0) as [Htake Hdr].
      { constructor. }
      { by apply (drop_none_upcoming sorted 0 b). }
      split_and!; [done|by rewrite <-Hdr, Hdrop|]. intros _. rewrite Hr.
      replace (t + 1 - 1)%nat with t by lia. lia. }
    destruct (lookup_lt_is_Some_2 sorted k') as [a Ha]; [lia|].
    pose proof (Hlast k' a eq_refl Ha) as Hca.
    pose proof (StronglySorted_lookup _ sorted k' (S k') a b Hsorted
                  ltac:(lia) Ha Hkb) as Hab.
    unfold later_first in Hab.
    assert (clock w t ≤ clock w (t + k')) as Hfirst
      by (apply Hmono; lia).
    assert (clock w (t + k') ≤ clock w (t + S k')) as Hstep
      by (apply Hmono; lia).
    assert (start b < start a) as Hstrict.
    { destruct (decide (start a = start b)) as [Heq|]; [|lia].
      destruct (Hties (start a) t (t + S k')%nat); [|lia|lia|lia].
      by apply (neighbours_share_start sorted k' a b). }
    exists (Z.max (clock w (t + k')) (start b)).
    destruct (filter_cut (IsUpcoming (Z.max (clock w (t + k')) (start b)))
                sorted (S k')) as [Htake Hdr].
    { apply (take_all_upcoming sorted k' a); [done..|]. lia. }
    { apply (drop_none_upcoming sorted (S k') b); [done..|]. lia. }
    split_and!; [done|by rewrite <-Hdr, Hdrop|]. intros _. rewrite Hr.
    replace (t + S (S k') - 1)%nat with (t + S k')%nat by lia. lia.
Qed.

(** C2, amended.  The evaluation instant is not captured once: every
    classification reads the clock anew.  The records are taken in
    the order of descending start time, and the i-th of them is
    compared with the i-th reading made during the query, until the
    first one that does not start after its reading; the clock is read
    once for each record found upcoming and once more for that first
    other record.

    The result is still the reference partition against one instant
    in each of these cases: when all the readings that the query can
    make give the same instant, against that instant; and when the
    clock does not go back between the readings of the query and does
    not pass, between two of them, a start time that two or more
    records share, against an instant that lies between the first and
    the last reading.  Pairwise distinct start times are shared by no
    two records, so for them a clock that does not go back suffices. *)
Theorem C2_one_instant_unless_a_shared_start_is_passed :
  (∀ (SP : SortPackage) w req po uo limit tr events up past tr',
     GetChildren w (Site req) "/aktionen" = (events, None) →
     Forall has_start events →
     limit_ok limit (length events) →
     getEvents w req po uo limit tr = Done ((up, past, None), tr') →
     ∃ sorted (k : nat),
       sort_Sort (Reverse order) events = Done sorted ∧
       (k ≤ length sorted)%nat ∧
       (∀ (i : nat) ev, (i < k)%nat → sorted !! i = Some ev →
                        clock w (ticks tr + i) < start ev) ∧
       (∀ ev, sorted !! k = Some ev → start ev ≤ clock w (ticks tr + k)) ∧
       nodes_of up = (if po then [] else reverse (take k sorted)) ∧
       nodes_of past
       = (if uo then []
          else if limit =? -1 then drop k sorted
               else take (Z.to_nat limit) (drop k sorted)) ∧
       ticks tr' = (ticks tr + min (S k) (length sorted))%nat) ∧
  (∀ (SP : SortPackage) w req po uo limit tr events up past tr' now,
     GetChildren w (Site req) "/aktionen" = (events, None) →
     Forall has_start events →
     limit_ok limit (length events) →
     (∀ i : nat, (ticks tr ≤ i < ticks tr + length events)%nat →
                 clock w i = now) →
     getEvents w req po uo limit tr = Done ((up, past, None), tr') →
     ∃ sorted,
       sort_Sort (Reverse order) events = Done sorted ∧
       (nodes_of up, nodes_of past) = reference_windows now po uo limit sorted ∧
       ticks tr'
       = (ticks tr +
          min (S (length (filter (IsUpcoming now) sorted)))
            (length sorted))%nat) ∧
  (∀ (SP : SortPackage) w req po uo limit tr events up past tr',
     GetChildren w (Site req) "/aktionen" = (events, None) →
     Forall has_start events →
     limit_ok limit (length events) →
     (∀ i j : nat, (ticks tr ≤ i)%nat → (i ≤ j)%nat → (j < ticks tr')%nat →
                   clock w i ≤ clock w j) →
     (∀ v (i j : nat),
        (2 ≤ length (filter (λ n, start n = v) events))%nat →
        (ticks tr ≤ i)%nat → (j < ticks tr')%nat →
        ¬ (clock w i < v ≤ clock w j)) →
     getEvents w req po uo limit tr = Done ((up, past, None), tr') →
     ∃ sorted now,
       sort_Sort (Reverse order) events = Done sorted ∧
       (nodes_of up, nodes_of past) = reference_windows now po uo limit sorted ∧
       ((ticks tr < ticks tr')%nat →
        clock w (ticks tr) ≤ now ≤ clock w (ticks tr' - 1)) ∧
       ticks tr'
       = (ticks tr +
          min (S (length (filter (IsUpcoming now) sorted)))
            (length sorted))%nat).
Proof.
  split_and!.
  - intros SP w req po uo limit tr events up past tr' Hget Hall Hlimit Hrun.
    destruct (sort_events_full events Hall)
      as (sorted & Hsort & Hperm & Hsorted & Hall' & Hlen).
    eapply getEvents_cases in Hrun; [|done..|by rewrite Hlen].
    destruct Hrun as [Hticks [(_ & -> & ->)|(_ & _ & _ & ? & ? & _ & _ & ?)]];
      [|done].
    exists sorted, (upcoming_prefix w (ticks tr) sorted).
    split_and!; [done|apply upcoming_prefix_le| | | | |done].
    + intros i ev Hi Hev. apply (upcoming_prefix_after w (ticks tr) sorted).
      by apply lookup_take_Some.
    + intros ev Hev.
      pose proof (upcoming_prefix_boundary w (ticks tr) sorted) as Hb.
      rewrite <-(Nat.add_0_r (upcoming_prefix w (ticks tr) sorted)),
        <-lookup_drop in Hev.
      destruct (drop (upcoming_prefix w (ticks tr) sorted) sorted); [done|].
      by injection Hev as ->.
    + apply nodes_of_upcoming_window.
    + apply nodes_of_past_window.
  - intros SP w req po uo limit tr events up past tr' now
      Hget Hall Hlimit Hclock Hrun.
    destruct (sort_events_full events Hall)
      as (sorted & Hsort & Hperm & Hsorted & Hall' & Hlen).
    exists sorted. split; [done|].
    eapply getEvents_cases in Hrun; [|done..|by rewrite Hlen].
    destruct Hrun as [Hticks [(_ & -> & ->)|(_ & _ & _ & ? & ? & _ & _ & ?)]];
      [|done].
    destruct (upcoming_prefix_still w (ticks tr) now sorted) as [Htake Hdrop];
      [by rewrite Hlen|done|].
    rewrite nodes_of_upcoming_window, nodes_of_past_window, Htake, Hdrop.
    split; [done|].
    rewrite Hticks. do 3 f_equal. rewrite <-Htake.
    rewrite length_take_le; [done|]. apply upcoming_prefix_le.
  - intros SP w req po uo limit tr events up past tr'
      Hget Hall Hlimit Hmono Hties Hrun.
    destruct (sort_events_full events Hall)
      as (sorted & Hsort & Hperm & Hsorted & Hall' & Hlen).
    eapply getEvents_cases in Hrun; [|done..|by rewrite Hlen].
    destruct Hrun as [Hticks [(_ & -> & ->)|(_ & _ & _ & ? & ? & _ & _ & ?)]];
      [|done].
    destruct (upcoming_prefix_instant w (ticks tr) sorted Hsorted)
      as (now & Htake & Hdrop & Hnow).
    { intros i j Hi Hij Hj. apply Hmono; lia. }
    { intros v i j Hv Hi Hj. apply Hties; [|lia..].
      by rewrite <-Hperm. }
    exists sorted, now.
    rewrite nodes_of_upcoming_window, nodes_of_past_window, Htake, Hdrop.
    split_and!; [done..| |].
    + intros Hread. rewrite Hticks in Hread |- *. apply Hnow. lia.
    + rewrite Hticks. do 3 f_equal. rewrite <-Htake.
      rewrite length_take_le; [done|]. apply upcoming_prefix_le.
Qed.

(** The scenario under the moving clock: the event "c", which starts
    two days after [T], is compared with the reading of three days
    after [T] and is past. *)
Lemma moving_clock_run :
  @getEvents insertion_sort_package Moving.world Scenario.req
    false false (-1) Scenario.tr0
  = Done (([view Scenario.e4],
           [view Scenario.e3;
            mkEventCtx (Some Scenario.e2) (Some Scenario.thumb);
            view Scenario.e1], None),
          mkTrace 2 ["/aktionen"; "/aktionen/c"; "/aktionen/b";
                     "/aktionen/a"]%string).
Proof. vm_compute. reflexivity. Qed.

Lemma scenario_starts_distinct : NoDup (start <$> Scenario.events).
Proof.
  unfold Scenario.events. rewrite !fmap_cons, fmap_nil.
  rewrite ScenarioRuns.start_e1, ScenarioRuns.start_e2,
    ScenarioRuns.start_e3, ScenarioRuns.start_e4.
  repeat (apply NoDup_cons; split;
          [rewrite ?elem_of_cons, elem_of_nil;
           unfold Scenario.T, Scenario.day; lia|]).
  apply NoDup_nil_2.
Qed.

Lemma C2_one_instant_unless_a_shared_start_is_passed_witness :
  (∃ sorted (k : nat),
     sort_Sort (Reverse order) Scenario.events = Done sorted ∧
     (k ≤ length sorted)%nat ∧
     (∀ (i : nat) ev, (i < k)%nat → sorted !! i = Some ev →
                      clock Moving.world (ticks Scenario.tr0 + i) < start ev) ∧
     (∀ ev, sorted !! k = Some ev →
            start ev ≤ clock Moving.world (ticks Scenario.tr0 + k)) ∧
     nodes_of [view Scenario.e4]
     = (if false then [] else reverse (take k sorted)) ∧
     nodes_of [view Scenario.e3;
               mkEventCtx (Some Scenario.e2) (Some Scenario.thumb);
               view Scenario.e1]
     = (if false then []
        else if -1 =? -1 then drop k sorted
             else take (Z.to_nat (-1)) (drop k sorted)) ∧
     ticks (mkTrace 2 ["/aktionen"; "/aktionen/c"; "/aktionen/b";
                       "/aktionen/a"]%string)
     = (ticks Scenario.tr0 + min (S k) (length sorted))%nat) ∧
  (∃ sorted,
     sort_Sort (Reverse order) Scenario.events = Done sorted ∧
     (nodes_of [view Scenario.e3; view Scenario.e4],
      nodes_of [mkEventCtx (Some Scenario.e2) (Some Scenario.thumb);
                view Scenario.e1])
     = reference_windows Scenario.T false false (-1) sorted ∧
     ticks (mkTrace 3 ["/aktionen"; "/aktionen/b"; "/aktionen/a"]%string)
     = (ticks Scenario.tr0 +
        min (S (length (filter (IsUpcoming Scenario.T) sorted)))
          (length sorted))%nat) ∧
  (∃ sorted now,
     sort_Sort (Reverse order) Scenario.events = Done sorted ∧
     (nodes_of [view Scenario.e4],
      nodes_of [view Scenario.e3;
                mkEventCtx (Some Scenario.e2) (Some Scenario.thumb);
                view Scenario.e1])
     = reference_windows now false false (-1) sorted ∧
     ((ticks Scenario.tr0
       < ticks (mkTrace 2 ["/aktionen"; "/aktionen/c"; "/aktionen/b";
                           "/aktionen/a"]%string))%nat →
      clock Moving.world (ticks Scenario.tr0) ≤ now
      ≤ clock Moving.world
          (ticks (mkTrace 2 ["/aktionen"; "/aktionen/c"; "/aktionen/b";
                             "/aktionen/a"]%string) - 1)) ∧
     ticks (mkTrace 2 ["/aktionen"; "/aktionen/c"; "/aktionen/b";
                       "/aktionen/a"]%string)
     = (ticks Scenario.tr0 +
        min (S (length (filter (IsUpcoming now) sorted)))
          (length sorted))%nat).
Proof.
  split_and!.
  - apply (proj1 C2_one_instant_unless_a_shared_start_is_passed
             insertion_sort_package Moving.world Scenario.req false false
             (-1) Scenario.tr0 Scenario.events).
    + reflexivity.
    + apply ScenarioRuns.events_have_start.
    + left. reflexivity.
    + apply moving_clock_run.
  - apply (proj1 (proj2 C2_one_instant_unless_a_shared_start_is_passed)
             insertion_sort_package Scenario.world Scenario.req false false
             (-1) Scenario.tr0 Scenario.events).
    + reflexivity.
    + apply ScenarioRuns.events_have_start.
    + left. reflexivity.
    + intros i _. reflexivity.
    + apply ScenarioRuns.unbounded.
  - apply (proj2 (proj2 C2_one_instant_unless_a_shared_start_is_passed)
             insertion_sort_package Moving.world Scenario.req false false
             (-1) Scenario.tr0 Scenario.events).
    + reflexivity.
    + apply ScenarioRuns.events_have_start.
    + left. reflexivity.
    + intros i j _ Hij _. cbn. lia.
    + intros v i j Hv _ _.
      pose proof (distinct_starts_not_shared Scenario.events v
                    scenario_starts_distinct).
      lia.
    + apply moving_clock_run.
Defined.

(** C2 as stated fails: two events start at the same time 10 and the
    clock goes from 9 to 11 between the two classifications; one event
    is returned as upcoming and the other as past, which is the
    partition against no instant at all. *)
Lemma C2_no_single_instant :
  ∃ up past tr',
    @getEvents insertion_sort_package Crossing.world Scenario.req
      false false (-1) Scenario.tr0 = Done ((up, past, None), tr') ∧
    ∀ now sorted, sorted ≡ₚ [Crossing.p; Crossing.q] →
      (nodes_of up, nodes_of past) ≠ reference_partition now sorted.
Proof.
  eexists _, _, _. split; [vm_compute; reflexivity|].
  intros now sorted Hperm Heq.
  apply Permutation_sym, Permutation_length_2_inv in Hperm.
  assert (start Crossing.p = 10) as Hp by reflexivity.
  assert (start Crossing.q = 10) as Hq by reflexivity.
  unfold reference_partition in Heq.
  injection Heq as Hup _. apply (f_equal length) in Hup.
  rewrite length_reverse in Hup.
  destruct (decide (now < 10)).
  - destruct Hperm as [->| ->];
      rewrite !filter_cons_True in Hup by (unfold IsUpcoming; lia);
      simpl in Hup; lia.
  - destruct Hperm as [->| ->];
      rewrite !filter_cons_False in Hup by (unfold IsUpcoming; lia);
      simpl in Hup; lia.
Qed.

(** C3, amended.  With pastOnly and upcomingOnly both set, both windows
    are empty: upcomingOnly empties the past window and pastOnly, after
    the scan, the upcoming one.  The scan itself is that of upcomingOnly
    alone: it stops at the first event that is not upcoming and looks
    up no thumbnail, so with upcomingOnly set (pastOnly set or not) the
    only enumeration made is that of the candidate list, and once that
    has succeeded no enumeration failure can occur. *)
Theorem C3_both_flags_empty_both_windows (SP : SortPackage) w req limit tr
  events :
  GetChildren w (Site req) "/aktionen" = (events, None) →
  Forall has_start events →
  limit_ok limit (length events) →
  ∃ sorted tr',
    sort_Sort (Reverse order) events = Done sorted ∧
    getEvents w req true true limit tr = Done (([], [], None), tr') ∧
    getEvents w req false true limit tr
    = Done ((reverse (view <$> take (upcoming_prefix w (ticks tr) sorted) sorted),
             [], None), tr') ∧
    fetched tr' = fetched tr ++ ["/aktionen"%string].
Proof.
  intros Hget Hall Hlimit.
  destruct (sort_events_full events Hall)
    as (sorted & Hsort & Hperm & Hsorted & Hall' & Hlen).
  rewrite <-Hlen in Hlimit.
  exists sorted. eexists. split; [done|].
  rewrite !(getEvents_upcomingOnly _ _ _ _ _ events sorted) by done.
  done.
Qed.

Lemma C3_both_flags_empty_both_windows_witness :
  ∃ sorted tr',
    sort_Sort (Reverse order) Scenario.events = Done sorted ∧
    getEvents Scenario.world Scenario.req true true (-1) Scenario.tr0
    = Done (([], [], None), tr') ∧
    getEvents Scenario.world Scenario.req false true (-1) Scenario.tr0
    = Done ((reverse (view <$> take (upcoming_prefix Scenario.world
                                       (ticks Scenario.tr0) sorted) sorted),
             [], None), tr') ∧
    fetched tr' = fetched Scenario.tr0 ++ ["/aktionen"%string].
Proof.
  apply (C3_both_flags_empty_both_windows insertion_sort_package
           Scenario.world Scenario.req (-1) Scenario.tr0 Scenario.events).
  - reflexivity.
  - apply ScenarioRuns.events_have_start.
  - left. reflexivity.
Defined.

(** C3 as stated fails: in the scenario upcomingOnly alone returns the
    two upcoming events, both flags together return none. *)
Lemma C3_both_flags_not_upcomingOnly :
  ∃ up_both up_alone past past' tr' tr'',
    @getEvents insertion_sort_package Scenario.world Scenario.req
      true true (-1) Scenario.tr0 = Done ((up_both, past, None), tr') ∧
    @getEvents insertion_sort_package Scenario.world Scenario.req
      false true (-1) Scenario.tr0 = Done ((up_alone, past', None), tr'') ∧
    up_both = [] ∧
    up_alone = [view Scenario.e3; view Scenario.e4] ∧
    up_both ≠ up_alone.
Proof.
  eexists _, _, _, _, _, _.
  split; [apply ScenarioRuns.both_flags|].
  split; [apply ScenarioRuns.upcoming_only|]. done.
Qed.

(** C4, at the failing input.  In the scenario with limit = 1 the two
    past events both have their thumbnail looked up, one more than the
    limit: the check that ends the scan comes after the lookup and
    compares with [>].  (With upcomingOnly no thumbnail is looked up.) *)
Theorem C4_lookup_past_the_limit (SP : SortPackage) :
  ∃ up past tr',
    getEvents Scenario.world Scenario.req false false 1 Scenario.tr0
    = Done ((up, past, None), tr') ∧
    length past = 1%nat ∧
    fetched tr' = ["/aktionen"; "/aktionen/b"; "/aktionen/a"]%string ∧
    ¬ (length (drop 1 (fetched tr')) ≤ 1)%nat.
Proof.
  eexists _, _, _. split; [apply ScenarioRuns.limit_one|].
  split_and!; [done..|]. simpl. lia.
Qed.

(** ** The query of the list view *)

Lemma limit_param_clamp query :
  limit_param query
  = match strconv_Atoi (Values_Get query "limit") with
    | (limitParam, None) => Z.max 1 limitParam
    | (_, Some _) => -1
    end.
Proof.
  unfold limit_param.
  destruct (strconv_Atoi (Values_Get query "limit")) as [v [e|]]; [done|].
  destruct (Z.ltb_spec v 1); lia.
Qed.

Lemma Values_Get_insert query key v vs :
  Values_Get (<[key:=v :: vs]> query) key = v.
Proof. unfold Values_Get. by rewrite lookup_insert_eq. Qed.

Lemma Values_has_insert_ne query key key' vs :
  key ≠ key' → Values_has (<[key:=vs]> query) key' = Values_has query key'.
Proof. intros Hne. unfold Values_has. by rewrite lookup_insert_ne. Qed.

(** getEvents uses the world through the clock and the storage service
    only, and the request through its site only. *)
Lemma scan_with_query w query site uo limit todo idx s tr :
  scan (with_query w query) site uo limit todo idx s tr
  = scan w site uo limit todo idx s tr.
Proof.
  revert idx s tr. induction todo as [|ev rest IH]; intros idx s tr; [done|].
  rewrite !scan_cons.
  change (scan_body (with_query w query) site uo limit idx ev s tr)
    with (scan_body w site uo limit idx ev s tr).
  destruct (scan_body w site uo limit idx ev s tr) as [[[s'|s'|e] tr']|];
    [apply IH|done..].
Qed.

Lemma getEvents_with_query `{SortPackage} w query req req' po uo limit tr :
  Site req = Site req' →
  getEvents (with_query w query) req po uo limit tr
  = getEvents w req' po uo limit tr.
Proof.
  intros Hsite. unfold getEvents, bind. rewrite Hsite.
  change (call_GetChildren (with_query w query) (Site req') "/aktionen" tr)
    with (call_GetChildren w (Site req') "/aktionen" tr).
  destruct (call_GetChildren w (Site req') "/aktionen" tr)
    as [[[events [e|]] tr1]|]; [done| |done].
  destruct (lift (sort_Sort (Reverse order) events) tr1) as [[sorted tr2]|];
    [|done].
  by rewrite scan_with_query.
Qed.

(** C5, amended.  The limit is parsed from the first value of the
    limit parameter: when that is no integer (or there is none) the
    limit is the unbounded sentinel -1 and no error is raised; every
    integer below 1 -- zero, the negative ones and -1 itself -- is
    clamped up to 1, and the list view then behaves as for a requested
    limit of 1.  So the sentinel arises from a parse failure only and a
    requested -1 does not mean unbounded. *)
Theorem C5_limit_parsed_and_clamped :
  (∀ query,
     limit_param query
     = match strconv_Atoi (Values_Get query "limit") with
       | (limitParam, None) => Z.max 1 limitParam
       | (_, Some _) => -1
       end) ∧
  (∀ query,
     limit_param query = -1
     ↔ (strconv_Atoi (Values_Get query "limit")).2 ≠ None) ∧
  (∀ (SP : SortPackage) w reqId tr query v z,
     strconv_Atoi v = (z, None) →
     z < 1 →
     limit_param (<["limit"%string:=[v]]> query) = 1 ∧
     getEventsContext (with_query w (<["limit"%string:=[v]]> query))
       reqId None tr
     = getEventsContext (with_query w (<["limit"%string:=["1"%string]]> query))
         reqId None tr).
Proof.
  split_and!.
  - apply limit_param_clamp.
  - intros query. rewrite limit_param_clamp.
    destruct (strconv_Atoi (Values_Get query "limit")) as [v [e|]]; cbn.
    + split; [done|]. done.
    + split; [lia|]. intros Hne. by destruct Hne.
  - intros SP w reqId tr query v z Hv Hz.
    assert (limit_param (<["limit"%string:=[v]]> query) = 1) as Hlimit.
    { rewrite limit_param_clamp, Values_Get_insert, Hv. lia. }
    split; [done|].
    unfold getEventsContext. cbn [GetRequest with_query].
    destruct (GetRequest w reqId) as [[r|] [e|]]; [done| |done..].
    cbn [Query Site NodePath Locale].
    rewrite !Values_has_insert_ne by done.
    rewrite Hlimit.
    replace (limit_param (<["limit"%string:=["1"%string]]> query)) with 1
      by (by rewrite limit_param_clamp, Values_Get_insert).
    unfold bind.
    rewrite !(getEvents_with_query w _ _ r) by done.
    destruct (getEvents w r _ _ 1 tr) as [[[[up past] [e|]] tr1]|]; done.
Qed.

Lemma C5_limit_parsed_and_clamped_witness :
  limit_param (<["limit"%string:=["0"%string]]> ∅) = 1 ∧
  @getEventsContext insertion_sort_package
    (with_query Scenario.world (<["limit"%string:=["0"%string]]> ∅))
    0 None Scenario.tr0
  = @getEventsContext insertion_sort_package
      (with_query Scenario.world (<["limit"%string:=["1"%string]]> ∅))
      0 None Scenario.tr0.
Proof.
  apply (proj2 (proj2 C5_limit_parsed_and_clamped) insertion_sort_package
           Scenario.world 0%nat Scenario.tr0 ∅ "0"%string 0).
  - reflexivity.
  - lia.
Defined.

(** C5 as stated fails: a requested limit of -1 is an integer below 1
    and is clamped to 1; it is not the unbounded sentinel. *)
Lemma C5_requested_minus_one_is_clamped :
  strconv_Atoi "-1" = (-1, None) ∧
  limit_param {[ "limit"%string := ["-1"%string] ]} = 1 ∧
  limit_param {[ "limit"%string := ["-1"%string] ]} ≠ -1.
Proof. split_and!; [reflexivity|reflexivity|]. by vm_compute. Qed.

(** ** The windows as lists of records *)

Lemma windows_sorted (R : relation Node) w site po uo limit k sorted :
  StronglySorted R sorted →
  StronglySorted (flip R) (nodes_of (upcoming_window po k sorted)) ∧
  StronglySorted R (nodes_of (past_window w site uo limit k sorted)).
Proof.
  intros Hsorted.
  rewrite nodes_of_upcoming_window, nodes_of_past_window.
  destruct (StronglySorted_take_drop R sorted k Hsorted) as [Htake Hdrop].
  split.
  - destruct po; [constructor|]. by apply StronglySorted_reverse_flip.
  - destruct uo; [constructor|]. destruct (limit =? -1); [done|].
    by apply StronglySorted_take_drop.
Qed.

Lemma windows_submseteq w site po uo limit k sorted :
  nodes_of (upcoming_window po k sorted) ++
  nodes_of (past_window w site uo limit k sorted) ⊆+ sorted.
Proof.
  rewrite nodes_of_upcoming_window, nodes_of_past_window.
  transitivity (take k sorted ++ drop k sorted); [|by rewrite take_drop].
  apply submseteq_app.
  - destruct po; [apply submseteq_nil_l|].
    by rewrite reverse_Permutation.
  - destruct uo; [apply submseteq_nil_l|].
    destruct (limit =? -1); [done|]. apply submseteq_take.
Qed.

Lemma windows_all w site k sorted :
  nodes_of (upcoming_window false k sorted) ++
  nodes_of (past_window w site false (-1) k sorted) ≡ₚ sorted.
Proof.
  rewrite nodes_of_upcoming_window, nodes_of_past_window. cbn.
  by rewrite reverse_Permutation, take_drop.
Qed.

Lemma length_nodes_of_upcoming_window po k sorted :
  length (nodes_of (upcoming_window po k sorted))
  = length (upcoming_window po k sorted).
Proof.
  rewrite nodes_of_upcoming_window. unfold upcoming_window.
  destruct po; [done|]. by rewrite !length_reverse, length_fmap.
Qed.

Lemma length_nodes_of_past_window w site uo limit k sorted :
  length (nodes_of (past_window w site uo limit k sorted))
  = length (past_window w site uo limit k sorted).
Proof.
  rewrite nodes_of_past_window. unfold past_window.
  destruct uo; [done|]. by rewrite length_fmap.
Qed.

Lemma submseteq_NoDup {A} (l k : list A) : l ⊆+ k → NoDup k → NoDup l.
Proof.
  intros [k' Hk]%submseteq_Permutation Hnd. rewrite Hk in Hnd.
  by apply NoDup_app in Hnd as [? _].
Qed.

(** C6.  For records with DateTime start times and a limit the list
    view can pass, every return of getEvents has windows whose entries
    each wrap a record, and whose records together are a sub-multiset
    of the input records: no input record appears twice, neither within
    a window nor in both.  So |Upcoming| + |Past| <= |input records|.  A
    return without error holds the upcoming prefix of the sorted
    records in Upcoming (nothing under pastOnly) and the records after
    it, up to the limit, in Past (nothing under upcomingOnly), where
    each record of the prefix was found after the clock reading it was
    compared with and no other record starts after the reading that
    ended the prefix; with no limit and no flag the two windows hold
    every input record once and the sum of their lengths is the number
    of input records. *)
Theorem C6_windows_partition_the_records (SP : SortPackage) w req po uo limit
  tr events up past err tr' :
  GetChildren w (Site req) "/aktionen" = (events, None) →
  Forall has_start events →
  limit_ok limit (length events) →
  getEvents w req po uo limit tr = Done ((up, past, err), tr') →
  length (nodes_of up) = length up ∧
  length (nodes_of past) = length past ∧
  nodes_of up ++ nodes_of past ⊆+ events ∧
  (NoDup events → NoDup (nodes_of up ++ nodes_of past)) ∧
  (length up + length past ≤ length events)%nat ∧
  (err = None →
   ∃ sorted (k : nat),
     sorted ≡ₚ events ∧
     nodes_of up = (if po then [] else reverse (take k sorted)) ∧
     nodes_of past = (if uo then []
                      else if limit =? -1 then drop k sorted
                           else take (Z.to_nat limit) (drop k sorted)) ∧
     (∀ (i : nat) n, take k sorted !! i = Some n →
                     clock w (ticks tr + i) < start n) ∧
     Forall (λ n, start n ≤ clock w (ticks tr + k)) (drop k sorted)) ∧
  (err = None → po = false → uo = false → limit = -1 →
   nodes_of up ++ nodes_of past ≡ₚ events ∧
   (length up + length past = length events)%nat).
Proof.
  intros Hget Hall Hlimit Hrun.
  destruct (sort_events_full events Hall)
    as (sorted & Hsort & Hperm & Hsorted & Hall' & Hlen).
  eapply getEvents_cases in Hrun; [|done..|by rewrite Hlen].
  destruct Hrun as [_ [(-> & -> & ->)|(_ & -> & -> & ev & e & _ & _ & ->)]].
  - set (k := upcoming_prefix w (ticks tr) sorted).
    assert (nodes_of (upcoming_window po k sorted) ++
            nodes_of (past_window w (Site req) uo limit k sorted) ⊆+ events)
      as Hsub.
    { transitivity sorted; [apply windows_submseteq|].
      by apply Permutation_submseteq. }
    pose proof (length_nodes_of_upcoming_window po k sorted) as Hlu.
    pose proof (length_nodes_of_past_window w (Site req) uo limit k sorted)
      as Hlp.
    split_and!; [done..| | | |].
    + intros Hnd. by eapply submseteq_NoDup.
    + apply submseteq_length in Hsub. rewrite length_app in Hsub. lia.
    + intros _. exists sorted, k.
      rewrite nodes_of_upcoming_window, nodes_of_past_window.
      split_and!; [done..| |].
      * intros i n. apply upcoming_prefix_after.
      * by apply upcoming_prefix_rest.
    + intros _ -> -> ->.
      assert (nodes_of (upcoming_window false k sorted) ++
              nodes_of (past_window w (Site req) false (-1) k sorted)
              ≡ₚ events) as Hall_in.
      { transitivity sorted; [apply windows_all|done]. }
      split; [done|].
      apply Permutation_length in Hall_in. rewrite length_app in Hall_in. lia.
  - split_and!; [done..|apply submseteq_nil_l|constructor|simpl; lia|done|done].
Qed.

Lemma C6_windows_partition_the_records_witness :
  let up := [view Scenario.e3; view Scenario.e4] in
  let past := [mkEventCtx (Some Scenario.e2) (Some Scenario.thumb);
               view Scenario.e1] in
  length (nodes_of up) = length up ∧
  length (nodes_of past) = length past ∧
  nodes_of up ++ nodes_of past ⊆+ Scenario.events ∧
  (NoDup Scenario.events → NoDup (nodes_of up ++ nodes_of past)) ∧
  (length up + length past ≤ length Scenario.events)%nat ∧
  (@None string = None →
   ∃ sorted (k : nat),
     sorted ≡ₚ Scenario.events ∧
     nodes_of up = (if false then [] else reverse (take k sorted)) ∧
     nodes_of past = (if false then []
                      else if -1 =? -1 then drop k sorted
                           else take (Z.to_nat (-1)) (drop k sorted)) ∧
     (∀ (i : nat) n, take k sorted !! i = Some n →
                     clock Scenario.world (ticks Scenario.tr0 + i) < start n) ∧
     Forall (λ n, start n
                  ≤ clock Scenario.world (ticks Scenario.tr0 + k))
       (drop k sorted)) ∧
  (@None string = None → false = false → false = false → -1 = -1 →
   nodes_of up ++ nodes_of past ≡ₚ Scenario.events ∧
   (length up + length past = length Scenario.events)%nat).
Proof.
  apply (C6_windows_partition_the_records insertion_sort_package
           Scenario.world Scenario.req false false (-1) Scenario.tr0
           Scenario.events _ _ None
           (mkTrace 3 ["/aktionen"; "/aktionen/b"; "/aktionen/a"]%string)).
  - reflexivity.
  - apply ScenarioRuns.events_have_start.
  - left. reflexivity.
  - apply ScenarioRuns.unbounded.
Defined.

(** Sorted records with pairwise different start times are strictly
    sorted. *)
Lemma later_first_strict sorted :
  StronglySorted later_first sorted →
  NoDup (start <$> sorted) →
  StronglySorted (λ a b, start b < start a) sorted.
Proof.
  induction 1 as [|a l Hl IH Ha]; intros Hnd; [constructor|].
  rewrite fmap_cons in Hnd. apply NoDup_cons in Hnd as [Hin Hnd].
  constructor; [by apply IH|].
  rewrite Forall_forall in Ha |- *. intros b Hb.
  specialize (Ha b Hb). unfold later_first in Ha.
  assert (start b ≠ start a); [|lia].
  intros Heq. apply Hin. rewrite <-Heq. by apply list_elem_of_fmap_2.
Qed.

Lemma ascending_ties_adjacent l :
  StronglySorted (λ a b, start a ≤ start b) l → ties_adjacent l.
Proof.
  intros Hl i j k a b c [Hij Hjk] Hi Hj Hk Heq.
  pose proof (StronglySorted_lookup _ l i j a b Hl Hij Hi Hj).
  pose proof (StronglySorted_lookup _ l j k b c Hl Hjk Hj Hk).
  cbn in *. lia.
Qed.

Lemma descending_ties_adjacent l :
  StronglySorted (λ a b, start b ≤ start a) l → ties_adjacent l.
Proof.
  intros Hl i j k a b c [Hij Hjk] Hi Hj Hk Heq.
  pose proof (StronglySorted_lookup _ l i j a b Hl Hij Hi Hj).
  pose proof (StronglySorted_lookup _ l j k b c Hl Hjk Hj Hk).
  cbn in *. lia.
Qed.

(** The order of the two windows of any return of getEvents. *)
Lemma getEvents_ordered `{SortPackage} w req po uo limit tr events up past
  err tr' :
  GetChildren w (Site req) "/aktionen" = (events, None) →
  Forall has_start events →
  limit_ok limit (length events) →
  getEvents w req po uo limit tr = Done ((up, past, err), tr') →
  StronglySorted (λ a b, start a ≤ start b) (nodes_of up) ∧
  StronglySorted (λ a b, start b ≤ start a) (nodes_of past) ∧
  ties_adjacent (nodes_of up) ∧
  ties_adjacent (nodes_of past) ∧
  (NoDup (start <$> events) →
   StronglySorted (λ a b, start a < start b) (nodes_of up) ∧
   StronglySorted (λ a b, start b < start a) (nodes_of past)).
Proof.
  intros Hget Hall Hlimit Hrun.
  destruct (sort_events_full events Hall)
    as (sorted & Hsort & Hperm & Hsorted & Hall' & Hlen).
  eapply getEvents_cases in Hrun; [|done..|by rewrite Hlen].
  destruct Hrun as [_ [(-> & -> & ->)|(_ & -> & -> & _)]].
  - set (k := upcoming_prefix w (ticks tr) sorted).
    destruct (windows_sorted later_first w (Site req) po uo limit k sorted)
      as [Hup Hpast]; [done|].
    split_and!; [done..| | |].
    + by apply ascending_ties_adjacent.
    + by apply descending_ties_adjacent.
    + intros Hnd.
      assert (NoDup (start <$> sorted)) as Hnd' by (by rewrite Hperm).
      by apply (windows_sorted (λ a b, start b < start a)),
               later_first_strict.
  - split_and!; [constructor..| | |].
    + by intros i j k a b c _ ?.
    + by intros i j k a b c _ ?.
    + intros _. split; constructor.
Qed.

(** C7.  For records with DateTime start times and a limit the list
    view can pass, every return of getEvents has Upcoming ascending by
    start time (soonest first) and Past descending by start time (most
    recent first): no record starts before one ahead of it in Upcoming,
    or after one ahead of it in Past, so records with the same start
    time are neighbours, in an order that is left open.  When no two
    input records start at the same time both orders are strict.  For
    the start times [T-3d, T-1d, T+2d, T+5d] at now = T, no limit and no
    flags: Upcoming = [T+2d, T+5d] and Past = [T-1d, T-3d]. *)
Theorem C7_windows_ordered :
  (∀ (SP : SortPackage) w req po uo limit tr events up past err tr',
     GetChildren w (Site req) "/aktionen" = (events, None) →
     Forall has_start events →
     limit_ok limit (length events) →
     getEvents w req po uo limit tr = Done ((up, past, err), tr') →
     StronglySorted (λ a b, start a ≤ start b) (nodes_of up) ∧
     StronglySorted (λ a b, start b ≤ start a) (nodes_of past) ∧
     ties_adjacent (nodes_of up) ∧
     ties_adjacent (nodes_of past) ∧
     (NoDup (start <$> events) →
      StronglySorted (λ a b, start a < start b) (nodes_of up) ∧
      StronglySorted (λ a b, start b < start a) (nodes_of past))) ∧
  (∀ (SP : SortPackage) up past tr',
     getEvents Scenario.world Scenario.req false false (-1) Scenario.tr0
     = Done ((up, past, None), tr') →
     start <$> nodes_of up
     = [Scenario.T + 2 * Scenario.day; Scenario.T + 5 * Scenario.day] ∧
     start <$> nodes_of past
     = [Scenario.T - 1 * Scenario.day; Scenario.T - 3 * Scenario.day]).
Proof.
  split.
  - intros SP w req po uo limit tr events up past err tr' Hget Hall Hlimit Hrun.
    by eapply getEvents_ordered.
  - intros SP up past tr'. rewrite ScenarioRuns.unbounded.
    by intros [= <- <- <-].
Qed.

Lemma C7_windows_ordered_witness :
  let up := [view Scenario.e3; view Scenario.e4] in
  let past := [mkEventCtx (Some Scenario.e2) (Some Scenario.thumb);
               view Scenario.e1] in
  StronglySorted (λ a b, start a ≤ start b) (nodes_of up) ∧
  StronglySorted (λ a b, start b ≤ start a) (nodes_of past) ∧
  ties_adjacent (nodes_of up) ∧
  ties_adjacent (nodes_of past) ∧
  (NoDup (start <$> Scenario.events) →
   StronglySorted (λ a b, start a < start b) (nodes_of up) ∧
   StronglySorted (λ a b, start b < start a) (nodes_of past)).
Proof.
  apply (proj1 C7_windows_ordered insertion_sort_package
           Scenario.world Scenario.req false false (-1) Scenario.tr0
           Scenario.events _ _ None
           (mkTrace 3 ["/aktionen"; "/aktionen/b"; "/aktionen/a"]%string)).
  - reflexivity.
  - apply ScenarioRuns.events_have_start.
  - left. reflexivity.
  - apply ScenarioRuns.unbounded.
Defined.

(** ** Enumeration failures *)


Lemma not_upcoming_calls w site uo limit idx ev ctxs p pc tr fl tr' :
  not_upcoming w site uo limit idx ev ctxs p pc tr = Done (fl, tr') →
  ∃ ps, fetched tr' = fetched tr ++ ps ∧
    match fl with
    | Return msg =>
        ∃ e, ps = [Path ev] ∧ (GetChildren w site (Path ev)).2 = Some e ∧
             msg = Errorf "Could not fetch children: " e
    | _ => Forall (enumerated w site) ps
    end.
Proof.
  unfold not_upcoming, bind, lift, ret, call_GetChildren, enumerated.
  destruct uo.
  { intros [= <- <-]. exists []. by rewrite app_nil_r. }
  destruct (GetChildren w site (Path ev)) as [images [e|]] eqn:Hget.
  { intros [= <- <-]. exists [Path ev]. split; [done|]. by exists e. }
  destruct (match images with
            | [] => Done ctxs
            | im :: _ => assign ctxs idx (λ e, mkEventCtx (Node_ e) (Some im))
            end) as [ctxs'|]; [|done].
  intros [= <- <-]. exists [Path ev]. split; [done|].
  unfold limit_check.
  destruct (negb (limit =? -1) && _);
    (constructor; [by rewrite Hget|constructor]).
Qed.

Lemma scan_body_calls w site uo limit idx ev s tr fl tr' :
  scan_body w site uo limit idx ev s tr = Done (fl, tr') →
  ∃ ps, fetched tr' = fetched tr ++ ps ∧
    match fl with
    | Return msg =>
        ∃ e, ps = [Path ev] ∧ (GetChildren w site (Path ev)).2 = Some e ∧
             msg = Errorf "Could not fetch children: " e
    | _ => Forall (enumerated w site) ps
    end.
Proof.
  unfold scan_body, bind, lift, ret.
  destruct (assign (eventCtxs s) idx _) as [ctxs|]; [|done].
  destruct (idx =? pastIdx s).
  - destruct (index ctxs idx) as [e|]; [|done].
    unfold Upcoming, bind, lift, time_Now, ret.
    destruct (Node_ e) as [n|]; [|done].
    destruct (StartTime n) as [t|]; [|done].
    destruct (clock w (ticks tr) <? t).
    + intros [= <- <-]. exists []. cbn. rewrite app_nil_r. split; [done|].
      unfold limit_check. by destruct (negb (limit =? -1) && _).
    + intros Hrun. by apply not_upcoming_calls in Hrun.
  - apply not_upcoming_calls.
Qed.

Lemma scan_calls w site uo limit todo idx s tr r tr' :
  scan w site uo limit todo idx s tr = Done (r, tr') →
  ∃ ps, fetched tr' = fetched tr ++ ps ∧
    match r with
    | inl _ => Forall (enumerated w site) ps
    | inr msg =>
        ∃ ps' p e, ps = ps' ++ [p] ∧ Forall (enumerated w site) ps' ∧
                   (GetChildren w site p).2 = Some e ∧
                   msg = Errorf "Could not fetch children: " e
    end.
Proof.
  revert idx s tr. induction todo as [|ev rest IH]; intros idx s tr.
  { intros [= <- <-]. exists []. by rewrite app_nil_r. }
  rewrite scan_cons.
  destruct (scan_body w site uo limit idx ev s tr) as [[fl tr1]|] eqn:Hbody;
    [|done].
  apply scan_body_calls in Hbody as (ps1 & Hps1 & Hfl).
  destruct fl as [s'|s'|msg].
  - intros (ps2 & Hps2 & Hr)%IH. exists (ps1 ++ ps2).
    split; [by rewrite Hps2, Hps1, app_assoc|].
    destruct r as [?|msg].
    + by apply Forall_app.
    + destruct Hr as (ps' & p & e & -> & Hok & He & ->).
      exists (ps1 ++ ps'), p, e. rewrite app_assoc.
      split_and!; [done| |done..]. by apply Forall_app.
  - intros [= <- <-]. by exists ps1.
  - intros [= <- <-]. destruct Hfl as (e & -> & He & ->).
    exists [Path ev]. split; [done|]. exists [], (Path ev), e.
    split_and!; [done|constructor|done..].
Qed.

(** Every return of getEvents, with the paths it has had enumerated:
    either all were enumerated and there is no error, or the last one
    failed and its error is returned with no window. *)
Lemma getEvents_calls `{SortPackage} w req po uo limit tr up past err tr' :
  getEvents w req po uo limit tr = Done ((up, past, err), tr') →
  ∃ ps, fetched tr' = fetched tr ++ ps ∧
    match err with
    | None => Forall (enumerated w (Site req)) ps
    | Some msg =>
        up = [] ∧ past = [] ∧
        ∃ ps' p e, ps = ps' ++ [p] ∧ Forall (enumerated w (Site req)) ps' ∧
                   (GetChildren w (Site req) p).2 = Some e ∧
                   msg = Errorf "Could not fetch children: " e
    end.
Proof.
  unfold getEvents, bind, call_GetChildren.
  destruct (GetChildren w (Site req) "/aktionen") as [events [e|]] eqn:Hget.
  { intros [= <- <- <- <-]. exists ["/aktionen"%string]. split; [done|].
    split_and!; [done..|]. exists [], "/aktionen"%string, e.
    split_and!; [done|constructor| |done]. by rewrite Hget. }
  unfold lift at 1.
  destruct (sort_Sort (Reverse order) events) as [sorted|]; [|done].
  destruct (scan w (Site req) uo limit sorted 0 _ _) as [[r tr1]|] eqn:Hscan;
    [|done].
  apply scan_calls in Hscan as (ps & Hps & Hr). cbn in Hps.
  destruct r as [s|msg].
  - unfold lift, ret.
    destruct (windows po uo limit s) as [[up' past']|]; [|done].
    intros [= <- <- <- <-]. exists ("/aktionen"%string :: ps).
    split; [by rewrite Hps, <-app_assoc|].
    constructor; [|done]. unfold enumerated. by rewrite Hget.
  - intros [= <- <- <- <-]. exists ("/aktionen"%string :: ps).
    split; [by rewrite Hps, <-app_assoc|].
    split_and!; [done..|].
    destruct Hr as (ps' & p & e & -> & Hok & He & ->).
    exists ("/aktionen"%string :: ps'), p, e.
    split_and!; [done| |done..].
    constructor; [|done]. unfold enumerated. by rewrite Hget.
Qed.

Lemma failed_call_is_last w site (ps ps' : list string) p path :
  ps = ps' ++ [p] →
  Forall (enumerated w site) ps' →
  path ∈ ps → ¬ enumerated w site path → path = p.
Proof.
  intros -> Hok Hin Hfail. apply elem_of_app in Hin as [Hin|Hin].
  - rewrite Forall_forall in Hok. by destruct Hfail; apply Hok.
  - by apply list_elem_of_singleton in Hin.
Qed.

(** C9.  When the storage service fails to enumerate the candidate list
    /aktionen, getEvents returns at once.  More generally, among the
    paths that a run of getEvents has had enumerated -- the candidate
    list first, then the events whose thumbnail is looked up -- let one
    be a path the storage service fails on.  Then getEvents returns the
    error of that failure behind the words "Could not fetch children: ",
    and both windows are nil; and the list view that called it returns
    that error behind "Could not retrieve events: ", with no rendered
    fragment and no cache descriptor. *)
Theorem C9_enumeration_failure_aborts :
  (∀ (SP : SortPackage) w req po uo limit tr events e,
     GetChildren w (Site req) "/aktionen" = (events, Some e) →
     getEvents w req po uo limit tr
     = Done (([], [], Some (Errorf "Could not fetch children: " e)),
             mkTrace (ticks tr) (fetched tr ++ ["/aktionen"%string]))) ∧
  (∀ (SP : SortPackage) w req po uo limit tr up past err tr' path,
     getEvents w req po uo limit tr = Done ((up, past, err), tr') →
     path ∈ drop (length (fetched tr)) (fetched tr') →
     ¬ enumerated w (Site req) path →
     up = [] ∧ past = [] ∧
     ∃ e, (GetChildren w (Site req) path).2 = Some e ∧
          err = Some (Errorf "Could not fetch children: " e)) ∧
  (∀ (SP : SortPackage) w reqId embed tr req frags mods err tr' path,
     GetRequest w reqId = (Some req, None) →
     getEventsContext w reqId embed tr = Done ((frags, mods, err), tr') →
     path ∈ drop (length (fetched tr)) (fetched tr') →
     ¬ enumerated w (Site req) path →
     frags = None ∧ mods = None ∧
     ∃ e, (GetChildren w (Site req) path).2 = Some e ∧
          err = Some (Errorf "Could not retrieve events: "
                        (Errorf "Could not fetch children: " e))).
Proof.
  assert (∀ (SP : SortPackage) w req po uo limit tr up past err tr' path,
     getEvents w req po uo limit tr = Done ((up, past, err), tr') →
     path ∈ drop (length (fetched tr)) (fetched tr') →
     ¬ enumerated w (Site req) path →
     up = [] ∧ past = [] ∧
     ∃ e, (GetChildren w (Site req) path).2 = Some e ∧
          err = Some (Errorf "Could not fetch children: " e)) as Hfirst.
  { intros SP w req po uo limit tr up past err tr' path Hrun Hin Hfail.
    apply getEvents_calls in Hrun as (ps & Hps & Herr).
    rewrite Hps, drop_app_length in Hin.
    destruct err as [msg|].
    - destruct Herr as (-> & -> & ps' & p & e & Hps' & Hok & He & ->).
      split_and!; [done..|]. exists e. split; [|done].
      by rewrite (failed_call_is_last w (Site req) ps ps' p path).
    - rewrite Forall_forall in Herr. by destruct Hfail; apply Herr. }
  split; [intros; by eapply getEvents_no_candidates|].
  split; [done|].
  intros SP w reqId embed tr req frags mods err tr' path Hreq Hrun Hin Hfail.
  unfold getEventsContext in Hrun. rewrite Hreq in Hrun.
  destruct (match embed with
            | Some em => url_Parse w (URI em)
            | None => (Query req, None)
            end) as [query [e|]].
  { injection Hrun as <- <- <- <-.
    rewrite drop_ge in Hin by done. by apply elem_of_nil in Hin. }
  unfold bind in Hrun.
  destruct (getEvents w req _ _ _ tr) as [[[[up past] err'] tr1]|] eqn:Hev;
    [|done].
  assert (fetched tr' = fetched tr1) as Htr.
  { destruct err' as [msg|]; [by injection Hrun as <- <- <- <-|].
    destruct (Render w _ _ _ _) as [rendered [e|]];
      [by injection Hrun as <- <- <- <-|].
    unfold lift, ret in Hrun.
    destruct (first_start up); [|done]. by injection Hrun as <- <- <- <-. }
  rewrite Htr in Hin.
  destruct (Hfirst _ _ _ _ _ _ _ _ _ _ _ _ Hev Hin Hfail)
    as (-> & -> & e & He & ->).
  injection Hrun as <- <- <- <-. split_and!; [done..|]. by exists e.
Qed.

Lemma C9_enumeration_failure_aborts_witness :
  (@nil eventCtx = [] ∧ @nil eventCtx = [] ∧
   ∃ e, (GetChildren Scenario.broken_world (Site Scenario.req)
           "/aktionen/b").2 = Some e ∧
        Some "Could not fetch children: timeout"%string
        = Some (Errorf "Could not fetch children: " e)).
Proof.
  apply (proj1 (proj2 C9_enumeration_failure_aborts) insertion_sort_package
           Scenario.broken_world Scenario.req false false (-1) Scenario.tr0
           [] [] (Some "Could not fetch children: timeout"%string)
           (mkTrace 3 ["/aktionen"; "/aktionen/b"]%string)
           "/aktionen/b"%string).
  - apply ScenarioRuns.broken.
  - simpl. apply elem_of_cons. right. apply elem_of_cons. by left.
  - unfold enumerated. simpl. discriminate.
Defined.

(** ** The cache descriptors *)

Lemma first_start_views l :
  Forall has_start l → ∃ t, first_start (view <$> l) = Done t.
Proof.
  destruct l as [|n l]; [by exists 0|].
  intros [Hn _]%Forall_cons. cbn. by rewrite (has_start_StartTime n Hn); eexists.
Qed.

(** The first entry of the upcoming window that getEvents returns for
    records with DateTime start times can be read for the expiry. *)
Lemma first_start_returns `{SortPackage} w req po uo limit tr events up past
  tr' :
  GetChildren w (Site req) "/aktionen" = (events, None) →
  Forall has_start events →
  limit_ok limit (length events) →
  getEvents w req po uo limit tr = Done ((up, past, None), tr') →
  ∃ expire, first_start up = Done expire.
Proof.
  intros Hget Hall Hlimit Hrun.
  destruct (sort_events_full events Hall)
    as (sorted & Hsort & Hperm & Hsorted & Hall' & Hlen).
  eapply getEvents_cases in Hrun; [|done..|by rewrite Hlen].
  destruct Hrun as [_ [(_ & -> & _)|(_ & _ & _ & ? & ? & _ & _ & ?)]]; [|done].
  unfold upcoming_window. destruct po; [by exists 0|].
  rewrite <-fmap_reverse. apply first_start_views.
  by apply Forall_reverse, Forall_take.
Qed.

(** C8.  The list view builds its cache descriptor with one
    dependency, the queried node path with descend depth 2, and with
    the expiry set to the start time of the first entry of the upcoming
    window that getEvents returned, or left at the zero time (no
    expiry) when that window is empty; for records with DateTime start
    times no record of the window starts before that expiry, so the
    first entry is the soonest.  The single-item view builds a
    descriptor with one dependency, the item's own path with descend
    depth 1, and no expiry.

    This is stated in both directions.  Every return without error
    carries that descriptor; and the views do return it: the list view
    whenever the request is resolved, the query is read, getEvents
    returns its windows for records with DateTime start times and the
    template is rendered, and the single-item view whenever the request
    is resolved, the children of the item are enumerated and the
    template is rendered. *)
Theorem C8_cache_descriptors :
  (∀ (SP : SortPackage) w reqId embed tr frags mods tr',
     getEventsContext w reqId embed tr = Done ((frags, mods, None), tr') →
     ∃ req query up past tr1 expire,
       GetRequest w reqId = (Some req, None) ∧
       match embed with
       | Some em => url_Parse w (URI em)
       | None => (Query req, None)
       end = (query, None) ∧
       getEvents w req (Values_has query "past") (Values_has query "upcoming")
         (limit_param query) tr = Done ((up, past, None), tr1) ∧
       mods = Some (mkCacheMods [mkCacheDep (NodePath req) 2] expire) ∧
       match up with
       | [] => expire = 0
       | e :: _ => ∃ n, Node_ e = Some n ∧ StartTime n = Done expire
       end ∧
       (∀ events,
          GetChildren w (Site req) "/aktionen" = (events, None) →
          Forall has_start events →
          limit_ok (limit_param query) (length events) →
          Forall (λ n, expire ≤ start n) (nodes_of up))) ∧
  (∀ w reqId embed tr frags mods tr',
     getEventContext w reqId embed tr = Done ((frags, mods, None), tr') →
     ∃ req,
       GetRequest w reqId = (Some req, None) ∧
       mods = Some (mkCacheMods [mkCacheDep (NodePath req) 1] 0)) ∧
  (∀ (SP : SortPackage) w reqId embed tr req query events up past tr1 rendered,
     GetRequest w reqId = (Some req, None) →
     match embed with
     | Some em => url_Parse w (URI em)
     | None => (Query req, None)
     end = (query, None) →
     GetChildren w (Site req) "/aktionen" = (events, None) →
     Forall has_start events →
     limit_ok (limit_param query) (length events) →
     getEvents w req (Values_has query "past") (Values_has query "upcoming")
       (limit_param query) tr = Done ((up, past, None), tr1) →
     Render w "events/event-list"
       (EventsContext (Values_has query "upcoming") (Values_has query "past")
          up past embed)
       (Locale req) (GetSiteTemplatesPath w (Site req)) = (rendered, None) →
     ∃ expire,
       getEventsContext w reqId embed tr
       = Done ((Some {[ "EventList"%string := rendered ]},
                Some (mkCacheMods [mkCacheDep (NodePath req) 2] expire),
                None), tr1) ∧
       match up with
       | [] => expire = 0
       | e :: _ => ∃ n, Node_ e = Some n ∧ StartTime n = Done expire
       end ∧
       Forall (λ n, expire ≤ start n) (nodes_of up)) ∧
  (∀ w reqId embed tr req images rendered,
     GetRequest w reqId = (Some req, None) →
     GetChildren w (Site req) (NodePath req) = (images, None) →
     Render w "events/event-images" (ImagesContext images) (Locale req)
       (GetSiteTemplatesPath w (Site req)) = (rendered, None) →
     getEventContext w reqId embed tr
     = Done ((Some {[ "EventImages"%string := rendered ]},
              Some (mkCacheMods [mkCacheDep (NodePath req) 1] 0), None),
             mkTrace (ticks tr) (fetched tr ++ [NodePath req]))).
Proof.
  assert (∀ (SP : SortPackage) w req po uo limit tr events up past tr1 expire,
            GetChildren w (Site req) "/aktionen" = (events, None) →
            Forall has_start events →
            limit_ok limit (length events) →
            getEvents w req po uo limit tr = Done ((up, past, None), tr1) →
            first_start up = Done expire →
            match up with
            | [] => expire = 0
            | e :: _ => ∃ n, Node_ e = Some n ∧ StartTime n = Done expire
            end ∧
            Forall (λ n, expire ≤ start n) (nodes_of up)) as Hexpire.
  { intros SP w req po uo limit tr events up past tr1 expire
      Hget Hall Hlimit Hev Hexp.
    split.
    - destruct up as [|e up']; [by injection Hexp|].
      cbn in Hexp. destruct (Node_ e) as [n|]; [|done]. by exists n.
    - destruct (getEvents_ordered w req _ _ _ tr events up past None tr1
                  Hget Hall Hlimit Hev) as (Hup & _).
      destruct up as [|e up']; [constructor|].
      cbn in Hexp. unfold nodes_of in *. cbn in *.
      destruct (Node_ e) as [n|]; [|done]. cbn in *.
      assert (start n = expire) as <- by (unfold start; by rewrite Hexp).
      apply StronglySorted_cons in Hup as [Hn _].
      constructor; [lia|done]. }
  split_and!.
  - intros SP w reqId embed tr frags mods tr'. unfold getEventsContext.
    destruct (GetRequest w reqId) as [[req|] [e|]]; [done| |done..].
    destruct (match embed with
              | Some em => url_Parse w (URI em)
              | None => (Query req, None)
              end) as [query [e|]] eqn:Hquery; [done|].
    unfold bind.
    destruct (getEvents w req _ _ _ tr) as [[[[up past] [msg|]] tr1]|] eqn:Hev;
      [done| |done].
    destruct (Render w _ _ _ _) as [rendered [e|]]; [done|].
    unfold lift, ret.
    destruct (first_start up) as [expire|] eqn:Hexp; [|done].
    intros [= <- <- <-].
    exists req, query, up, past, tr1, expire.
    split_and!; [done..| |].
    + destruct up as [|e up']; [by injection Hexp|].
      cbn in Hexp. destruct (Node_ e) as [n|]; [|done]. by exists n.
    + intros events Hget Hall Hlimit.
      by destruct (Hexpire SP w req _ _ _ tr events up past tr1 expire
                     Hget Hall Hlimit Hev Hexp).
  - intros w reqId embed tr frags mods tr'. unfold getEventContext.
    destruct (GetRequest w reqId) as [[req|] [e|]]; [done| |done..].
    unfold bind, call_GetChildren.
    destruct (GetChildren w (Site req) (NodePath req)) as [images [e|]];
      [done|].
    destruct (Render w _ _ _ _) as [rendered [e|]]; [done|].
    intros [= <- <- <-]. by exists req.
  - intros SP w reqId embed tr req query events up past tr1 rendered
      Hreq Hquery Hget Hall Hlimit Hev Hrender.
    destruct (first_start_returns w req _ _ _ tr events up past tr1
                Hget Hall Hlimit Hev) as [expire Hexp].
    exists expire.
    destruct (Hexpire SP w req _ _ _ tr events up past tr1 expire
                Hget Hall Hlimit Hev Hexp) as [Hfirst Hsoonest].
    split_and!; [|done..].
    unfold getEventsContext. rewrite Hreq, Hquery. unfold bind.
    rewrite Hev, Hrender. unfold lift, ret. by rewrite Hexp.
  - intros w reqId embed tr req images rendered Hreq Hget Hrender.
    unfold getEventContext. rewrite Hreq. unfold bind, call_GetChildren.
    by rewrite Hget, Hrender.
Qed.

Lemma C8_cache_descriptors_witness :
  (∃ req query up past tr1 expire,
     GetRequest Scenario.world 0 = (Some req, None) ∧
     (Query req, @None string) = (query, None) ∧
     @getEvents insertion_sort_package Scenario.world req
       (Values_has query "past") (Values_has query "upcoming")
       (limit_param query) Scenario.tr0 = Done ((up, past, None), tr1) ∧
     Some (mkCacheMods [mkCacheDep "/termine" 2]
             (Scenario.T + 2 * Scenario.day))
     = Some (mkCacheMods [mkCacheDep (NodePath req) 2] expire) ∧
     match up with
     | [] => expire = 0
     | e :: _ => ∃ n, Node_ e = Some n ∧ StartTime n = Done expire
     end ∧
     (∀ events,
        GetChildren Scenario.world (Site req) "/aktionen" = (events, None) →
        Forall has_start events →
        limit_ok (limit_param query) (length events) →
        Forall (λ n, expire ≤ start n) (nodes_of up))) ∧
  (∃ req,
     GetRequest Scenario.world 0 = (Some req, None) ∧
     Some (mkCacheMods [mkCacheDep "/termine" 1] 0)
     = Some (mkCacheMods [mkCacheDep (NodePath req) 1] 0)) ∧
  (∃ expire,
     @getEventsContext insertion_sort_package Scenario.world 0 None
       Scenario.tr0
     = Done ((Some {[ "EventList"%string := "<ul/>"%string ]},
              Some (mkCacheMods [mkCacheDep (NodePath Scenario.req) 2] expire),
              None),
             mkTrace 3 ["/aktionen"; "/aktionen/b"; "/aktionen/a"]%string) ∧
     (∃ n, Node_ (view Scenario.e3) = Some n ∧ StartTime n = Done expire) ∧
     Forall (λ n, expire ≤ start n)
       (nodes_of [view Scenario.e3; view Scenario.e4])) ∧
  getEventContext Scenario.world 0 None Scenario.tr0
  = Done ((Some {[ "EventImages"%string := "<ul/>"%string ]},
           Some (mkCacheMods [mkCacheDep (NodePath Scenario.req) 1] 0), None),
          mkTrace (ticks Scenario.tr0)
            (fetched Scenario.tr0 ++ [NodePath Scenario.req])).
Proof.
  split_and!.
  - apply (proj1 C8_cache_descriptors insertion_sort_package Scenario.world
             0%nat None Scenario.tr0
             (Some {[ "EventList"%string := "<ul/>"%string ]})
             (Some (mkCacheMods [mkCacheDep "/termine" 2]
                      (Scenario.T + 2 * Scenario.day)))
             (mkTrace 3 ["/aktionen"; "/aktionen/b"; "/aktionen/a"]%string)).
    vm_compute. reflexivity.
  - apply (proj1 (proj2 C8_cache_descriptors) Scenario.world 0%nat None
             Scenario.tr0
             (Some {[ "EventImages"%string := "<ul/>"%string ]})
             (Some (mkCacheMods [mkCacheDep "/termine" 1] 0))
             (mkTrace 0 ["/termine"%string])).
    vm_compute. reflexivity.
  - apply (proj1 (proj2 (proj2 C8_cache_descriptors)) insertion_sort_package
             Scenario.world 0%nat None Scenario.tr0 Scenario.req ∅
             Scenario.events [view Scenario.e3; view Scenario.e4]
             [mkEventCtx (Some Scenario.e2) (Some Scenario.thumb);
              view Scenario.e1]
             (mkTrace 3 ["/aktionen"; "/aktionen/b"; "/aktionen/a"]%string)
             "<ul/>"%string).
    + reflexivity.
    + reflexivity.
    + reflexivity.
    + apply ScenarioRuns.events_have_start.
    + left. reflexivity.
    + apply ScenarioRuns.unbounded.
    + reflexivity.
  - apply (proj2 (proj2 (proj2 C8_cache_descriptors)) Scenario.world 0%nat
             None Scenario.tr0 Scenario.req [] "<ul/>"%string).
    + reflexivity.
    + reflexivity.
    + reflexivity.
Defined.

(** ** The start-time field *)

Lemma has_start_field n :
  has_start n
  ↔ ∃ t, Fields n !! "events.StartTime"%string = Some (DateTimeField t).
Proof.
  unfold has_start, StartTime. split.
  - intros [t Ht].
    destruct (Fields n !! "events.StartTime"%string) as [[t'|?]|]; [|done..].
    by exists t'.
  - intros [t ->]. by exists t.
Qed.

Lemma no_start_fault n : ¬ has_start n → StartTime n = Panic TypeAssertion.
Proof.
  intros Hn. unfold has_start, StartTime in *.
  destruct (Fields n !! "events.StartTime"%string) as [[t|?]|]; [|done..].
  destruct Hn. by exists t.
Qed.

Lemma index_fault {A} (a : list A) i f : index a i = Panic f → f = IndexRange.
Proof.
  unfold index. destruct (i <? 0); [by intros [= <-]|].
  destruct (a !! Z.to_nat i); [done|by intros [= <-]].
Qed.

Lemma assign_fault {A} (a : list A) i g f :
  assign a i g = Panic f → f = IndexRange.
Proof.
  unfold assign. destruct (index a i) eqn:Hi; [done|].
  intros [= <-]. by eapply index_fault.
Qed.

Lemma assign_index {A} (a a' : list A) i g e :
  assign a i g = Done a' → index a' i = Done e → ∃ x, e = g x.
Proof.
  unfold assign, index. destruct (i <? 0); [done|].
  destruct (a !! Z.to_nat i) as [x|] eqn:Hx; [|done].
  intros [= <-]. rewrite list_lookup_insert_eq by (by eapply lookup_lt_Some).
  intros [= <-]. by exists x.
Qed.

Lemma not_upcoming_fault w site uo limit idx ev ctxs p pc tr f :
  not_upcoming w site uo limit idx ev ctxs p pc tr = Panic f → f = IndexRange.
Proof.
  unfold not_upcoming, bind, lift, ret, call_GetChildren.
  destruct uo; [done|].
  destruct (GetChildren w site (Path ev)) as [images [e|]]; [done|].
  destruct images as [|im ?]; [done|].
  destruct (assign ctxs idx _) eqn:Hassign; [done|].
  intros [= <-]. by eapply assign_fault.
Qed.

Lemma scan_body_fault w site uo limit idx ev s tr f :
  has_start ev →
  scan_body w site uo limit idx ev s tr = Panic f → f = IndexRange.
Proof.
  intros Hev. unfold scan_body, bind, lift, ret.
  destruct (assign (eventCtxs s) idx _) as [ctxs|] eqn:Hassign;
    [|intros [= <-]; by eapply assign_fault].
  destruct (idx =? pastIdx s).
  - destruct (index ctxs idx) as [e|] eqn:Hidx;
      [|intros [= <-]; by eapply index_fault].
    destruct (assign_index _ _ _ _ _ Hassign Hidx) as [x ->].
    unfold Upcoming, bind, lift, time_Now, ret. cbn [Node_].
    rewrite (has_start_StartTime _ Hev).
    destruct (clock w (ticks tr) <? start ev); [done|].
    apply not_upcoming_fault.
  - apply not_upcoming_fault.
Qed.

Lemma scan_fault w site uo limit todo idx s tr f :
  Forall has_start todo →
  scan w site uo limit todo idx s tr = Panic f → f = IndexRange.
Proof.
  intros Hall. revert idx s tr.
  induction Hall as [|ev rest Hev Hrest IH]; intros idx s tr; [done|].
  rewrite scan_cons.
  destruct (scan_body w site uo limit idx ev s tr) as [[[s'|s'|e] tr1]|]
    eqn:Hbody; [apply IH|done|done|].
  intros [= <-]. by eapply scan_body_fault.
Qed.

Lemma reverse_loop_fault fuel i j a f :
  reverse_loop fuel i j a = Panic f → f = IndexRange.
Proof.
  revert i j a. induction fuel as [|fuel IH]; intros i j a; cbn [reverse_loop].
  { by destruct (i <? j). }
  destruct (i <? j); [|done].
  destruct (index a i) eqn:Hi; [|intros [= <-]; by eapply index_fault].
  destruct (index a j) eqn:Hj; [|intros [= <-]; by eapply index_fault].
  apply IH.
Qed.

Lemma slice_fault {A} (a : list A) lo hi f :
  slice a lo hi = Panic f → f = SliceBounds.
Proof. unfold slice. destruct (_ && _); [done|by intros [= <-]]. Qed.

Lemma windows_fault po uo limit s f :
  windows po uo limit s = Panic f → f = IndexRange ∨ f = SliceBounds.
Proof.
  unfold windows.
  destruct (reverse_loop _ _ _ _) as [ctxs|] eqn:Hrev;
    [|intros [= <-]; left; by eapply reverse_loop_fault].
  destruct (slice ctxs 0 _) eqn:Hup;
    [|intros [= <-]; right; by eapply slice_fault].
  destruct (slice ctxs (pastIdx s) _) eqn:Hpast;
    [done|intros [= <-]; right; by eapply slice_fault].
Qed.

(** With DateTime start times throughout, no run of getEvents ends in
    a failed type assertion, whatever the limit. *)
Lemma getEvents_fault `{SortPackage} w req po uo limit tr events f :
  GetChildren w (Site req) "/aktionen" = (events, None) →
  Forall has_start events →
  getEvents w req po uo limit tr = Panic f →
  f = IndexRange ∨ f = SliceBounds.
Proof.
  intros Hget Hall.
  destruct (sort_events_full events Hall)
    as (sorted & Hsort & Hperm & Hsorted & Hall' & Hlen).
  unfold getEvents, bind, call_GetChildren. rewrite Hget.
  unfold lift at 1. rewrite Hsort.
  destruct (scan w (Site req) uo limit sorted 0 _ _) as [[[s|msg] tr1]|]
    eqn:Hscan.
  - unfold lift, ret.
    destruct (windows po uo limit s) as [[??]|] eqn:Hwin; [done|].
    intros [= <-]. by eapply windows_fault.
  - done.
  - intros [= <-]. left. by eapply scan_fault.
Qed.

(** With a limit the list view can pass, getEvents returns. *)
Lemma getEvents_returns `{SortPackage} w req po uo limit tr events :
  GetChildren w (Site req) "/aktionen" = (events, None) →
  Forall has_start events →
  limit_ok limit (length events) →
  ∃ res tr', getEvents w req po uo limit tr = Done (res, tr').
Proof.
  intros Hget Hall Hlimit.
  destruct (sort_events_full events Hall)
    as (sorted & Hsort & Hperm & Hsorted & Hall' & Hlen).
  rewrite <-Hlen in Hlimit.
  destruct uo.
  { rewrite (getEvents_upcomingOnly _ _ _ _ _ events sorted) by done.
    by eexists _, _. }
  set (k := upcoming_prefix w (ticks tr) sorted).
  destruct (first_failure w req
              (take (lookups limit 0 (length sorted - k)) (drop k sorted)))
    as [Hok|(i & ev & e & Hi & He & Hok)].
  - rewrite (getEvents_ok _ _ _ _ _ events sorted) by done. by eexists _, _.
  - apply lookup_take_Some in Hi as [Hi Hlt].
    rewrite take_take in Hok.
    replace (min i (lookups limit 0 (length sorted - k))) with i in Hok by lia.
    rewrite (getEvents_fail _ _ _ _ _ events sorted i ev e) by done.
    by eexists _, _.
Qed.


(** C10.  The comparator of the sort and the Upcoming classification
    read the start time of a record through a type assertion on its
    "events.StartTime" field.  On a record that has no such field, or
    has one that is not a DateTime, either operation ends in the panic
    of a failed type assertion, not in an error value; so does
    getEvents on such a record.  On records that have a DateTime start
    time both operations return their comparison, no run of getEvents
    ends in a failed type assertion, and with a limit the list view can
    pass getEvents returns. *)
Theorem C10_start_time_presupposed :
  (∀ n, has_start n
        ↔ ∃ t, Fields n !! "events.StartTime"%string
               = Some (DateTimeField t)) ∧
  (∀ n m, ¬ has_start n →
          order n m = Panic TypeAssertion ∧ order m n = Panic TypeAssertion) ∧
  (∀ w n img tr, ¬ has_start n →
                 Upcoming w (mkEventCtx (Some n) img) tr = Panic TypeAssertion) ∧
  (∀ w n m img tr,
     has_start n → has_start m →
     order n m = Done (start n <? start m) ∧
     Upcoming w (mkEventCtx (Some n) img) tr
     = Done (clock w (ticks tr) <? start n,
             mkTrace (S (ticks tr)) (fetched tr))) ∧
  (∀ (SP : SortPackage) w req po uo limit tr events,
     GetChildren w (Site req) "/aktionen" = (events, None) →
     Forall has_start events →
     getEvents w req po uo limit tr ≠ Panic TypeAssertion) ∧
  (∀ (SP : SortPackage) w req po uo limit tr events,
     GetChildren w (Site req) "/aktionen" = (events, None) →
     Forall has_start events →
     limit_ok limit (length events) →
     ∃ res tr', getEvents w req po uo limit tr = Done (res, tr')) ∧
  @getEvents insertion_sort_package (Untyped.world [Untyped.missing])
    Scenario.req false false (-1) Scenario.tr0 = Panic TypeAssertion ∧
  @getEvents insertion_sort_package
    (Untyped.world [Scenario.e3; Untyped.mistyped])
    Scenario.req false false (-1) Scenario.tr0 = Panic TypeAssertion.
Proof.
  split_and!.
  - apply has_start_field.
  - intros n m Hn. unfold order. rewrite (no_start_fault n Hn).
    split; [done|].
    destruct (StartTime m) as [t|f] eqn:Hm; [done|].
    unfold StartTime in Hm.
    destruct (Fields m !! "events.StartTime"%string) as [[?|?]|];
      [done|by injection Hm as <-..].
  - intros w n img tr Hn. unfold Upcoming, bind, lift. cbn [Node_].
    by rewrite (no_start_fault n Hn).
  - intros w n m img tr Hn Hm. split; [by apply order_has_start|].
    unfold Upcoming, bind, lift, time_Now, ret. cbn [Node_].
    by rewrite (has_start_StartTime n Hn).
  - intros SP w req po uo limit tr events Hget Hall Hrun.
    by destruct (getEvents_fault w req po uo limit tr events _ Hget Hall Hrun).
  - intros SP w req po uo limit tr events. apply getEvents_returns.
  - vm_compute. reflexivity.
  - vm_compute. reflexivity.
Qed.

Lemma C10_start_time_presupposed_witness :
  @getEvents insertion_sort_package Scenario.world Scenario.req
    false false (-1) Scenario.tr0 ≠ Panic TypeAssertion ∧
  (order Scenario.e1 Scenario.e2 = Done (start Scenario.e1 <? start Scenario.e2) ∧
   Upcoming Scenario.world (mkEventCtx (Some Scenario.e1) None) Scenario.tr0
   = Done (clock Scenario.world (ticks Scenario.tr0) <? start Scenario.e1,
           mkTrace (S (ticks Scenario.tr0)) (fetched Scenario.tr0))).
Proof.
  split.
  - apply (proj1 (proj2 (proj2 (proj2 (proj2 C10_start_time_presupposed))))
             insertion_sort_package Scenario.world Scenario.req
             false false (-1) Scenario.tr0 Scenario.events).
    + reflexivity.
    + apply ScenarioRuns.events_have_start.
  - apply (proj1 (proj2 (proj2 (proj2 C10_start_time_presupposed)))
             Scenario.world Scenario.e1 Scenario.e2 None Scenario.tr0).
    + by eexists.
    + by eexists.
Defined.

(** ** Further properties of getEvents *)

(** A return without error of a run that looks thumbnails up means
    that every lookup the limit lets through has succeeded. *)
Lemma getEvents_success_lookups `{SortPackage} w req po limit tr events sorted
  up past tr' :
  GetChildren w (Site req) "/aktionen" = (events, None) →
  sort_Sort (Reverse order) events = Done sorted →
  Forall has_start sorted →
  limit_ok limit (length sorted) →
  getEvents w req po false limit tr = Done ((up, past, None), tr') →
  let k := upcoming_prefix w (ticks tr) sorted in
  Forall (lookup_ok w (Site req))
    (take (lookups limit 0 (length sorted - k)) (drop k sorted)).
Proof.
  intros Hget Hsort Hall Hlimit Hrun k.
  destruct (first_failure w req
              (take (lookups limit 0 (length sorted - k)) (drop k sorted)))
    as [Hok|(i & ev & e & Hi & He & Hok)]; [done|].
  apply lookup_take_Some in Hi as [Hi Hlt].
  rewrite take_take in Hok.
  replace (min i (lookups limit 0 (length sorted - k))) with i in Hok by lia.
  by rewrite (getEvents_fail w req po limit tr events sorted i ev e) in Hrun.
Qed.

(** X1.  Thumbnails belong to the past window only.  In every return
    without error, for records with DateTime start times, each entry of
    Past carries its record and, as its image, the first child that the
    storage service lists under the record's path -- no image when it
    lists none, which is no error -- and no entry of Upcoming carries
    an image. *)
Theorem X1_thumbnails_on_past_entries (SP : SortPackage) w req po uo limit tr
  events up past tr' :
  GetChildren w (Site req) "/aktionen" = (events, None) →
  Forall has_start events →
  limit_ok limit (length events) →
  getEvents w req po uo limit tr = Done ((up, past, None), tr') →
  Forall (λ e, ∃ n, Node_ e = Some n ∧ Image e = None) up ∧
  Forall (λ e, ∃ n, Node_ e = Some n ∧
                    Image e = head (GetChildren w (Site req) (Path n)).1) past.
Proof.
  intros Hget Hall Hlimit Hrun.
  destruct (sort_events_full events Hall)
    as (sorted & Hsort & Hperm & Hsorted & Hall' & Hlen).
  eapply getEvents_cases in Hrun; [|done..|by rewrite Hlen].
  destruct Hrun as [_ [(_ & -> & ->)|(_ & _ & _ & ? & ? & _ & _ & ?)]];
    [|done].
  unfold upcoming_window, past_window. split.
  - destruct po; [constructor|].
    apply Forall_reverse, Forall_fmap, Forall_forall.
    intros n _. by exists n.
  - destruct uo; [constructor|].
    apply Forall_fmap, Forall_forall. intros n _. by exists n.
Qed.

Lemma X1_thumbnails_on_past_entries_witness :
  Forall (λ e, ∃ n, Node_ e = Some n ∧ Image e = None)
    [view Scenario.e3; view Scenario.e4] ∧
  Forall (λ e, ∃ n, Node_ e = Some n ∧
                    Image e = head (GetChildren Scenario.world
                                      (Site Scenario.req) (Path n)).1)
    [mkEventCtx (Some Scenario.e2) (Some Scenario.thumb); view Scenario.e1].
Proof.
  apply (X1_thumbnails_on_past_entries insertion_sort_package
           Scenario.world Scenario.req false false (-1) Scenario.tr0
           Scenario.events _ _
           (mkTrace 3 ["/aktionen"; "/aktionen/b"; "/aktionen/a"]%string)).
  - reflexivity.
  - apply ScenarioRuns.events_have_start.
  - left. reflexivity.
  - apply ScenarioRuns.unbounded.
Defined.

Lemma windows_pastOnly uo limit s up past :
  windows false uo limit s = Done (up, past) →
  windows true uo limit s = Done ([], past).
Proof.
  unfold windows.
  destruct (reverse_loop _ _ _ _) as [ctxs|]; [|done].
  destruct (slice ctxs 0 (pastIdx s)) as [up'|]; [|done].
  assert (slice ctxs 0 0 = Done []) as ->.
  { unfold slice. cbn.
    by destruct (Z.leb_spec 0 (Z.of_nat (length ctxs))); [|lia]. }
  destruct (slice ctxs (pastIdx s) _) as [past'|]; [|done].
  by intros [= <- <-].
Qed.

(** X2.  pastOnly changes nothing but the upcoming window.  Whatever
    the input, when getEvents returns without the flag it returns with
    the flag too, with the same past window, the same error and the same
    trace -- the same clock readings and the same enumerations -- and
    an empty upcoming window. *)
Theorem X2_pastOnly_only_empties_upcoming (SP : SortPackage) w req uo limit tr
  up past err tr' :
  getEvents w req false uo limit tr = Done ((up, past, err), tr') →
  getEvents w req true uo limit tr = Done (([], past, err), tr').
Proof.
  unfold getEvents, bind, call_GetChildren.
  destruct (GetChildren w (Site req) "/aktionen") as [events [e|]].
  { by intros [= <- <- <- <-]. }
  destruct (lift (sort_Sort (Reverse order) events) _) as [[sorted tr1]|];
    [|done].
  destruct (scan w (Site req) uo limit sorted 0 _ tr1) as [[[s|msg] tr2]|];
    [|by intros [= <- <- <- <-]|done].
  unfold lift, ret.
  destruct (windows false uo limit s) as [[up' past']|] eqn:Hwin; [|done].
  rewrite (windows_pastOnly _ _ _ _ _ Hwin).
  by intros [= <- <- <- <-].
Qed.

Lemma X2_pastOnly_only_empties_upcoming_witness :
  @getEvents insertion_sort_package Scenario.world Scenario.req
    true false 1 Scenario.tr0
  = Done (([], [mkEventCtx (Some Scenario.e2) (Some Scenario.thumb)], None),
          mkTrace 3 ["/aktionen"; "/aktionen/b"; "/aktionen/a"]%string).
Proof.
  apply (X2_pastOnly_only_empties_upcoming insertion_sort_package
           Scenario.world Scenario.req false 1 Scenario.tr0
           [view Scenario.e3; view Scenario.e4]).
  apply ScenarioRuns.limit_one.
Defined.

(** X3.  A limit only cuts the past window short.  When the query
    without limit returns two windows, the query with a limit L >= 0
    (pastIdx+L within int) returns too, never with an error: the same
    upcoming window, the first L entries of the same past window, and
    enumerations that are a prefix of those of the query without
    limit. *)
Theorem X3_limit_takes_a_prefix (SP : SortPackage) w req po uo limit tr events
  up past tr' :
  GetChildren w (Site req) "/aktionen" = (events, None) →
  Forall has_start events →
  0 ≤ limit →
  Z.of_nat (length events) + limit < 2 ^ 63 →
  getEvents w req po uo (-1) tr = Done ((up, past, None), tr') →
  ∃ tr'',
    getEvents w req po uo limit tr
    = Done ((up, take (Z.to_nat limit) past, None), tr'') ∧
    fetched tr'' `prefix_of` fetched tr' ∧
    ticks tr'' = ticks tr'.
Proof.
  intros Hget Hall Hl Hsum Hrun.
  destruct (sort_events_full events Hall)
    as (sorted & Hsort & Hperm & Hsorted & Hall' & Hlen).
  rewrite <-Hlen in Hsum.
  destruct uo.
  { rewrite (getEvents_upcomingOnly w req po (-1) tr events sorted Hget Hsort
               Hall' (or_introl eq_refl)) in Hrun.
    injection Hrun as <- <- <-.
    rewrite (getEvents_upcomingOnly w req po limit tr events sorted Hget Hsort
               Hall' (or_intror (conj Hl Hsum))).
    eexists. by rewrite take_nil. }
  set (k := upcoming_prefix w (ticks tr) sorted).
  pose proof (getEvents_success_lookups w req po (-1) tr events sorted
                up past tr' Hget Hsort Hall' (or_introl eq_refl) Hrun) as Hok.
  fold k in Hok. unfold lookups in Hok. cbn in Hok.
  rewrite take_ge in Hok by (rewrite length_drop; lia).
  rewrite (getEvents_ok w req po (-1) tr events sorted Hget Hsort Hall'
             (or_introl eq_refl)) in Hrun
    by (fold k; by apply Forall_take).
  injection Hrun as <- <- <-. cbn [Z.eqb].
  rewrite (getEvents_ok w req po limit tr events sorted Hget Hsort Hall'
             (or_intror (conj Hl Hsum)))
    by (fold k; by apply Forall_take).
  fold k. destruct (Z.eqb_spec limit (-1)); [lia|].
  eexists. split_and!; [by rewrite <-fmap_take| |done].
  cbn [fetched]. apply prefix_app, prefix_cons.
  unfold lookups. cbn [Z.eqb Pos.eqb].
  rewrite (take_ge (drop k sorted) (length sorted - k))
    by (rewrite length_drop; lia).
  rewrite fmap_take. apply prefix_take.
Qed.

Lemma X3_limit_takes_a_prefix_witness :
  ∃ tr'',
    @getEvents insertion_sort_package Scenario.world Scenario.req
      false false 1 Scenario.tr0
    = Done (([view Scenario.e3; view Scenario.e4],
             take (Z.to_nat 1)
               [mkEventCtx (Some Scenario.e2) (Some Scenario.thumb);
                view Scenario.e1], None), tr'') ∧
    fetched tr''
    `prefix_of` fetched (mkTrace 3 ["/aktionen"; "/aktionen/b";
                                    "/aktionen/a"]%string) ∧
    ticks tr''
    = ticks (mkTrace 3 ["/aktionen"; "/aktionen/b"; "/aktionen/a"]%string).
Proof.
  apply (X3_limit_takes_a_prefix insertion_sort_package
           Scenario.world Scenario.req false false 1 Scenario.tr0
           Scenario.events).
  - reflexivity.
  - apply ScenarioRuns.events_have_start.
  - lia.
  - vm_compute. reflexivity.
  - apply ScenarioRuns.unbounded.
Defined.

(** X4.  The enumerations of a return without error.  For records with
    DateTime start times, getEvents has the storage service enumerate
    the candidate list first, then the records of the past window in the
    order of that window, then at most one further path: none when the
    limit is -1 or upcomingOnly is set.  Every one of these enumerations
    has succeeded. *)
Theorem X4_enumerations_follow_the_past_window (SP : SortPackage) w req po uo
  limit tr events up past tr' :
  GetChildren w (Site req) "/aktionen" = (events, None) →
  Forall has_start events →
  limit_ok limit (length events) →
  getEvents w req po uo limit tr = Done ((up, past, None), tr') →
  ∃ further,
    fetched tr'
    = fetched tr ++ "/aktionen"%string :: (Path <$> nodes_of past) ++ further ∧
    (length further ≤ 1)%nat ∧
    (limit = -1 ∨ uo = true → further = []) ∧
    Forall (enumerated w (Site req)) (Path <$> nodes_of past) ∧
    Forall (enumerated w (Site req)) further.
Proof.
  intros Hget Hall Hlimit Hrun.
  destruct (sort_events_full events Hall)
    as (sorted & Hsort & Hperm & Hsorted & Hall' & Hlen).
  rewrite <-Hlen in Hlimit.
  destruct uo.
  { rewrite (getEvents_upcomingOnly w req po limit tr events sorted)
      in Hrun by done.
    injection Hrun as <- <- <-. exists [].
    split_and!; [done|simpl; lia|done|constructor|constructor]. }
  set (k := upcoming_prefix w (ticks tr) sorted).
  pose proof (getEvents_success_lookups w req po limit tr events sorted
                up past tr' Hget Hsort Hall' Hlimit Hrun) as Hok.
  fold k in Hok.
  rewrite (getEvents_ok w req po limit tr events sorted Hget Hsort Hall'
             Hlimit) in Hrun by done.
  injection Hrun as <- <- <-. fold k. fold k in Hok.
  rewrite nodes_of_view_with_image. cbn [fetched].
  assert (∀ l, Forall (lookup_ok w (Site req)) l →
               Forall (enumerated w (Site req)) (Path <$> l)) as Henum.
  { intros l Hl. apply Forall_fmap. by eapply Forall_impl. }
  unfold lookups in *.
  destruct (Z.eqb_spec limit (-1)) as [->|Hne].
  - exists []. rewrite app_nil_r.
    rewrite take_ge in Hok by (rewrite length_drop; lia).
    rewrite take_ge by (rewrite length_drop; lia).
    split_and!; [done|simpl; lia|done|by apply Henum|constructor].
  - destruct Hlimit as [?|[Hl Hsum]]; [done|].
    replace (min (length sorted - k) (Z.to_nat (limit + 1 - 0)))
      with (min (length sorted - k) (Z.to_nat limit + 1)) in * by lia.
    assert (take (min (length sorted - k) (Z.to_nat limit + 1)) (drop k sorted)
            = take (Z.to_nat limit) (drop k sorted)
                ++ take 1 (drop (Z.to_nat limit) (drop k sorted))) as Hsplit.
    { rewrite take_take_drop.
      destruct (Nat.le_gt_cases (length sorted - k) (Z.to_nat limit + 1)).
      - rewrite Nat.min_l by done.
        by rewrite !take_ge by (rewrite length_drop; lia).
      - by rewrite Nat.min_r by lia. }
    rewrite Hsplit in Hok |- *. apply Forall_app in Hok as [Hok1 Hok2].
    exists (Path <$> take 1 (drop (Z.to_nat limit) (drop k sorted))).
    split_and!.
    + by rewrite fmap_app.
    + rewrite length_fmap, length_take. lia.
    + by intros [?|?].
    + by apply Henum.
    + by apply Henum.
Qed.

Lemma X4_enumerations_follow_the_past_window_witness :
  ∃ further,
    fetched (mkTrace 3 ["/aktionen"; "/aktionen/b"; "/aktionen/a"]%string)
    = fetched Scenario.tr0 ++
        "/aktionen"%string ::
          (Path <$> nodes_of [mkEventCtx (Some Scenario.e2)
                                (Some Scenario.thumb)]) ++ further ∧
    (length further ≤ 1)%nat ∧
    (1 = -1 ∨ false = true → further = []) ∧
    Forall (enumerated Scenario.world (Site Scenario.req))
      (Path <$> nodes_of [mkEventCtx (Some Scenario.e2)
                            (Some Scenario.thumb)]) ∧
    Forall (enumerated Scenario.world (Site Scenario.req)) further.
Proof.
  apply (X4_enumerations_follow_the_past_window insertion_sort_package
           Scenario.world Scenario.req false false 1 Scenario.tr0
           Scenario.events [view Scenario.e3; view Scenario.e4]).
  - reflexivity.
  - apply ScenarioRuns.events_have_start.
  - right. split; [lia|vm_compute; reflexivity].
  - apply ScenarioRuns.limit_one.
Defined.

(** X5.  The readings of the clock.  For records with DateTime start
    times, a run of getEvents that returns both windows has read the
    clock once for each record of the upcoming window and once more for
    the first record found not upcoming, if there is one: never more
    often than there are records, and not at all during the thumbnail
    lookups. *)
Theorem X5_clock_read_once_per_upcoming_record (SP : SortPackage) w req uo
  limit tr events up past tr' :
  GetChildren w (Site req) "/aktionen" = (events, None) →
  Forall has_start events →
  limit_ok limit (length events) →
  getEvents w req false uo limit tr = Done ((up, past, None), tr') →
  ticks tr' = (ticks tr + min (S (length up)) (length events))%nat.
Proof.
  intros Hget Hall Hlimit Hrun.
  destruct (sort_events_full events Hall)
    as (sorted & Hsort & Hperm & Hsorted & Hall' & Hlen).
  eapply getEvents_cases in Hrun; [|done..|by rewrite Hlen].
  destruct Hrun as [Hticks [(_ & -> & _)|(_ & _ & _ & ? & ? & _ & _ & ?)]];
    [|done].
  rewrite Hticks, <-Hlen. unfold upcoming_window.
  rewrite length_reverse, length_fmap, length_take_le; [done|].
  apply upcoming_prefix_le.
Qed.

Lemma X5_clock_read_once_per_upcoming_record_witness :
  ticks (mkTrace 3 ["/aktionen"; "/aktionen/b"; "/aktionen/a"]%string)
  = (ticks Scenario.tr0
     + min (S (length [view Scenario.e3; view Scenario.e4]))
         (length Scenario.events))%nat.
Proof.
  apply (X5_clock_read_once_per_upcoming_record insertion_sort_package
           Scenario.world Scenario.req false (-1) Scenario.tr0
           Scenario.events _
           [mkEventCtx (Some Scenario.e2) (Some Scenario.thumb);
            view Scenario.e1]).
  - reflexivity.
  - apply ScenarioRuns.events_have_start.
  - by left.
  - apply ScenarioRuns.unbounded.
Defined.

(** *** Limits below -1 *)

Lemma limit_check_low limit s :
  limit < -1 → 0 ≤ pastCount s → limit_check limit s = Break s.
Proof.
  intros Hl Hpc. unfold limit_check.
  destruct (Z.eqb_spec limit (-1)); [lia|].
  rewrite Z.gtb_ltb. by destruct (Z.ltb_spec limit (pastCount s)); [|lia].
Qed.

Lemma assign_length {A} (a a' : list A) i g :
  assign a i g = Done a' → length a' = length a.
Proof.
  unfold assign. destruct (index a i); [|done].
  intros [= <-]. apply length_insert.
Qed.

(** With a limit below -1 the check at the end of the first round of
    the scan already breaks. *)
Lemma scan_body_low_limit w site limit ev ctxs tr fl tr' :
  limit < -1 →
  scan_body w site false limit 0 ev (mkLoop ctxs 0 0) tr = Done (fl, tr') →
  match fl with
  | Next _ => False
  | Break s => 0 ≤ pastIdx s ≤ 1 ∧ length (eventCtxs s) = length ctxs
  | Return _ => True
  end.
Proof.
  intros Hl. unfold scan_body, bind, lift. cbn [eventCtxs pastIdx pastCount].
  destruct (assign ctxs 0 _) as [ctxs1|] eqn:Ha; [|done].
  apply assign_length in Ha. cbn [Z.eqb].
  destruct (index ctxs1 0) as [e|]; [|done].
  destruct (Upcoming w e tr) as [[[] tr1]|]; [| |done].
  - unfold ret. rewrite limit_check_low by (cbn; lia).
    intros [= <- <-]. cbn. split; [lia|done].
  - unfold not_upcoming, bind, call_GetChildren.
    destruct (GetChildren w site (Path ev)) as [images [msg|]].
    { by intros [= <- <-]. }
    unfold lift.
    destruct (match images with
              | [] => Done ctxs1
              | im :: _ => assign ctxs1 0 (λ e0, mkEventCtx (Node_ e0) (Some im))
              end) as [ctxs2|] eqn:Hi; [|done].
    assert (length ctxs2 = length ctxs1) as Hlen.
    { destruct images; [by injection Hi as <-|by eapply assign_length]. }
    unfold ret. rewrite limit_check_low by (cbn; lia).
    intros [= <- <-]. cbn. split; [lia|congruence].
Qed.

Lemma scan_low_limit w site limit todo ctxs tr s tr' :
  limit < -1 →
  scan w site false limit todo 0 (mkLoop ctxs 0 0) tr = Done (inl s, tr') →
  0 ≤ pastIdx s ≤ 1.
Proof.
  intros Hl. destruct todo as [|ev rest].
  { intros [= <- <-]. cbn. lia. }
  cbn [scan]. unfold bind.
  destruct (scan_body w site false limit 0 ev (mkLoop ctxs 0 0) tr)
    as [[fl tr1]|] eqn:Hbody; [|done].
  apply scan_body_low_limit in Hbody; [|done].
  destruct fl as [s'|s'|e]; [done| |done].
  intros [= <- <-]. by destruct Hbody.
Qed.

(** After such a scan the past window would end before it begins. *)
Lemma windows_low_limit po limit s :
  - 2 ^ 63 ≤ limit → limit < -1 → 0 ≤ pastIdx s ≤ 1 →
  ∃ f, windows po false limit s = Panic f.
Proof.
  intros Hmin Hl Hp. unfold windows.
  assert (reverse_loop (length (eventCtxs s)) 0 (pastIdx s - 1) (eventCtxs s)
          = Done (eventCtxs s)) as ->.
  { destruct (length (eventCtxs s)); cbn [reverse_loop];
      by destruct (Z.ltb_spec 0 (pastIdx s - 1)); [lia|]. }
  unfold int_add. rewrite int_wrap_range by (unfold int_range; lia).
  destruct (Z.eqb_spec limit (-1)); [lia|]. cbn [negb andb].
  rewrite Z.gtb_ltb.
  destruct (Z.ltb_spec (pastIdx s + limit) (Z.of_nat (length (eventCtxs s))));
    [|lia].
  destruct (slice (eventCtxs s) 0 _) as [up|f]; [|by exists f].
  exists SliceBounds. unfold slice.
  destruct (Z.leb_spec (pastIdx s) (pastIdx s + limit)); [lia|].
  by rewrite andb_false_r.
Qed.

Lemma getEvents_low_limit `{SortPackage} w req po limit tr res tr' :
  - 2 ^ 63 ≤ limit → limit < -1 →
  getEvents w req po false limit tr = Done (res, tr') →
  ∃ e, res = ([], [], Some e).
Proof.
  intros Hmin Hl. unfold getEvents, bind, call_GetChildren.
  destruct (GetChildren w (Site req) "/aktionen") as [events [e|]].
  { intros [= <- <-]. by eexists. }
  unfold lift at 1.
  destruct (sort_Sort (Reverse order) events) as [sorted|f]; [|done].
  destruct (scan w (Site req) false limit sorted 0 _ _) as [[[s|msg] tr1]|f]
    eqn:Hscan; [| |done].
  - apply scan_low_limit in Hscan; [|done].
    destruct (windows_low_limit po limit s Hmin Hl Hscan) as [f Hf].
    unfold lift. by rewrite Hf.
  - intros [= <- <-]. by eexists.
Qed.

(** X6.  A limit below -1 never yields windows.  Whatever the records
    and the clock, a call of getEvents with such a limit and without
    upcomingOnly either returns an error or panics: the check after the
    first round of the scan ends the loop, and the past window would end
    before it begins, so the slice expression is out of bounds -- also
    when there is no candidate at all. *)
Theorem X6_limit_below_minus_one_yields_no_window (SP : SortPackage) w req po
  limit tr :
  - 2 ^ 63 ≤ limit → limit < -1 →
  (∃ f, getEvents w req po false limit tr = Panic f) ∨
  (∃ e tr', getEvents w req po false limit tr = Done (([], [], Some e), tr')).
Proof.
  intros Hmin Hl.
  destruct (getEvents w req po false limit tr) as [[res tr']|f] eqn:Hrun.
  - right. destruct (getEvents_low_limit w req po limit tr res tr' Hmin Hl Hrun)
      as [e ->].
    by exists e, tr'.
  - left. by exists f.
Qed.

Lemma X6_limit_below_minus_one_yields_no_window_witness :
  (∃ f, @getEvents insertion_sort_package Scenario.world Scenario.req
          false false (-2) Scenario.tr0 = Panic f) ∨
  (∃ e tr', @getEvents insertion_sort_package Scenario.world Scenario.req
              false false (-2) Scenario.tr0 = Done (([], [], Some e), tr')).
Proof.
  apply (X6_limit_below_minus_one_yields_no_window insertion_sort_package
           Scenario.world Scenario.req false (-2) Scenario.tr0).
  - by vm_compute.
  - lia.
Defined.

(** ** Further properties of the context handlers *)

(** X7.  The list view returns all or nothing.  A return without error
    carries one fragment, under the key "EventList", and a cache
    descriptor.  A return with an error carries neither, and the error
    is one of four: the request could not be resolved or the embed URI
    could not be parsed -- both before any enumeration or clock
    reading --, an enumeration of getEvents failed, or the template
    could not be rendered. *)
Theorem X7_list_view_all_or_nothing (SP : SortPackage) w reqId embed tr
  frags mods err tr' :
  getEventsContext w reqId embed tr = Done ((frags, mods, err), tr') →
  match err with
  | None =>
      (∃ rendered, frags = Some {[ "EventList"%string := rendered ]}) ∧
      is_Some mods
  | Some msg =>
      frags = None ∧ mods = None ∧
      ((∃ e, msg = Errorf "Could not get request: " e ∧ tr' = tr) ∨
       (msg = "Could not parse embed URI"%string ∧ is_Some embed ∧ tr' = tr) ∨
       (∃ e, msg = Errorf "Could not retrieve events: "
                     (Errorf "Could not fetch children: " e)) ∨
       (∃ e, msg = Errorf "Could not render template: " e))
  end.
Proof.
  unfold getEventsContext.
  destruct (GetRequest w reqId) as [[req|] [e|]]; [| |  |done].
  1,3: intros [= <- <- <- <-]; split_and!; [done..|]; left; by exists e.
  destruct (match embed with
            | Some em => url_Parse w (URI em)
            | None => (Query req, None)
            end) as [query [e|]] eqn:Hquery.
  { intros [= <- <- <- <-]. split_and!; [done..|]. right. left.
    split_and!; [done| |done]. destruct embed; [by eexists|done]. }
  unfold bind.
  destruct (getEvents w req _ _ _ tr) as [[[[up past] [msg|]] tr1]|] eqn:Hev;
    [| |done].
  { intros [= <- <- <- <-]. split_and!; [done..|]. right. right. left.
    apply getEvents_calls in Hev as (ps & _ & _ & _ & ps' & p & e & _ & _ & _ & ->).
    by exists e. }
  destruct (Render w _ _ _ _) as [rendered [e|]].
  { intros [= <- <- <- <-]. split_and!; [done..|]. right. right. right.
    by exists e. }
  unfold lift, ret. destruct (first_start up) as [expire|]; [|done].
  intros [= <- <- <- <-]. split; [by exists rendered|by eexists].
Qed.

Lemma X7_list_view_all_or_nothing_witness :
  (∃ rendered,
     Some ({[ "EventList"%string := "<ul/>"%string ]} : gmap string string)
     = Some {[ "EventList"%string := rendered ]}) ∧
  is_Some (Some (mkCacheMods [mkCacheDep "/termine" 2]
                   (Scenario.T + 2 * Scenario.day))).
Proof.
  apply (X7_list_view_all_or_nothing insertion_sort_package Scenario.world
           0%nat None Scenario.tr0
           (Some {[ "EventList"%string := "<ul/>"%string ]})
           (Some (mkCacheMods [mkCacheDep "/termine" 2]
                    (Scenario.T + 2 * Scenario.day)))
           None
           (mkTrace 3 ["/aktionen"; "/aktionen/b"; "/aktionen/a"]%string)).
  vm_compute. reflexivity.
Defined.

(** X8.  The single-item view.  It does not look at the embed node, it
    never reads the clock, and it has the children of one path
    enumerated, the path of the requested node -- none when the request
    cannot be resolved.  A return without error carries one fragment,
    under the key "EventImages", rendered from those children, and a
    cache descriptor; a return with an error carries neither. *)
Theorem X8_item_view_outcomes w reqId embed tr frags mods err tr' :
  getEventContext w reqId embed tr = Done ((frags, mods, err), tr') →
  getEventContext w reqId None tr = Done ((frags, mods, err), tr') ∧
  ticks tr' = ticks tr ∧
  match err with
  | None =>
      ∃ req images rendered,
        GetRequest w reqId = (Some req, None) ∧
        fetched tr' = fetched tr ++ [NodePath req] ∧
        GetChildren w (Site req) (NodePath req) = (images, None) ∧
        Render w "events/event-images" (ImagesContext images) (Locale req)
          (GetSiteTemplatesPath w (Site req)) = (rendered, None) ∧
        frags = Some {[ "EventImages"%string := rendered ]} ∧
        is_Some mods
  | Some msg =>
      frags = None ∧ mods = None ∧
      ((∃ e, msg = Errorf "Could not get request: " e ∧ tr' = tr) ∨
       (∃ req e, GetRequest w reqId = (Some req, None) ∧
                 fetched tr' = fetched tr ++ [NodePath req] ∧
                 (msg = Errorf "Could not fetch images: " e ∨
                  msg = Errorf "Could not render template: " e)))
  end.
Proof.
  unfold getEventContext.
  destruct (GetRequest w reqId) as [[req|] [e|]]; [| |  |done].
  1,3: intros [= <- <- <- <-]; split_and!; [done..|]; left; by exists e.
  unfold bind, call_GetChildren.
  destruct (GetChildren w (Site req) (NodePath req)) as [images [e|]]
    eqn:Hget.
  { intros [= <- <- <- <-]. split_and!; [done..|]. right.
    exists req, e. split_and!; [done..|by left]. }
  destruct (Render w _ _ _ _) as [rendered [e|]] eqn:Hrender.
  { intros [= <- <- <- <-]. split_and!; [done..|]. right.
    exists req, e. split_and!; [done..|by right]. }
  intros [= <- <- <- <-]. split_and!; [done..|].
  exists req, images, rendered. split_and!; [done..|by eexists].
Qed.

Lemma X8_item_view_outcomes_witness :
  getEventContext Scenario.world 0 None Scenario.tr0
  = Done ((Some {[ "EventImages"%string := "<ul/>"%string ]},
           Some (mkCacheMods [mkCacheDep "/termine" 1] 0), None),
          mkTrace 0 ["/termine"%string]) ∧
  ticks (mkTrace 0 ["/termine"%string]) = ticks Scenario.tr0 ∧
  ∃ req images rendered,
    GetRequest Scenario.world 0 = (Some req, None) ∧
    fetched (mkTrace 0 ["/termine"%string])
    = fetched Scenario.tr0 ++ [NodePath req] ∧
    GetChildren Scenario.world (Site req) (NodePath req) = (images, None) ∧
    Render Scenario.world "events/event-images" (ImagesContext images)
      (Locale req) (GetSiteTemplatesPath Scenario.world (Site req))
    = (rendered, None) ∧
    Some ({[ "EventImages"%string := "<ul/>"%string ]} : gmap string string)
    = Some {[ "EventImages"%string := rendered ]} ∧
    is_Some (Some (mkCacheMods [mkCacheDep "/termine" 1] 0)).
Proof.
  apply (X8_item_view_outcomes Scenario.world 0%nat
           (Some (mkEmbedNode "/termine?limit=1")) Scenario.tr0
           (Some {[ "EventImages"%string := "<ul/>"%string ]})
           (Some (mkCacheMods [mkCacheDep "/termine" 1] 0)) None
           (mkTrace 0 ["/termine"%string])).
  vm_compute. reflexivity.
Defined.

(** X9.  An embedded list takes its flags and its limit from the embed
    URI alone: whatever query the request carries, the view of an
    embedded list is the same. *)
Theorem X9_embed_query_replaces_request_query (SP : SortPackage) w reqId em tr
  query :
  getEventsContext (with_query w query) reqId (Some em) tr
  = getEventsContext w reqId (Some em) tr.
Proof.
  unfold getEventsContext. cbn [GetRequest with_query url_Parse].
  destruct (GetRequest w reqId) as [[req|] [e|]]; [done| |done..].
  cbn [Site NodePath Locale Query].
  destruct (url_Parse w (URI em)) as [q [e|]]; [done|].
  unfold bind.
  rewrite (getEvents_with_query w query _ req) by done.
  destruct (getEvents w req _ _ _ tr) as [[[[up past] [msg|]] tr1]|]; done.
Qed.

(** *** The list view returns *)

Lemma strconv_Atoi_range s v :
  strconv_Atoi s = (v, None) → int_range v.
Proof.
  unfold strconv_Atoi, int_range.
  destruct (match s with
            | String "-"%char r => (true, r)
            | String "+"%char r => (false, r)
            | _ => (false, s)
            end) as [neg body].
  destruct body as [|c body']; [done|].
  destruct (digits_value 0 (String c body')) as [d|]; [|done].
  set (v' := if neg then - d else d).
  destruct (Z.leb_spec (- 2 ^ 63) v'); [|done].
  destruct (Z.ltb_spec v' (2 ^ 63)); [|done].
  cbn [andb]. by intros [= <-].
Qed.

(** The limit that the list view passes is -1 or positive, and within
    the range of int. *)
Lemma limit_param_range query :
  limit_param query = -1 ∨ 1 ≤ limit_param query < 2 ^ 63.
Proof.
  rewrite limit_param_clamp.
  destruct (strconv_Atoi (Values_Get query "limit")) as [v [e|]] eqn:Hv;
    [by left|].
  apply strconv_Atoi_range in Hv. unfold int_range in Hv. right. lia.
Qed.

Lemma getEventsContext_returns `{SortPackage} w reqId embed tr req events :
  GetRequest w reqId = (Some req, None) →
  GetChildren w (Site req) "/aktionen" = (events, None) →
  Forall has_start events →
  (∀ query,
     match embed with
     | Some em => url_Parse w (URI em)
     | None => (Query req, None)
     end = (query, None) →
     Z.of_nat (length events) + limit_param query < 2 ^ 63) →
  ∃ res tr', getEventsContext w reqId embed tr = Done (res, tr').
Proof.
  intros Hreq Hget Hall Hsum. unfold getEventsContext. rewrite Hreq.
  destruct (match embed with
            | Some em => url_Parse w (URI em)
            | None => (Query req, None)
            end) as [query [e|]]; [by eexists _, _|].
  specialize (Hsum query eq_refl).
  assert (limit_ok (limit_param query) (length events)) as Hlimit.
  { unfold limit_ok. destruct (limit_param_range query); [by left|right; lia]. }
  unfold bind.
  destruct (getEvents w req _ _ _ tr) as [[[[up past] err] tr1]|f] eqn:Hev.
  2:{ destruct (getEvents_returns w req (Values_has query "past")
                  (Values_has query "upcoming") (limit_param query) tr events
                  Hget Hall Hlimit) as (res & tr1 & Hres).
      congruence. }
  destruct err as [msg|]; [by eexists _, _|].
  destruct (Render w _ _ _ _) as [rendered [e|]]; [by eexists _, _|].
  destruct (sort_events_full events Hall)
    as (sorted & Hsort & Hperm & Hsorted & Hall' & Hlen).
  eapply getEvents_cases in Hev; [|done..|by rewrite Hlen].
  destruct Hev as [_ [(_ & -> & _)|(_ & _ & _ & ? & ? & _ & _ & ?)]]; [|done].
  unfold upcoming_window, lift, ret.
  destruct (Values_has query "past").
  { by eexists _, _. }
  rewrite <-fmap_reverse.
  destruct (first_start_views
              (reverse (take (upcoming_prefix w (ticks tr) sorted) sorted)))
    as [t ->]; [|by eexists _, _].
  by apply Forall_reverse, Forall_take.
Qed.

(** What a return of the list view carries. *)
Lemma getEventsContext_fragment `{SortPackage} w reqId embed tr frags mods err
  tr' :
  getEventsContext w reqId embed tr = Done ((frags, mods, err), tr') →
  match err with
  | None =>
      (∃ rendered, frags = Some {[ "EventList"%string := rendered ]}) ∧
      is_Some mods
  | Some _ => frags = None ∧ mods = None
  end.
Proof.
  unfold getEventsContext.
  destruct (GetRequest w reqId) as [[req|] [e|]]; [| | |done].
  1,3: by intros [= <- <- <- <-].
  destruct (match embed with
            | Some em => url_Parse w (URI em)
            | None => (Query req, None)
            end) as [query [e|]]; [by intros [= <- <- <- <-]|].
  unfold bind.
  destruct (getEvents w req _ _ _ tr) as [[[[up past] [msg|]] tr1]|];
    [by intros [= <- <- <- <-]| |done].
  destruct (Render w _ _ _ _) as [rendered [e|]];
    [by intros [= <- <- <- <-]|].
  unfold lift, ret. destruct (first_start up) as [expire|]; [|done].
  intros [= <- <- <- <-]. split; by eexists.
Qed.

(** X10.  The list view does not panic on well-typed records.  The
    limit that it passes to getEvents is -1 or lies in [1, 2^63),
    whatever the query.  When the request is resolved, the candidate
    list is enumerated, every candidate has a DateTime start time and
    the number of candidates plus the limit of the query stays within
    the range of int, the list view returns, and what it returns is
    either one fragment under the key "EventList" with a cache
    descriptor and no error, or an error with no fragment and no
    descriptor. *)
Theorem X10_list_view_returns (SP : SortPackage) w reqId embed tr req events :
  GetRequest w reqId = (Some req, None) →
  GetChildren w (Site req) "/aktionen" = (events, None) →
  Forall has_start events →
  (∀ query,
     match embed with
     | Some em => url_Parse w (URI em)
     | None => (Query req, None)
     end = (query, None) →
     Z.of_nat (length events) + limit_param query < 2 ^ 63) →
  (∀ query, limit_param query = -1 ∨ 1 ≤ limit_param query < 2 ^ 63) ∧
  ∃ frags mods err tr',
    getEventsContext w reqId embed tr = Done ((frags, mods, err), tr') ∧
    match err with
    | None =>
        (∃ rendered, frags = Some {[ "EventList"%string := rendered ]}) ∧
        is_Some mods
    | Some _ => frags = None ∧ mods = None
    end.
Proof.
  intros Hreq Hget Hall Hsum. split; [apply limit_param_range|].
  destruct (getEventsContext_returns w reqId embed tr req events
              Hreq Hget Hall Hsum) as ([[frags mods] err] & tr' & Hrun).
  exists frags, mods, err, tr'. split; [done|].
  by eapply getEventsContext_fragment.
Qed.

Lemma X10_list_view_returns_witness :
  (∀ query, limit_param query = -1 ∨ 1 ≤ limit_param query < 2 ^ 63) ∧
  ∃ frags mods err tr',
    @getEventsContext insertion_sort_package Scenario.world 0 None
      Scenario.tr0 = Done ((frags, mods, err), tr') ∧
    match err with
    | None =>
        (∃ rendered, frags = Some {[ "EventList"%string := rendered ]}) ∧
        is_Some mods
    | Some _ => frags = None ∧ mods = None
    end.
Proof.
  apply (X10_list_view_returns insertion_sort_package Scenario.world 0%nat
           None Scenario.tr0 Scenario.req Scenario.events).
  - reflexivity.
  - reflexivity.
  - apply ScenarioRuns.events_have_start.
  - intros query [= <-]. vm_compute. reflexivity.
Defined.

(** ** nodeSort as a sort.Interface *)

Lemma index_Done {A} (a : list A) i x :
  index a i = Done x ↔ 0 ≤ i ∧ a !! Z.to_nat i = Some x.
Proof.
  unfold index. destruct (Z.ltb_spec i 0).
  - split; [done|lia].
  - destruct (a !! Z.to_nat i) as [y|]; split.
    + by intros [= ->].
    + by intros [_ [= ->]].
    + done.
    + by intros [_ ?].
Qed.

Lemma index_in_range {A} (a : list A) i :
  0 ≤ i < Z.of_nat (length a) → ∃ x, index a i = Done x.
Proof.
  intros Hi. destruct (lookup_lt_is_Some_2 a (Z.to_nat i)) as [x Hx]; [lia|].
  exists x. apply index_Done. split; [lia|done].
Qed.

Lemma index_out_of_range {A} (a : list A) i :
  ¬ (0 ≤ i < Z.of_nat (length a)) → index a i = Panic IndexRange.
Proof.
  intros Hi. unfold index. destruct (Z.ltb_spec i 0); [done|].
  rewrite lookup_ge_None_2; [done|lia].
Qed.

Lemma insert_swap_head {A} (l : list A) (j : nat) a y :
  l !! j = Some y → y :: <[j:=a]> l ≡ₚ a :: l.
Proof.
  revert j. induction l as [|b l IH]; intros [|j] Hj; try done.
  - injection Hj as ->. apply Permutation_swap.
  - cbn. rewrite (Permutation_swap b y), (IH j Hj). apply Permutation_swap.
Qed.

Lemma insert_swap_Permutation {A} (l : list A) (i j : nat) x y :
  l !! i = Some x → l !! j = Some y → <[j:=x]> (<[i:=y]> l) ≡ₚ l.
Proof.
  revert i j. induction l as [|a l IH]; intros [|i] [|j] Hi Hj; try done.
  - by injection Hi as ->.
  - injection Hi as ->. cbn. by apply insert_swap_head.
  - injection Hj as ->. cbn. by apply insert_swap_head.
  - cbn. f_equiv. by apply IH.
Qed.

Lemma index_insert_swap {A} (l : list A) (i j k : Z) x y :
  index l i = Done x → index l j = Done y →
  index (<[Z.to_nat j:=x]> (<[Z.to_nat i:=y]> l)) k
  = index l (transpose i j k).
Proof.
  intros [Hi Hx]%index_Done [Hj Hy]%index_Done.
  pose proof (lookup_lt_Some _ _ _ Hx) as Hli.
  pose proof (lookup_lt_Some _ _ _ Hy) as Hlj.
  unfold transpose.
  destruct (Z.eqb_spec k i) as [->|Hki].
  - transitivity (Done y); [|symmetry; by apply index_Done].
    apply index_Done. split; [done|].
    destruct (decide (Z.to_nat j = Z.to_nat i)) as [Heq|Hne].
    + rewrite Heq, list_lookup_insert_eq by (by rewrite length_insert).
      congruence.
    + rewrite list_lookup_insert_ne by done.
      by rewrite list_lookup_insert_eq.
  - destruct (Z.eqb_spec k j) as [->|Hkj].
    + transitivity (Done x); [|symmetry; by apply index_Done].
      apply index_Done. split; [done|].
      by rewrite list_lookup_insert_eq by (by rewrite length_insert).
    + unfold index. destruct (Z.ltb_spec k 0); [done|].
      by rewrite !list_lookup_insert_ne by lia.
Qed.

(** X11.  nodeSort obeys the laws of a sort.Interface.  With both
    indices within the slice, Swap exchanges the two nodes and touches
    nothing else: the nodes are a permutation of those before, Len and
    the comparator are unchanged, a second Swap of the same indices
    restores the slice, and every Less afterwards is the Less before at
    the exchanged indices.  With an index outside the slice Swap panics,
    as Less does. *)
Theorem X11_nodeSort_Swap_exchanges_two_nodes :
  (∀ (s : nodeSort) i j,
     0 ≤ i < Len s → 0 ≤ j < Len s →
     ∃ s', Swap s i j = Done s' ∧
           Nodes s' ≡ₚ Nodes s ∧ Len s' = Len s ∧ Sorter s' = Sorter s ∧
           Swap s' i j = Done s ∧
           (∀ k, index (Nodes s') k = index (Nodes s) (transpose i j k)) ∧
           (∀ a b, Less s' a b = Less s (transpose i j a) (transpose i j b))) ∧
  (∀ (s : nodeSort) i j,
     ¬ (0 ≤ i < Len s ∧ 0 ≤ j < Len s) →
     Swap s i j = Panic IndexRange ∧ Less s i j = Panic IndexRange).
Proof.
  split.
  - intros [l sorter] i j Hi Hj. cbn in Hi, Hj. unfold nodeSort_Len in *.
    cbn [Nodes] in *.
    destruct (index_in_range l i Hi) as [x Hx].
    destruct (index_in_range l j Hj) as [y Hy].
    pose proof Hx as [_ Hx']%index_Done. pose proof Hy as [_ Hy']%index_Done.
    exists (mkNodeSort (<[Z.to_nat j:=x]> (<[Z.to_nat i:=y]> l)) sorter).
    assert (∀ k, index (<[Z.to_nat j:=x]> (<[Z.to_nat i:=y]> l)) k
                 = index l (transpose i j k)) as Hidx
      by (intros k; by apply index_insert_swap).
    split_and!.
    + cbn. unfold nodeSort_Swap. cbn [Nodes Sorter]. by rewrite Hy, Hx.
    + cbn [Nodes]. by apply insert_swap_Permutation.
    + cbn. unfold nodeSort_Len. cbn [Nodes]. by rewrite !length_insert.
    + done.
    + cbn. unfold nodeSort_Swap. cbn [Nodes Sorter].
      rewrite !Hidx.
      assert (transpose i j j = i) as ->.
      { unfold transpose. destruct (Z.eqb_spec j i); [done|].
        by rewrite Z.eqb_refl. }
      assert (transpose i j i = j) as ->
        by (unfold transpose; by rewrite Z.eqb_refl).
      rewrite Hx, Hy. f_equal. f_equal.
      apply list_eq. intros k.
      destruct (decide (k = Z.to_nat j)) as [->|Hkj].
      { by rewrite list_lookup_insert_eq
          by (rewrite !length_insert; by eapply lookup_lt_Some). }
      rewrite list_lookup_insert_ne by done.
      destruct (decide (k = Z.to_nat i)) as [->|Hki].
      { by rewrite list_lookup_insert_eq
          by (rewrite !length_insert; by eapply lookup_lt_Some). }
      by rewrite !list_lookup_insert_ne by done.
    + done.
    + intros a b. cbn. unfold nodeSort_Less. cbn [Nodes Sorter].
      by rewrite !Hidx.
  - intros [l sorter] i j Hout. cbn. unfold nodeSort_Swap, nodeSort_Less.
    cbn in Hout. unfold nodeSort_Len in Hout. cbn [Nodes Sorter] in *.
    destruct (decide (0 ≤ j < Z.of_nat (length l))) as [Hj|Hj].
    + assert (¬ 0 ≤ i < Z.of_nat (length l)) as Hi by tauto.
      rewrite (index_out_of_range l i Hi).
      by destruct (index_in_range l j Hj) as [y ->].
    + rewrite (index_out_of_range l j Hj).
      by destruct (index l i) as [x|f] eqn:Hx;
        [|apply index_fault in Hx as ->].
Qed.

Lemma X11_nodeSort_Swap_exchanges_two_nodes_witness :
  ∃ s', Swap Wiring.unsorted 0 2 = Done s' ∧
        Nodes s' ≡ₚ Nodes Wiring.unsorted ∧ Len s' = Len Wiring.unsorted ∧
        Sorter s' = Sorter Wiring.unsorted ∧
        Swap s' 0 2 = Done Wiring.unsorted ∧
        (∀ k, index (Nodes s') k
              = index (Nodes Wiring.unsorted) (transpose 0 2 k)) ∧
        (∀ a b, Less s' a b
                = Less Wiring.unsorted (transpose 0 2 a) (transpose 0 2 b)).
Proof.
  apply (proj1 X11_nodeSort_Swap_exchanges_two_nodes Wiring.unsorted 0 2).
  - cbn. unfold nodeSort_Len. cbn. lia.
  - cbn. unfold nodeSort_Len. cbn. lia.
Defined.

(** *** The insertion sort of the sort package, run through nodeSort *)

Lemma insert_left_length {A} (L : A → A → run bool) x ps r :
  insert_left L x ps = Done r → length r = S (length ps).
Proof.
  revert r. induction ps as [|p ps IH]; intros r; cbn.
  { by intros [= <-]. }
  destruct (L x p) as [[]|]; [| |done].
  - destruct (insert_left L x ps) as [r'|]; [|done].
    intros [= <-]. cbn. by rewrite (IH r').
  - by intros [= <-].
Qed.

(** The inner loop moves the node at index [j] leftwards as
    [insert_left] inserts it into the nodes before it. *)
Lemma insertionSort_inner_spec sorter (ps : list Node) x tail :
  insertionSort_inner (length ps) 0 (Z.of_nat (length ps))
    (mkReverse (mkNodeSort (reverse ps ++ x :: tail) sorter))
  = match insert_left (Reverse sorter) x ps with
    | Done r => Done (mkReverse (mkNodeSort (reverse r ++ tail) sorter))
    | Panic f => Panic f
    end.
Proof.
  revert tail. induction ps as [|p ps IH]; intros tail; [done|].
  cbn [length insertionSort_inner insert_left].
  destruct (Z.gtb_spec (Z.of_nat (S (length ps))) 0); [|lia].
  replace (Z.of_nat (S (length ps)) - 1) with (Z.of_nat (length ps)) by lia.
  assert (reverse (p :: ps) ++ x :: tail = reverse ps ++ p :: x :: tail) as Hl.
  { by rewrite reverse_cons, <-app_assoc. }
  assert (index (reverse (p :: ps) ++ x :: tail) (Z.of_nat (length ps))
          = Done p) as Hp.
  { rewrite Hl, <-(length_reverse ps). apply index_middle. }
  assert (index (reverse (p :: ps) ++ x :: tail) (Z.of_nat (S (length ps)))
          = Done x) as Hx.
  { replace (S (length ps)) with (length (reverse (p :: ps)))
      by (by rewrite length_reverse).
    apply index_middle. }
  cbn [Less Swap reverse_Interface nodeSort_Interface Interface_].
  unfold nodeSort_Less, nodeSort_Swap. cbn [Nodes Sorter].
  rewrite Hp, Hx. unfold Reverse at 1.
  destruct (sorter p x) as [[]|f]; [| |done].
  - assert (<[Z.to_nat (Z.of_nat (length ps)):=x]>
              (<[Z.to_nat (Z.of_nat (S (length ps))):=p]>
                 (reverse (p :: ps) ++ x :: tail))
            = reverse ps ++ x :: p :: tail) as ->.
    { rewrite !Nat2Z.id.
      rewrite (insert_middle (reverse (p :: ps)) x p tail)
        by (by rewrite length_reverse).
      rewrite reverse_cons, <-app_assoc. cbn [app].
      by rewrite (insert_middle (reverse ps) p x (p :: tail))
        by (by rewrite length_reverse). }
    rewrite (IH (p :: tail)).
    destruct (insert_left (Reverse sorter) x ps) as [r|f]; [|done].
    by rewrite reverse_cons, <-app_assoc.
  - by rewrite !reverse_cons, <-!app_assoc.
Qed.

(** The outer loop inserts the remaining nodes one after the other. *)
Lemma insertionSort_outer_spec sorter (srev todo : list Node) :
  insertionSort_outer (length todo) 0
    (Z.of_nat (length srev + length todo)) (Z.of_nat (length srev))
    (mkReverse (mkNodeSort (reverse srev ++ todo) sorter))
  = match insertionSort_from (Reverse sorter) srev todo with
    | Done r => Done (mkReverse (mkNodeSort r sorter))
    | Panic f => Panic f
    end.
Proof.
  revert srev. induction todo as [|x rest IH]; intros srev.
  { cbn. by rewrite app_nil_r. }
  cbn [length insertionSort_outer insertionSort_from].
  destruct (Z.ltb_spec (Z.of_nat (length srev))
              (Z.of_nat (length srev + S (length rest)))); [|lia].
  rewrite Z.sub_0_r, Nat2Z.id, insertionSort_inner_spec.
  destruct (insert_left (Reverse sorter) x srev) as [r|f] eqn:Hr; [|done].
  apply insert_left_length in Hr.
  replace (Z.of_nat (length srev) + 1) with (Z.of_nat (length r)) by lia.
  replace (length srev + S (length rest))%nat
    with (length r + length rest)%nat by lia.
  apply IH.
Qed.

(** X12.  Sorting through nodeSort.  The insertion sort of the sort
    package, run over the whole slice through the Len, Less and Swap of
    a reversed nodeSort, arranges the nodes exactly as the insertion
    sort of the list of nodes under the reversed comparator does; it
    panics only where the comparator does, never on an index. *)
Theorem X12_insertion_sort_through_nodeSort (s : nodeSort) :
  insertionSort_data (mkReverse s) 0 (Len (mkReverse s))
  = match insertionSort (Reverse (Sorter s)) (Nodes s) with
    | Done r => Done (mkReverse (mkNodeSort r (Sorter s)))
    | Panic f => Panic f
    end.
Proof.
  destruct s as [l sorter]. unfold insertionSort_data, insertionSort.
  cbn [Len reverse_Interface nodeSort_Interface Interface_ Nodes Sorter].
  unfold nodeSort_Len. cbn [Nodes].
  destruct l as [|x rest]; [done|].
  cbn [insertionSort_from insert_left].
  pose proof (insertionSort_outer_spec sorter [x] rest) as Hspec.
  cbn [length reverse app] in Hspec.
  replace (Z.to_nat (Z.of_nat (length (x :: rest)) - 0 - 1))
    with (length rest) by (cbn [length]; lia).
  replace (Z.of_nat (length (x :: rest)))
    with (Z.of_nat (1 + length rest)) by (cbn [length]; lia).
  exact Hspec.
Qed.

(** ** The node context handler *)

Lemma getEventsContext_result `{SortPackage} w reqId embed tr frags mods err
  tr' :
  getEventsContext w reqId embed tr = Done ((frags, mods, err), tr') →
  match err with
  | None => is_Some frags ∧ is_Some mods
  | Some _ => frags = None ∧ mods = None
  end.
Proof.
  unfold getEventsContext.
  destruct (GetRequest w reqId) as [[req|] [e|]]; [| | |done].
  1,3: by intros [= <- <- <- <-].
  destruct (match embed with
            | Some em => url_Parse w (URI em)
            | None => (Query req, None)
            end) as [query [e|]]; [by intros [= <- <- <- <-]|].
  unfold bind.
  destruct (getEvents w req _ _ _ tr) as [[[[up past] [msg|]] tr1]|];
    [by intros [= <- <- <- <-]| |done].
  destruct (Render w _ _ _ _) as [rendered [e|]];
    [by intros [= <- <- <- <-]|].
  unfold lift, ret. destruct (first_start up) as [expire|]; [|done].
  intros [= <- <- <- <-]. split; by eexists.
Qed.

Lemma getEventContext_result w reqId embed tr frags mods err tr' :
  getEventContext w reqId embed tr = Done ((frags, mods, err), tr') →
  match err with
  | None => is_Some frags ∧ is_Some mods
  | Some _ => frags = None ∧ mods = None
  end.
Proof.
  unfold getEventContext.
  destruct (GetRequest w reqId) as [[req|] [e|]]; [| | |done].
  1,3: by intros [= <- <- <- <-].
  unfold bind, call_GetChildren.
  destruct (GetChildren w (Site req) (NodePath req)) as [images [e|]];
    [by intros [= <- <- <- <-]|].
  destruct (Render w _ _ _ _) as [rendered [e|]];
    [by intros [= <- <- <- <-]|].
  intros [= <- <- <- <-]. split; by eexists.
Qed.

(** X13.  The handler of the module.  Every call takes one session
    from the pool and, if it got one, frees it again, whether the
    dispatch returns or panics; when the pool gives none, nothing is
    enumerated and no clock is read.  A return with an error carries
    no fragment and no cache descriptor, and the error names the step
    that failed: the session, the list view (node type "events.Events")
    or the single-item view (node type "events.Event").  A return
    without error carries a fragment and a descriptor for these two
    node types, and for every other node type nothing at all, without
    any enumeration or clock reading. *)
Theorem X13_handler_outcomes :
  (∀ (SP : SortPackage) w c req nodeType embed pl tr r pl',
     nodeContextHandler w c req nodeType embed pl tr = (r, pl') →
     news pl' = S (news pl) ∧
     match Sessions_New c (news pl) with
     | Some e =>
         frees pl' = frees pl ∧
         r = Done ((None, None, Some (Errorf "Could not get session: " e)), tr)
     | None => frees pl' = S (frees pl)
     end) ∧
  (∀ (SP : SortPackage) w c req nodeType embed pl tr frags mods err tr' pl',
     nodeContextHandler w c req nodeType embed pl tr
     = (Done ((frags, mods, err), tr'), pl') →
     match err with
     | Some msg =>
         frags = None ∧ mods = None ∧
         ((∃ e, msg = Errorf "Could not get session: " e) ∨
          (nodeType = "events.Events"%string ∧
           ∃ e, msg = Errorf "Could not get events context: " e) ∨
          (nodeType = "events.Event"%string ∧
           ∃ e, msg = Errorf "Could not get event context: " e))
     | None =>
         (is_Some frags ∧ is_Some mods ∧
          (nodeType = "events.Events"%string ∨
           nodeType = "events.Event"%string)) ∨
         (frags = None ∧ mods = None ∧ tr' = tr ∧
          nodeType ≠ "events.Events"%string ∧
          nodeType ≠ "events.Event"%string)
     end).
Proof.
  split.
  - intros SP w c req nodeType embed pl tr r pl'. unfold nodeContextHandler.
    destruct (Sessions_New c (news pl)) as [e|]; by intros [= <- <-].
  - intros SP w c req nodeType embed pl tr frags mods err tr' pl'.
    unfold nodeContextHandler.
    destruct (Sessions_New c (news pl)) as [e|].
    { intros [= <- <- <- <- <-]. split_and!; [done..|]. left. by exists e. }
    unfold dispatch.
    destruct (String.eqb_spec nodeType "events.Events") as [->|Hne1].
    { unfold bind.
      destruct (getEventsContext w req embed tr)
        as [[[[ctx mods'] [e|]] tr1]|] eqn:Hctx; [| |done].
      - intros [= <- <- <- <- <-]. split_and!; [done..|]. right. left.
        split; [done|by exists e].
      - intros [= <- <- <- <- <-].
        apply getEventsContext_result in Hctx as [??]. left.
        split_and!; [done..|by left]. }
    destruct (String.eqb_spec nodeType "events.Event") as [->|Hne2].
    { unfold bind.
      destruct (getEventContext w req embed tr)
        as [[[[ctx mods'] [e|]] tr1]|] eqn:Hctx; [| |done].
      - intros [= <- <- <- <- <-]. split_and!; [done..|]. right. right.
        split; [done|by exists e].
      - intros [= <- <- <- <- <-].
        apply getEventContext_result in Hctx as [??]. left.
        split_and!; [done..|by right]. }
    intros [= <- <- <- <- <-]. by right.
Qed.

Lemma X13_handler_outcomes_witness :
  (is_Some (Some ({[ "EventList"%string := "<ul/>"%string ]}
                    : gmap string string)) ∧
   is_Some (Some (mkCacheMods [mkCacheDep "/termine" 2]
                    (Scenario.T + 2 * Scenario.day))) ∧
   ("events.Events"%string = "events.Events"%string ∨
    "events.Events"%string = "events.Event"%string)) ∨
  (Some ({[ "EventList"%string := "<ul/>"%string ]} : gmap string string)
   = None ∧
   Some (mkCacheMods [mkCacheDep "/termine" 2]
           (Scenario.T + 2 * Scenario.day)) = None ∧
   mkTrace 3 ["/aktionen"; "/aktionen/b"; "/aktionen/a"]%string = Scenario.tr0 ∧
   "events.Events"%string ≠ "events.Events"%string ∧
   "events.Events"%string ≠ "events.Event"%string).
Proof.
  apply (proj2 X13_handler_outcomes insertion_sort_package Scenario.world
           Wiring.pool 0%nat "events.Events"%string None (mkPoolLog 0 0)
           Scenario.tr0
           (Some {[ "EventList"%string := "<ul/>"%string ]})
           (Some (mkCacheMods [mkCacheDep "/termine" 2]
                    (Scenario.T + 2 * Scenario.day)))
           None
           (mkTrace 3 ["/aktionen"; "/aktionen/b"; "/aktionen/a"]%string)
           (mkPoolLog 1 1)).
  vm_compute. reflexivity.
Defined.

(** ** setup *)

(** X14.  setup stops at the first failure.  The calls it makes on the
    Monsti service are the registration of "events.Event", that of
    "events.Events" and the addition of the signal handler, in this
    order and up to the first one that fails.  It returns nil exactly
    when all three have succeeded; a registration that fails is
    returned as an error naming the node type, and the handler is
    never added after it; a handler that cannot be added is fatal. *)
Theorem X14_setup_stops_at_first_failure m calls outcome :
  setup m = (calls, outcome) →
  ∃ before last,
    calls = before ++ [last] ∧
    calls `prefix_of` [RegisterNodeType_call (event_type m);
                       RegisterNodeType_call (events_type m);
                       AddSignalHandler_call] ∧
    Forall (λ c, call_error m c = None) before ∧
    match outcome with
    | Returns None =>
        last = AddSignalHandler_call ∧ call_error m last = None
    | Returns (Some msg) =>
        ∃ nodeType e,
          last = RegisterNodeType_call nodeType ∧
          RegisterNodeType m nodeType = Some e ∧
          msg = register_error nodeType e ∧
          AddSignalHandler_call ∉ calls
    | Fatalf msg =>
        last = AddSignalHandler_call ∧
        ∃ e, AddSignalHandler m = Some e ∧
             msg = Errorf "Could not add signal handler: " e
    end.
Proof.
  unfold setup.
  destruct (RegisterNodeType m (event_type m)) as [e|] eqn:H1.
  { intros [= <- <-]. exists [], (RegisterNodeType_call (event_type m)).
    split_and!; [done|by eexists|constructor|].
    exists (event_type m), e. split_and!; [done..|].
    by intros [[=]|[]%elem_of_nil]%elem_of_cons. }
  destruct (RegisterNodeType m (events_type m)) as [e|] eqn:H2.
  { intros [= <- <-].
    exists [RegisterNodeType_call (event_type m)],
      (RegisterNodeType_call (events_type m)).
    split_and!; [done|by eexists|by rewrite !Forall_cons, Forall_nil|].
    exists (events_type m), e. split_and!; [done..|].
    by intros [[=]|[[=]|[]%elem_of_nil]%elem_of_cons]%elem_of_cons. }
  destruct (AddSignalHandler m) as [e|] eqn:H3.
  - intros [= <- <-].
    exists [RegisterNodeType_call (event_type m);
            RegisterNodeType_call (events_type m)], AddSignalHandler_call.
    split_and!;
      [done|by exists []|by rewrite !Forall_cons, Forall_nil|done|by exists e].
  - intros [= <- <-].
    exists [RegisterNodeType_call (event_type m);
            RegisterNodeType_call (events_type m)], AddSignalHandler_call.
    split_and!;
      [done|by exists []|by rewrite !Forall_cons, Forall_nil|done|done].
Qed.

Lemma X14_setup_stops_at_first_failure_witness :
  ∃ before last,
    [RegisterNodeType_call (event_type Wiring.monsti);
     RegisterNodeType_call (events_type Wiring.monsti)] = before ++ [last] ∧
    [RegisterNodeType_call (event_type Wiring.monsti);
     RegisterNodeType_call (events_type Wiring.monsti)]
    `prefix_of` [RegisterNodeType_call (event_type Wiring.monsti);
                 RegisterNodeType_call (events_type Wiring.monsti);
                 AddSignalHandler_call] ∧
    Forall (λ c, call_error Wiring.monsti c = None) before ∧
    ∃ nodeType e,
      last = RegisterNodeType_call nodeType ∧
      RegisterNodeType Wiring.monsti nodeType = Some e ∧
      register_error (events_type Wiring.monsti) "denied"
      = register_error nodeType e ∧
      AddSignalHandler_call
      ∉ [RegisterNodeType_call (event_type Wiring.monsti);
         RegisterNodeType_call (events_type Wiring.monsti)].
Proof.
  apply (X14_setup_stops_at_first_failure Wiring.monsti
           [RegisterNodeType_call (event_type Wiring.monsti);
            RegisterNodeType_call (events_type Wiring.monsti)]
           (Returns (Some (register_error (events_type Wiring.monsti)
                             "denied")))).
  reflexivity.
Defined.
